(** * A block allocator with a conservative mark-and-sweep collector

    Shallow embedding of [src/main.c]: the allocator ([find_free_block],
    [request_space], [malloc], [merge_free_blocks], [free], [realloc]),
    the collector ([scan_region], [scan_heap], [gc]) and the diagnostics
    ([count_allocated_blocks], [count_free_blocks], [print_gc_stats],
    [debug_heap]).

    Conventions.
    - Target: LP64 ([size_t], [uintptr_t] and pointers are 64 bits, [int] is
      32 bits), so [sizeof (struct block_meta)] is 8 + 8 + 4 + 4 + 4 plus 4
      bytes of padding, that is 32.
    - Unsigned and pointer arithmetic is written out with [wrap].
    - Block headers live in a finite map from header address to
      [block_meta]; every other byte of memory (payloads, static data,
      stack) lives in [mem].
    - [assert] is active (the source never defines NDEBUG): a failed
      assertion ends the run with [Abort].
    - Loops that follow [next] links take fuel; running out of it is the
      outcome [OutOfFuel].
    - [printf] is library code that may allocate through the [malloc] of
      this program; its effect on the heap is a parameter of the
      diagnostics that call it.
    - Page mappings are not modelled: a store through a header pointer
      succeeds wherever the pointer leads, also above the break. *)

From Stdlib Require Import ZArith Lia.
From stdpp Require Import base option list gmap.

Local Open Scope Z_scope.

(** ** Machine arithmetic *)

Definition modulus : Z := 2 ^ 64.

(** Reduction of a mathematical integer to a [size_t] / [uintptr_t]. *)
Definition wrap (z : Z) : Z := z mod modulus.

(** Conversion of a [size_t] to [intptr_t] (the parameter of [sbrk]). *)
Definition to_intptr (z : Z) : Z :=
  if z <? 2 ^ 63 then z else z - modulus.

(** [#define META_SIZE sizeof(struct block_meta)] *)
Definition META_SIZE : Z := 32.

(** [#define MIN_SIZE 8] *)
Definition MIN_SIZE : Z := 8.

(** [(void * ) -1] *)
Definition SBRK_FAILED : Z := wrap (-1).

(** The four tags the program stores in [magic]. *)
Definition MAGIC_FRESH : Z := 0x12345678.
Definition MAGIC_REUSED : Z := 0x77777777.
Definition MAGIC_SPLIT : Z := 0x22222222.
Definition MAGIC_FREED : Z := 0x55555555.

(** [size = (size + 7) & ~7;] *)
Definition align8 (size : Z) : Z := Z.land (wrap (size + 7)) (Z.lnot 7).

(** ** Data *)

(** [struct block_meta] *)
Record block_meta : Type := mk_meta {
  bm_size : Z;
  bm_next : Z;
  bm_free : Z;
  bm_marked : Z;
  bm_magic : Z
}.

Definition set_size (v : Z) (h : block_meta) : block_meta :=
  mk_meta v (bm_next h) (bm_free h) (bm_marked h) (bm_magic h).
Definition set_next (v : Z) (h : block_meta) : block_meta :=
  mk_meta (bm_size h) v (bm_free h) (bm_marked h) (bm_magic h).
Definition set_free (v : Z) (h : block_meta) : block_meta :=
  mk_meta (bm_size h) (bm_next h) v (bm_marked h) (bm_magic h).
Definition set_marked (v : Z) (h : block_meta) : block_meta :=
  mk_meta (bm_size h) (bm_next h) (bm_free h) v (bm_magic h).
Definition set_magic (v : Z) (h : block_meta) : block_meta :=
  mk_meta (bm_size h) (bm_next h) (bm_free h) (bm_marked h) v.

(** The state of the process that the allocator and the collector see.
    [brk], [brk_start] and [brk_max] are the state of the memory source
    behind [sbrk]: the current program break, the break at process start
    and the highest break the system grants. *)
Record heap : Type := mk_heap {
  global_base : Z;
  stack_bottom : Z;
  brk : Z;
  brk_start : Z;
  brk_max : Z;
  blocks : gmap Z block_meta;
  mem : Z → Z
}.

Definition with_global_base (v : Z) (s : heap) : heap :=
  mk_heap v (stack_bottom s) (brk s) (brk_start s) (brk_max s) (blocks s) (mem s).
Definition with_brk (v : Z) (s : heap) : heap :=
  mk_heap (global_base s) (stack_bottom s) v (brk_start s) (brk_max s) (blocks s) (mem s).
Definition with_blocks (v : gmap Z block_meta) (s : heap) : heap :=
  mk_heap (global_base s) (stack_bottom s) (brk s) (brk_start s) (brk_max s) v (mem s).
Definition with_mem (v : Z → Z) (s : heap) : heap :=
  mk_heap (global_base s) (stack_bottom s) (brk s) (brk_start s) (brk_max s) (blocks s) v.

(** ** Outcomes and the state monad *)

Inductive result (A : Type) : Type :=
| Ret (a : A) (s : heap)   (* the call returns [a] in state [s] *)
| Abort                    (* an [assert] failed *)
| Fault                    (* a header is read where none is stored *)
| OutOfFuel.               (* the fuel of a loop ran out *)

Arguments Ret {A} a s.
Arguments Abort {A}.
Arguments Fault {A}.
Arguments OutOfFuel {A}.

Definition M (A : Type) : Type := heap → result A.

Global Instance heap_ret : MRet M := fun A (a : A) s => Ret a s.

Global Instance heap_bind : MBind M := fun A B (k : A → M B) (m : M A) s =>
  match m s with
  | Ret a s' => k a s'
  | Abort => Abort
  | Fault => Fault
  | OutOfFuel => OutOfFuel
  end.

Definition ret {A} (a : A) : M A := mret a.

Definition timeout {A} : M A := fun _ => OutOfFuel.

(** [assert(c)] *)
Definition assert (c : bool) : M unit :=
  fun s => if c then Ret tt s else Abort.

Definition get_global_base : M Z := fun s => Ret (global_base s) s.
Definition get_stack_bottom : M Z := fun s => Ret (stack_bottom s) s.
Definition put_global_base (v : Z) : M unit :=
  fun s => Ret tt (with_global_base v s).

(** Reading a header through a [struct block_meta *]. *)
Definition load (b : Z) : M block_meta :=
  fun s => match blocks s !! b with
           | Some h => Ret h s
           | None => Fault
           end.

(** Writing all five fields of the header at [b]. *)
Definition store (b : Z) (h : block_meta) : M unit :=
  fun s => Ret tt (with_blocks (<[b := h]> (blocks s)) s).

(** Assigning to some fields of the header that [b] points to. *)
Definition modify (b : Z) (f : block_meta → block_meta) : M unit :=
  h ← load b; store b (f h).

(** The state in which the header at [b] has become [h]. *)
Definition update (b : Z) (h : block_meta) (s : heap) : heap :=
  with_blocks (<[b := h]> (blocks s)) s.

(** [( char * ) p + n] and [( struct block_meta * ) p - 1] *)
Definition ptr_add (p n : Z) : Z := wrap (p + n).
Definition header_of (ptr : Z) : Z := wrap (ptr - META_SIZE).
Definition payload_of (block : Z) : Z := ptr_add block META_SIZE.

(** Little-endian [uintptr_t] read at address [a]. *)
Fixpoint load_bytes (m : Z → Z) (a : Z) (n : nat) : Z :=
  match n with
  | O => 0
  | S n' => (m a) mod 256 + 256 * load_bytes m (a + 1) n'
  end.

Definition load64 (m : Z → Z) (a : Z) : Z := load_bytes m a 8.

(** [memcpy(dst, src, n)] on regions that do not overlap. *)
Definition memcpy (dst src n : Z) : M unit :=
  fun s =>
    Ret tt (with_mem (fun a => if (dst <=? a) && (a <? dst + n)
                               then mem s (src + (a - dst))
                               else mem s a) s).

(** ** The memory source

    [sbrk] is the C library's: it moves the program break by a signed
    increment and returns the previous break, or [(void * ) -1] when the
    new break would leave the range the system grants. *)
Definition sbrk (increment : Z) : M Z :=
  fun s =>
    let inc := to_intptr increment in
    let nb := brk s + inc in
    if inc =? 0 then Ret (brk s) s
    else if (brk_start s <=? nb) && (nb <=? brk_max s)
         then Ret (brk s) (with_brk nb s)
         else Ret SBRK_FAILED s.

(** ** The allocator *)

(** The loop of [find_free_block]; the pair is [(current, *last)]. *)
Fixpoint find_free_block_loop (fuel : nat) (current last size : Z)
  : M (Z * Z) :=
  match fuel with
  | O => timeout
  | S fuel' =>
      if current =? 0 then ret (0, last)
      else
        h ← load current;
        if negb (bm_free h =? 0) && (size <=? bm_size h)
        then ret (current, last)
        else find_free_block_loop fuel' (bm_next h) current size
  end.

Definition find_free_block (fuel : nat) (last size : Z) : M (Z * Z) :=
  current ← get_global_base;
  find_free_block_loop fuel current last size.

Definition request_space (last size : Z) : M Z :=
  block ← sbrk 0;
  request ← sbrk (wrap (size + META_SIZE));
  assert (block =? request);;
  if request =? SBRK_FAILED then ret 0
  else
    (if last =? 0 then ret tt else modify last (set_next block));;
    store block (mk_meta size 0 0 1 MAGIC_FRESH);;
    ret block.

(** The first three statements of [request_space]: the two calls of
    [sbrk] and the assertion.  The value is [request]. *)
Definition request_space_grant (size : Z) : M Z :=
  block ← sbrk 0;
  request ← sbrk (wrap (size + META_SIZE));
  assert (block =? request);;
  ret request.

(** The body of [if (block->size >= size + META_SIZE + MIN_SIZE)]. *)
Definition split_block (block size : Z) : M unit :=
  h ← load block;
  let remaining := wrap (bm_size h - size - META_SIZE) in
  modify block (set_size size);;
  let new_block := ptr_add (ptr_add block META_SIZE) size in
  h' ← load block;
  store new_block (mk_meta remaining (bm_next h') 1 0 MAGIC_SPLIT);;
  modify block (set_next new_block).

Definition malloc (fuel : nat) (size : Z) : M Z :=
  if size <=? 0 then ret 0
  else
    let size := align8 size in
    base ← get_global_base;
    if base =? 0 then
      block ← request_space 0 size;
      if block =? 0 then ret 0
      else put_global_base block;; ret (payload_of block)
    else
      '(block, last) ← find_free_block fuel 0 size;
      if block =? 0 then
        block ← request_space last size;
        if block =? 0 then ret 0
        else ret (payload_of block)
      else
        h ← load block;
        (if wrap (size + META_SIZE + MIN_SIZE) <=? bm_size h
         then split_block block size
         else ret tt);;
        modify block (set_free 0);;
        modify block (set_marked 1);;
        modify block (set_magic MAGIC_REUSED);;
        ret (payload_of block).

Fixpoint merge_free_blocks (fuel : nat) (current : Z) : M unit :=
  match fuel with
  | O => timeout
  | S fuel' =>
      if current =? 0 then ret tt
      else
        hc ← load current;
        let next := bm_next hc in
        if next =? 0 then ret tt
        else if bm_free hc =? 0 then merge_free_blocks fuel' next
        else
          hn ← load next;
          if negb (bm_free hn =? 0)
             && (ptr_add (ptr_add current META_SIZE) (bm_size hc) =? next)
          then
            modify current
              (set_size (wrap (bm_size hc + wrap (META_SIZE + bm_size hn))));;
            modify current (set_next (bm_next hn));;
            merge_free_blocks fuel' current
          else merge_free_blocks fuel' next
  end.

Definition free (fuel : nat) (ptr : Z) : M unit :=
  if ptr =? 0 then ret tt
  else
    let block := header_of ptr in
    h ← load block;
    assert (bm_free h =? 0);;
    assert ((bm_magic h =? MAGIC_REUSED) || (bm_magic h =? MAGIC_FRESH));;
    modify block (set_free 1);;
    modify block (set_marked 0);;
    modify block (set_magic MAGIC_FREED);;
    base ← get_global_base;
    merge_free_blocks fuel base.

Definition realloc (fuel : nat) (ptr size : Z) : M Z :=
  if ptr =? 0 then malloc fuel size
  else if size =? 0 then free fuel ptr;; ret 0
  else
    let block := header_of ptr in
    h ← load block;
    if size <=? bm_size h then ret ptr
    else
      new_ptr ← malloc fuel size;
      (if new_ptr =? 0 then ret tt
       else
         h' ← load block;
         memcpy new_ptr ptr (bm_size h');;
         free fuel ptr);;
      ret new_ptr.


(** ** The collector *)

Definition get_mem : M (Z → Z) := fun s => Ret (mem s) s.

(** The [while (block)] search of [scan_region]: marks the first block
    whose payload range holds [value]. *)
Fixpoint scan_region_find (fuel : nat) (value block : Z) : M unit :=
  match fuel with
  | O => timeout
  | S fuel' =>
      if block =? 0 then ret tt
      else
        h ← load block;
        let block_start := payload_of block in
        let block_end := wrap (block_start + bm_size h) in
        if (block_start <=? value) && (value <? block_end)
        then modify block (set_marked 1)
        else scan_region_find fuel' value (bm_next h)
  end.

(** The [for (p = start; p < end; p++)] loop of [scan_region]. *)
Fixpoint scan_region_loop (fuel : nat) (p end_ heap_start heap_end : Z)
  : M unit :=
  match fuel with
  | O => timeout
  | S fuel' =>
      if p <? end_ then
        m ← get_mem;
        let value := load64 m p in
        (if (heap_start <=? value) && (value <? heap_end)
         then block ← get_global_base; scan_region_find fuel' value block
         else ret tt);;
        scan_region_loop fuel' (ptr_add p 8) end_ heap_start heap_end
      else ret tt
  end.

Definition scan_region (fuel : nat) (start end_ : Z) : M unit :=
  base ← get_global_base;
  if base =? 0 then ret tt
  else
    let heap_start := wrap (base + META_SIZE) in
    heap_end ← sbrk 0;
    scan_region_loop fuel start end_ heap_start heap_end.

(** The [for (other = global_base; ...)] loop of [scan_heap]; the result
    is the new value of [new_marks]. *)
Fixpoint scan_heap_others (fuel : nat) (value other new_marks : Z) : M Z :=
  match fuel with
  | O => timeout
  | S fuel' =>
      if other =? 0 then ret new_marks
      else
        h ← load other;
        if bm_marked h =? 0 then
          let other_start := payload_of other in
          let other_end := ptr_add (payload_of other) (bm_size h) in
          if (other_start <=? value) && (value <? other_end) then
            modify other (set_marked 1);;
            h' ← load other;
            scan_heap_others fuel' value (bm_next h') 1
          else scan_heap_others fuel' value (bm_next h) new_marks
        else scan_heap_others fuel' value (bm_next h) new_marks
  end.

(** The [for (i = 0; i < word_count; i++)] loop of [scan_heap], with
    [n] the number of words still to read. *)
Fixpoint scan_heap_words (fuel : nat) (n : nat) (data i new_marks : Z)
  : M Z :=
  match n with
  | O => ret new_marks
  | S n' =>
      m ← get_mem;
      let value := load64 m (ptr_add data (8 * i)) in
      other ← get_global_base;
      new_marks' ← scan_heap_others fuel value other new_marks;
      scan_heap_words fuel n' data (i + 1) new_marks'
  end.

(** The [for (; block != NULL; block = block->next)] loop of [scan_heap]. *)
Fixpoint scan_heap_blocks (fuel : nat) (block new_marks : Z) : M Z :=
  match fuel with
  | O => timeout
  | S fuel' =>
      if block =? 0 then ret new_marks
      else
        h ← load block;
        if bm_marked h =? 0 then scan_heap_blocks fuel' (bm_next h) new_marks
        else
          let data := payload_of block in
          let word_count := bm_size h / 8 in
          new_marks' ←
            scan_heap_words fuel' (Z.to_nat word_count) data 0 new_marks;
          h' ← load block;
          scan_heap_blocks fuel' (bm_next h') new_marks'
  end.

(** The [do { ... } while (new_marks)] loop of [scan_heap]. *)
Fixpoint scan_heap_loop (fuel : nat) : M unit :=
  match fuel with
  | O => timeout
  | S fuel' =>
      block ← get_global_base;
      new_marks ← scan_heap_blocks fuel' block 0;
      if new_marks =? 0 then ret tt else scan_heap_loop fuel'
  end.

Definition scan_heap (fuel : nat) : M unit :=
  base ← get_global_base;
  if base =? 0 then ret tt else scan_heap_loop fuel.

(** The first loop of [gc]: [block->marked = 0] along the list. *)
Fixpoint gc_unmark_loop (fuel : nat) (block : Z) : M unit :=
  match fuel with
  | O => timeout
  | S fuel' =>
      if block =? 0 then ret tt
      else
        modify block (set_marked 0);;
        h ← load block;
        gc_unmark_loop fuel' (bm_next h)
  end.

(** The sweep loop of [gc]. *)
Fixpoint gc_sweep_loop (fuel : nat) (block : Z) : M unit :=
  match fuel with
  | O => timeout
  | S fuel' =>
      if block =? 0 then ret tt
      else
        h ← load block;
        let next := bm_next h in
        (if (bm_marked h =? 0) && (bm_free h =? 0) then
           modify block (set_free 1);;
           modify block (set_marked 0);;
           modify block (set_magic MAGIC_FREED)
         else ret tt);;
        gc_sweep_loop fuel' next
  end.

(** Everything [gc] does before the sweep: reset, the two root scans and
    the transitive closure.  [etext] and [end_] are the addresses of the
    linker's symbols, [stack_top] is the frame pointer read by the
    inline assembly. *)
Definition gc_mark (fuel : nat) (etext end_ stack_top : Z) : M unit :=
  block ← get_global_base;
  gc_unmark_loop fuel block;;
  scan_region fuel etext end_;;
  bottom ← get_stack_bottom;
  scan_region fuel stack_top bottom;;
  scan_heap fuel.

Definition gc (fuel : nat) (etext end_ stack_top : Z) : M unit :=
  base ← get_global_base;
  if base =? 0 then ret tt
  else
    gc_mark fuel etext end_ stack_top;;
    block ← get_global_base;
    gc_sweep_loop fuel block.

(** ** The diagnostics

    The counters are C [int]s; they are modelled without overflow, which
    C leaves undefined: the statements about them assume fewer than
    [2 ^ 31] blocks. *)

(** The loop of [count_allocated_blocks]. *)
Fixpoint count_allocated_loop (fuel : nat) (curr count : Z) : M Z :=
  match fuel with
  | O => timeout
  | S fuel' =>
      if curr =? 0 then ret count
      else
        h ← load curr;
        count_allocated_loop fuel' (bm_next h)
          (if bm_free h =? 0 then count + 1 else count)
  end.

Definition count_allocated_blocks (fuel : nat) : M Z :=
  curr ← get_global_base; count_allocated_loop fuel curr 0.

(** The loop of [count_free_blocks]. *)
Fixpoint count_free_loop (fuel : nat) (curr count : Z) : M Z :=
  match fuel with
  | O => timeout
  | S fuel' =>
      if curr =? 0 then ret count
      else
        h ← load curr;
        count_free_loop fuel' (bm_next h)
          (if bm_free h =? 0 then count else count + 1)
  end.

Definition count_free_blocks (fuel : nat) : M Z :=
  curr ← get_global_base; count_free_loop fuel curr 0.

(** The lines the diagnostics print. *)
Inductive dump_line : Type :=
| StatsLine (allocated free_ : Z)           (* "[Allocated: ... | Free: ...]" *)
| DumpTitle                                 (* "[HEAP DUMP]" *)
| DumpColumns                               (* the column names *)
| DumpRow (addr size free marked magic : Z) (* one block *)
| DumpCorrupted (addr magic : Z)            (* "[CORRUPTED - magic: ...]" *)
| DumpStopped                               (* "(stopped after 20 blocks)" *)
| DumpRule.                                 (* the closing rule *)

(** [printf] is the C library's.  The library takes its buffers from
    [malloc], and the [malloc] of this program has external linkage: a
    [printf] can run the allocator above on this heap (the first output
    of a process allocates the buffer of [stdout]).  What a call does to
    the heap is not in the source, so the diagnostics take it as a
    parameter: a function from the line printed to an action on the
    heap. *)
Definition stdio : Type := dump_line → M unit.

(** A [printf] that never touches the heap. *)
Definition silent : stdio := λ _, ret tt.

(** A [printf] that allocates a buffer of [size] bytes when it prints
    the title of the dump, as the first output of a process does. *)
Definition buffering (fuel : nat) (size : Z) : stdio :=
  λ d, match d with
       | DumpTitle => malloc fuel size;; ret tt
       | _ => ret tt
       end.

(** [print_gc_stats]: the two counters are called before [printf]. *)
Definition print_gc_stats (printf : stdio) (fuel : nat) : M unit :=
  allocated ← count_allocated_blocks fuel;
  free_ ← count_free_blocks fuel;
  printf (StatsLine allocated free_).

(** The test of [debug_heap] on the tag of a header. *)
Definition known_magic (magic : Z) : bool :=
  negb ((negb (magic =? MAGIC_FRESH)) && (negb (magic =? MAGIC_REUSED)) &&
        (negb (magic =? MAGIC_SPLIT)) && (negb (magic =? MAGIC_FREED))).

(** The [while (curr && count < 20)] loop of [debug_heap]; the value is
    the final [count] and the lines printed so far.  The fields of the
    row are read before [printf] is called, [curr->next] after it. *)
Fixpoint debug_heap_loop (printf : stdio) (fuel : nat) (curr count : Z)
    (out : list dump_line) : M (Z * list dump_line) :=
  match fuel with
  | O => timeout
  | S fuel' =>
      if negb (curr =? 0) && (count <? 20) then
        h ← load curr;
        if negb (known_magic (bm_magic h)) then
          let line := DumpCorrupted curr (bm_magic h) in
          printf line;;
          ret (count, out ++ [line])
        else
          let line := DumpRow curr (bm_size h) (bm_free h) (bm_marked h)
                              (bm_magic h) in
          printf line;;
          h' ← load curr;
          debug_heap_loop printf fuel' (bm_next h') (count + 1)
            (out ++ [line])
      else ret (count, out)
  end.

(** [debug_heap]: [global_base] is read before the first [printf]; the
    value is the list of the lines printed. *)
Definition debug_heap (printf : stdio) (fuel : nat) : M (list dump_line) :=
  curr ← get_global_base;
  printf DumpTitle;;
  printf DumpColumns;;
  '(count, out) ←
    debug_heap_loop printf fuel curr 0 [DumpTitle; DumpColumns];
  (if 20 <=? count then printf DumpStopped else ret tt);;
  printf DumpRule;;
  ret ((if 20 <=? count then out ++ [DumpStopped] else out) ++ [DumpRule]).

(** The state before the first call: no block, the break at [start]. *)
Definition initial_heap (start limit : Z) (m : Z → Z) : heap :=
  mk_heap 0 0 start start limit ∅ m.

(** Running the result of one call into the next. *)
Definition state_of {A} (r : result A) (default : heap) : heap :=
  match r with Ret _ s => s | _ => default end.

(** ** Vocabulary of the statements *)

(** The tags [free] accepts: the block is in the hands of the program. *)
Definition allocated_tag (magic : Z) : bool :=
  (magic =? MAGIC_REUSED) || (magic =? MAGIC_FRESH).

(** What [free] writes into the header of the block it releases. *)
Definition released (h : block_meta) : block_meta :=
  mk_meta (bm_size h) (bm_next h) 1 0 MAGIC_FREED.

(** What [malloc] writes into the header of a block it hands out again. *)
Definition reused (h : block_meta) : block_meta :=
  mk_meta (bm_size h) (bm_next h) 0 1 MAGIC_REUSED.

(** [chain hs p l]: following [next] from [p] visits exactly the header
    addresses [l] and then reaches NULL. *)
Inductive chain (hs : gmap Z block_meta) : Z → list Z → Prop :=
| chain_nil : chain hs 0 []
| chain_cons b h l :
    b ≠ 0 → hs !! b = Some h → chain hs (bm_next h) l → chain hs b (b :: l).

(** The block list of a state. *)
Definition block_list (s : heap) (l : list Z) : Prop :=
  chain (blocks s) (global_base s) l.

(** Partial-correctness triples: if [m] returns from a state in [P], the
    value and the state it returns satisfy [Q]. *)
Definition hoare {A} (P : heap → Prop) (m : M A) (Q : A → heap → Prop)
  : Prop :=
  ∀ s a s', P s → m s = Ret a s' → Q a s'.

(** A property of states that no write to the flags or the tag of a
    stored header can break. *)
Definition flag_stable (P : heap → Prop) : Prop :=
  ∀ s b h h', P s → blocks s !! b = Some h →
    bm_size h' = bm_size h → bm_next h' = bm_next h →
    P (update b h' s).

(** A property of states that no write to [marked] can break. *)
Definition mark_stable (P : heap → Prop) : Prop :=
  ∀ s b h v, P s → blocks s !! b = Some h →
    P (update b (set_marked v h) s).

(** The two fields of a header that [gc] never writes. *)
Definition layout_of (h : block_meta) : Z * Z := (bm_size h, bm_next h).

(** [keeps s s']: [s'] differs from [s] at most in the flags and tags of
    stored headers. *)
Definition keeps (s s' : heap) : Prop :=
  global_base s' = global_base s ∧ stack_bottom s' = stack_bottom s ∧
  brk s' = brk s ∧ brk_start s' = brk_start s ∧ brk_max s' = brk_max s ∧
  mem s' = mem s ∧
  ∀ b, layout_of <$> blocks s' !! b = layout_of <$> blocks s !! b.

(** What the sweep of [gc] does to one header. *)
Definition swept (h : block_meta) : block_meta :=
  if (bm_marked h =? 0) && (bm_free h =? 0) then released h else h.

(** The common shape of the first and the last loop of [gc]: visit the
    list and rewrite each header with [f]. *)
Fixpoint walk (f : block_meta → block_meta) (fuel : nat) (block : Z)
  : M unit :=
  match fuel with
  | O => timeout
  | S fuel' =>
      if block =? 0 then ret tt
      else h ← load block; store block (f h);; walk f fuel' (bm_next h)
  end.

(** The headers after [f] has been applied along the list [l]. *)
Definition rewrite_all (f : block_meta → block_meta) (l : list Z)
    (hs : gmap Z block_meta) : gmap Z block_meta :=
  foldl (λ m b, alter f b m) hs l.

(** What the mark phase reads of a header. *)
Definition mark_view (h : block_meta) : Z * Z * Z :=
  (bm_size h, bm_next h, bm_marked h).

(** [sim l s t]: on the blocks [l], closed under [next] and holding the
    list head, the states [s] and [t] look the same to the mark phase. *)
Record sim (l : list Z) (s t : heap) : Prop := mk_sim {
  sim_base : global_base s = global_base t;
  sim_bottom : stack_bottom s = stack_bottom t;
  sim_brk : brk s = brk t;
  sim_mem : mem s = mem t;
  sim_head : global_base s = 0 ∨ global_base s ∈ l;
  sim_blocks : ∀ b, b ∈ l →
    mark_view <$> blocks s !! b = mark_view <$> blocks t !! b;
  sim_closed : ∀ b h, b ∈ l → blocks s !! b = Some h →
    bm_next h = 0 ∨ bm_next h ∈ l
}.

(** Two outcomes that agree: the same kind, the same value, and states
    related by [sim]. *)
Definition rsim {A} (l : list Z) (r r' : result A) : Prop :=
  match r, r' with
  | Ret a s, Ret a' s' => a = a' ∧ sim l s s'
  | Abort, Abort | Fault, Fault | OutOfFuel, OutOfFuel => True
  | _, _ => False
  end.

(** [marks_only s s']: the stored headers of [s'] are those of [s] up to
    their [marked] fields. *)
Definition marks_only (s s' : heap) : Prop :=
  ∀ b, set_marked 0 <$> blocks s' !! b = set_marked 0 <$> blocks s !! b.

(** ** Concrete heaps used as test inputs *)

Module Demo.
(** A memory whose only non-zero bytes are one root word at address
    64, holding [v]. *)
Definition root_mem (v : Z) : Z → Z :=
  λ a, if (64 <=? a) && (a <? 72) then (v / 256 ^ (a - 64)) mod 256 else 0.

Definition run {A} (m : M A) (s : heap) : heap := state_of (m s) s.

(** The break starts at 4096 and may grow to 65536. *)
Definition start (v : Z) : heap := initial_heap 4096 65536 (root_mem v).

(** Three blocks of 16 bytes: headers at 4096, 4144 and 4192, payloads
    at 4128, 4176 and 4224. *)
Definition three (v : Z) : heap :=
  run (malloc 8 16) (run (malloc 8 16) (run (malloc 8 16) (start v))).

(** The root word points into the third block. *)
Definition rooted : heap := three 4224.

(** [gc] with the static data at [64, 72) and an empty stack. *)
Definition collect (s : heap) : result unit := gc 8 64 72 0 s.
End Demo.

(** ** Alignment *)


(** The calls a program can make. *)
Inductive op : Type :=
| Allocate (size : Z)
| Release (ptr : Z)
| Reallocate (ptr size : Z)
| Collect (etext end_ stack_top : Z).

(** One call; the value is the pointer returned, NULL for the two calls
    that return nothing. *)
Definition run_op (fuel : nat) (o : op) : M Z :=
  match o with
  | Allocate size => malloc fuel size
  | Release ptr => free fuel ptr;; ret 0
  | Reallocate ptr size => realloc fuel ptr size
  | Collect etext end_ stack_top => gc fuel etext end_ stack_top;; ret 0
  end.

(** A sequence of calls; the value lists the pointers returned. *)
Fixpoint run_ops (fuel : nat) (os : list op) : M (list Z) :=
  match os with
  | [] => ret []
  | o :: os' =>
      p ← run_op fuel o;
      ps ← run_ops fuel os';
      ret (p :: ps)
  end.

Module Script.
(** A run that takes every path: fresh blocks, a release, a growing
    [realloc] (which copies, releases and merges), a collection with no
    root into the heap and a reuse with a split.  All memory is zero. *)
Definition calls : list op :=
  [Allocate 1; Allocate 20; Allocate 100; Release 4128;
   Reallocate 4168 200; Collect 64 72 0; Allocate 3].

Definition start : heap := initial_heap 4096 65536 (λ _, 0).

Definition outcome : result (list Z) := run_ops 8 calls start.
End Script.

(** ** Address order and adjacency *)

(** [arena hs hi lo p l]: the list from [p] is [l], its blocks come in
    increasing address order from [lo] on, each ends (header, then
    payload) where the next begins or before, and the last ends at or
    before [hi]. *)
Inductive arena (hs : gmap Z block_meta) (hi : Z) : Z → Z → list Z → Prop :=
| arena_nil lo : lo <= hi → arena hs hi lo 0 []
| arena_cons lo b h l :
    lo <= b → 0 < b → hs !! b = Some h → 0 <= bm_size h →
    arena hs hi (b + META_SIZE + bm_size h) (bm_next h) l →
    arena hs hi lo b (b :: l).

(** The heap is laid out in address order below the break. *)
Definition heap_ok (s : heap) : Prop :=
  brk s < modulus ∧ ∃ l, arena (blocks s) (brk s) 1 (global_base s) l.

(** The address right after the payload of the block at [b]. *)
Definition block_end (b : Z) (h : block_meta) : Z :=
  ptr_add (ptr_add b META_SIZE) (bm_size h).

(** Both blocks are free and the first ends where the header of the
    second begins. *)
Definition adjacent_free (hs : gmap Z block_meta) (b1 b2 : Z) : Prop :=
  ∃ h1 h2, hs !! b1 = Some h1 ∧ hs !! b2 = Some h2 ∧
           bm_free h1 ≠ 0 ∧ bm_free h2 ≠ 0 ∧ block_end b1 h1 = b2.

(** No block of the list and its successor are free and adjacent. *)
Fixpoint pairs_ok (hs : gmap Z block_meta) (l : list Z) : Prop :=
  match l with
  | b1 :: (b2 :: _) as l' => ¬ adjacent_free hs b1 b2 ∧ pairs_ok hs l'
  | _ => True
  end.

(** No two blocks of the list are free and adjacent. *)
Definition coalesced (s : heap) : Prop :=
  ∀ l b1 b2, block_list s l → b1 ∈ l → b2 ∈ l →
             ¬ adjacent_free (blocks s) b1 b2.

(** ** First fit *)

(** The block at [b] can serve a request of [size] bytes: it is free and
    its payload is large enough. *)
Definition fits (hs : gmap Z block_meta) (size b : Z) : Prop :=
  ∃ h, hs !! b = Some h ∧ bm_free h ≠ 0 ∧ size <= bm_size h.

(** The pointer the search leaves in [*last] after walking the blocks
    [l]: the last of them, or the initial value when there is none. *)
Definition last_seen (initial : Z) (l : list Z) : Z :=
  default initial (last l).

(** ** What [malloc] promises on an ordered heap *)

(** Every block of [l] that is in use in [s] has in [s'] the size, the
    flags and the tag it had in [s]. *)
Definition in_use_kept (l : list Z) (s s' : heap) : Prop :=
  ∀ b h, b ∈ l → blocks s !! b = Some h → bm_free h = 0 →
    ∃ h', blocks s' !! b = Some h' ∧ bm_size h' = bm_size h ∧
          bm_free h' = 0 ∧ bm_marked h' = bm_marked h ∧
          bm_magic h' = bm_magic h.

(** [p] is the payload of a block of the list of [s'] that is in use,
    marked and at least [size] bytes large, and that was not in use in
    [s]: it is new or it was free.  No block has left the list. *)
Definition handed_out (l : list Z) (s s' : heap) (size p : Z) : Prop :=
  ∃ l' b h,
    block_list s' l' ∧ (∀ x, x ∈ l → x ∈ l') ∧
    p = b + META_SIZE ∧ b ∈ l' ∧ blocks s' !! b = Some h ∧
    bm_free h = 0 ∧ bm_marked h = 1 ∧ size <= bm_size h ∧
    (b ∉ l ∨ ∃ h0, blocks s !! b = Some h0 ∧ bm_free h0 ≠ 0).

Definition malloc_post (l : list Z) (s s' : heap) (size p : Z) : Prop :=
  heap_ok s' ∧ brk_max s' = brk_max s ∧ mem s' = mem s ∧
  in_use_kept l s s' ∧ (p ≠ 0 → handed_out l s s' size p).

(** The three fields of a header that the coalescing pass never writes. *)
Definition flags_of (h : block_meta) : Z * Z * Z :=
  (bm_free h, bm_marked h, bm_magic h).

(** Requests of at most [2 ^ 62] bytes. *)
Definition small_request (o : op) : Prop :=
  match o with
  | Allocate size | Reallocate _ size => size <= 2 ^ 62
  | _ => True
  end.

(** ** More test inputs *)

Module Cases.
(** A memory with a recognisable byte at every address. *)
Definition bytes : Z → Z := λ a, a mod 256.

Definition start : heap := initial_heap 4096 65536 bytes.

(** Three blocks of 16 bytes in use, as in [Demo.three]. *)
Definition three : heap :=
  Demo.run (malloc 8 16)
    (Demo.run (malloc 8 16) (Demo.run (malloc 8 16) start)).

(** The same with the middle block released. *)
Definition holed : heap := Demo.run (free 8 4176) three.

(** A process whose break cannot move by more than 4 bytes. *)
Definition full : heap := initial_heap 4096 4100 bytes.
End Cases.

(** ** Vocabulary of the diagnostics *)

(** The block at [b] is in use: its free flag is clear. *)
Definition in_use_at (hs : gmap Z block_meta) (b : Z) : bool :=
  match hs !! b with
  | Some h => bm_free h =? 0
  | None => false
  end.

(** How many blocks of [l] satisfy [p]. *)
Fixpoint tally (p : Z → bool) (l : list Z) : Z :=
  match l with
  | [] => 0
  | b :: l' => (if p b then 1 else 0) + tally p l'
  end.

(** The line [debug_heap] prints for a sound block at [b]. *)
Definition dump_row (hs : gmap Z block_meta) (b : Z) : dump_line :=
  match hs !! b with
  | Some h => DumpRow b (bm_size h) (bm_free h) (bm_marked h) (bm_magic h)
  | None => DumpCorrupted b 0
  end.

(** How many block lines a dump holds. *)
Definition is_row (d : dump_line) : bool :=
  match d with DumpRow _ _ _ _ _ => true | _ => false end.

Definition row_count (out : list dump_line) : nat :=
  length (List.filter is_row out).

(** A stretch of the list: the blocks [l] lead from [p] to [q] along the
    [next] fields, [q] excluded; [q] may be NULL, a block or anything. *)
Inductive segment (hs : gmap Z block_meta) : Z → list Z → Z → Prop :=
| segment_nil p : segment hs p [] p
| segment_cons b h l q :
    b ≠ 0 → hs !! b = Some h → segment hs (bm_next h) l q →
    segment hs b (b :: l) q.

(** The header at [b] carries one of the four tags the program writes. *)
Definition sound_tag (hs : gmap Z block_meta) (b : Z) : Prop :=
  ∀ h, hs !! b = Some h → known_magic (bm_magic h) = true.

(** The [printf] leaves the heap [s] as it is, as it does once [stdout]
    has its buffer. *)
Definition quiet_on (printf : stdio) (s : heap) : Prop :=
  ∀ d, printf d s = Ret tt s.

(** [Cases.three] with its first and its third block released: the block
    in the middle is in use between two free neighbours. *)
Definition flanked : heap :=
  Demo.run (free 8 4224) (Demo.run (free 8 4128) Cases.three).

(** The heap of [Cases.three] after its first block has been released. *)
Definition stale : heap := Demo.run (free 8 4128) Cases.three.

(** [Cases.three] after a stray write over the link and the tag of its
    second header. *)
Definition overrun : heap := update 4144 (mk_meta 16 4097 0 1 0) Cases.three.

(** ** What the mark phase computes *)

(** The address [v] lies inside the payload of the block at [b]. *)
Definition in_payload (hs : gmap Z block_meta) (v b : Z) : Prop :=
  ∃ h, hs !! b = Some h ∧ b + META_SIZE <= v < b + META_SIZE + bm_size h.

(** The addresses of the words that [scan_region start end_] reads. *)
Definition scanned (start end_ p : Z) : Prop :=
  ∃ k, 0 <= k ∧ p = start + 8 * k ∧ p < end_.

(** The root words of one collection: the static data between [etext]
    and [end_], and the stack between [stack_top] and [stack_bottom].
    Both regions lie outside the heap, so their bytes are in [mem]. *)
Definition root (s : heap) (etext end_ stack_top p : Z) : Prop :=
  scanned etext end_ p ∨ scanned stack_top (stack_bottom s) p.

(** The blocks of the list [l] that a word-by-word conservative trace
    from the root words [rt] arrives at: a root word holds an address
    inside the payload, or one of the [size / 8] words of a block already
    reached does. *)
Inductive reachable (s : heap) (l : list Z) (rt : Z → Prop) : Z → Prop :=
| reach_root p b :
    rt p → b ∈ l → in_payload (blocks s) (load64 (mem s) p) b →
    reachable s l rt b
| reach_word b h i c :
    reachable s l rt b → blocks s !! b = Some h →
    0 <= i < bm_size h / 8 → c ∈ l →
    in_payload (blocks s) (load64 (mem s) (b + META_SIZE + 8 * i)) c →
    reachable s l rt c.

(** The header at [b] has a non-zero [marked] field. *)
Definition is_marked (s : heap) (b : Z) : Prop :=
  ∃ h, blocks s !! b = Some h ∧ bm_marked h ≠ 0.

(** [grows s s']: [s'] is [s] with more marks. *)
Definition grows (s s' : heap) : Prop :=
  keeps s s' ∧ marks_only s s' ∧ ∀ b, is_marked s b → is_marked s' b.

(** Every block of [l] is unmarked, or marked with 1 and in [R]. *)
Definition marked_within (R : Z → Prop) (l : list Z) (s : heap) : Prop :=
  ∀ b h, b ∈ l → blocks s !! b = Some h →
         bm_marked h = 0 ∨ (bm_marked h = 1 ∧ R b).

(** The invariant of the mark phase started in [s0]. *)
Definition marking (R : Z → Prop) (l : list Z) (s0 s : heap) : Prop :=
  keeps s0 s ∧ marked_within R l s.

(** The marks of [s] are closed under the words of the marked blocks. *)
Definition closed_marks (s0 : heap) (l : list Z) (s : heap) : Prop :=
  ∀ b h j c, b ∈ l → is_marked s b → blocks s0 !! b = Some h →
    0 <= j < bm_size h / 8 → c ∈ l →
    in_payload (blocks s0) (load64 (mem s0) (b + META_SIZE + 8 * j)) c →
    is_marked s c.

(** ** Fuel for one collection *)





(** The calls of the allocator proper: every call but [gc]. *)
Definition allocator_call (o : op) : Prop :=
  match o with
  | Collect _ _ _ => False
  | _ => True
  end.

(** A run without [gc]: the calls of [Script.calls] but the collection. *)
Definition churn : list op :=
  [Allocate 1; Allocate 20; Allocate 100; Release 4128;
   Reallocate 4168 200; Allocate 3].

(** ** What the coalescing pass does to the list *)

(** [merged hs hs' l l']: the list [l'] with headers [hs'] is the list
    [l] with headers [hs] in which some free blocks have been merged into
    the free block before them.  No block enters the list; every block
    of [l] lies inside a block of [l'], which is the block itself or a
    free block that has taken over the free block; and every block of
    [l'] ends where a block of [l] ended. *)
Definition merged (hs hs' : gmap Z block_meta) (l l' : list Z) : Prop :=
  (∀ b, b ∈ l' → b ∈ l) ∧
  (∀ x hx, x ∈ l → hs !! x = Some hx →
     ∃ b hb hb', b ∈ l' ∧ hs !! b = Some hb ∧ hs' !! b = Some hb' ∧
       b <= x ∧
       x + META_SIZE + bm_size hx <= b + META_SIZE + bm_size hb' ∧
       (x ≠ b → bm_free hx ≠ 0 ∧ bm_free hb ≠ 0)) ∧
  (∀ b hb', b ∈ l' → hs' !! b = Some hb' →
     ∃ x hx, x ∈ l ∧ hs !! x = Some hx ∧
       b + META_SIZE + bm_size hb' = x + META_SIZE + bm_size hx).

(** [Cases.three] with the tag of its second header overwritten; the
    block is in use and its link is intact. *)
Definition smudged : heap := update 4144 (mk_meta 16 4192 0 1 0) Cases.three.

(** * Properties *)

(** ** Machine arithmetic *)

Lemma modulus_eq : modulus = 18446744073709551616.
Proof. reflexivity. Qed.

Lemma wrap_range z : 0 <= wrap z < modulus.
Proof. unfold wrap. apply Z.mod_pos_bound. rewrite modulus_eq. lia. Qed.

Lemma wrap_small z : 0 <= z < modulus → wrap z = z.
Proof. intros. unfold wrap. apply Z.mod_small. lia. Qed.


Lemma land_lnot7 x : Z.land x (Z.lnot 7) = x - x mod 8.
Proof.
  rewrite <- Z.ldiff_land.
  change 7 with (Z.ones 3).
  rewrite Z.ldiff_ones_r by lia.
  rewrite Z.shiftl_mul_pow2, Z.shiftr_div_pow2 by lia.
  change (2 ^ 3) with 8.
  pose proof (Z.div_mod x 8). lia.
Qed.

Lemma align8_eq size : align8 size = wrap (size + 7) - wrap (size + 7) mod 8.
Proof. unfold align8. apply land_lnot7. Qed.


Lemma align8_range size : 0 <= align8 size < modulus.
Proof.
  rewrite align8_eq.
  pose proof (wrap_range (size + 7)).
  pose proof (Z.mod_pos_bound (wrap (size + 7)) 8).
  pose proof (Z.mod_le (wrap (size + 7)) 8). lia.
Qed.

(** Without overflow the aligned size is the least multiple of 8 that is
    at least the request. *)
Lemma align8_ge size :
  0 <= size → size + 7 < modulus →
  size <= align8 size < size + 8.
Proof.
  intros. rewrite align8_eq, wrap_small by lia.
  pose proof (Z.mod_pos_bound (size + 7) 8). lia.
Qed.

(** ** The monad *)

Lemma bind_unfold {A B} (m : M A) (k : A → M B) s :
  (m ≫= k) s = match m s with
               | Ret a s' => k a s'
               | Abort => Abort
               | Fault => Fault
               | OutOfFuel => OutOfFuel
               end.
Proof. reflexivity. Qed.

Lemma bind_Ret {A B} (m : M A) (k : A → M B) s a s1 :
  m s = Ret a s1 → (m ≫= k) s = k a s1.
Proof. intros E. rewrite bind_unfold, E. reflexivity. Qed.

Lemma bind_Ret_inv {A B} (m : M A) (k : A → M B) s b s' :
  (m ≫= k) s = Ret b s' → ∃ a s1, m s = Ret a s1 ∧ k a s1 = Ret b s'.
Proof.
  rewrite bind_unfold. destruct (m s) as [a s1| | |]; try discriminate.
  intros E. exists a, s1. split; [reflexivity|exact E].
Qed.

Lemma ret_unfold {A} (a : A) s : ret a s = Ret a s.
Proof. reflexivity. Qed.

Lemma load_Some b h s : blocks s !! b = Some h → load b s = Ret h s.
Proof. intros E. unfold load. rewrite E. reflexivity. Qed.

Lemma load_None b s : blocks s !! b = None → load b s = Fault.
Proof. intros E. unfold load. rewrite E. reflexivity. Qed.

Lemma load_Ret_inv b h s s' :
  load b s = Ret h s' → blocks s !! b = Some h ∧ s' = s.
Proof.
  unfold load. destruct (blocks s !! b); [|discriminate].
  intros [= -> ->]. split; reflexivity.
Qed.

Lemma store_unfold b h s : store b h s = Ret tt (update b h s).
Proof. reflexivity. Qed.

Lemma modify_Some b f h s :
  blocks s !! b = Some h → modify b f s = Ret tt (update b (f h) s).
Proof. intros E. unfold modify. rewrite (bind_Ret _ _ _ _ _ (load_Some _ _ _ E)). reflexivity. Qed.

Lemma modify_None b f s : blocks s !! b = None → modify b f s = Fault.
Proof. intros E. unfold modify. rewrite bind_unfold, (load_None _ _ E). reflexivity. Qed.

Lemma modify_Ret_inv b f s u s' :
  modify b f s = Ret u s' →
  ∃ h, blocks s !! b = Some h ∧ s' = update b (f h) s.
Proof.
  unfold modify. intros E.
  apply bind_Ret_inv in E as (h & s1 & E1 & E2).
  apply load_Ret_inv in E1 as [E1 ->].
  rewrite store_unfold in E2. injection E2 as <-. eauto.
Qed.

Lemma blocks_update b h s : blocks (update b h s) = <[b := h]> (blocks s).
Proof. reflexivity. Qed.

Lemma lookup_update_eq b h s : blocks (update b h s) !! b = Some h.
Proof. rewrite blocks_update. apply lookup_insert_eq. Qed.

Lemma lookup_update_ne b b' h s :
  b ≠ b' → blocks (update b h s) !! b' = blocks s !! b'.
Proof. intros. rewrite blocks_update. by apply lookup_insert_ne. Qed.

Lemma update_update b h h' s : update b h' (update b h s) = update b h' s.
Proof.
  unfold update, with_blocks. simpl. f_equal. apply insert_insert_eq.
Qed.

Lemma update_id b h s : blocks s !! b = Some h → update b h s = s.
Proof.
  intros E. unfold update, with_blocks. rewrite (insert_id _ _ _ E).
  by destruct s.
Qed.

Lemma eqb_neq_false x y : x ≠ y → (x =? y) = false.
Proof. apply Z.eqb_neq. Qed.

(** Three field writes through the same pointer. *)
Lemma modify3 b f g k h s :
  blocks s !! b = Some h →
  (modify b f;; modify b g;; modify b k) s = Ret tt (update b (k (g (f h))) s).
Proof.
  intros E.
  rewrite (bind_Ret _ _ _ _ _ (modify_Some _ f _ _ E)).
  rewrite (bind_Ret _ _ _ _ _ (modify_Some _ g _ _ (lookup_update_eq _ _ _))).
  rewrite (modify_Some _ k _ _ (lookup_update_eq _ _ _)).
  by rewrite !update_update.
Qed.

(** ** [free] *)

Lemma free_unfold fuel ptr s h :
  ptr ≠ 0 → blocks s !! header_of ptr = Some h →
  free fuel ptr s =
    if bm_free h =? 0 then
      if allocated_tag (bm_magic h) then
        merge_free_blocks fuel (global_base s)
          (update (header_of ptr) (released h) s)
      else Abort
    else Abort.
Proof.
  intros Hp E. unfold free. rewrite (eqb_neq_false _ _ Hp).
  rewrite (bind_Ret _ _ _ _ _ (load_Some _ _ _ E)).
  unfold allocated_tag.
  rewrite bind_unfold. unfold assert at 1.
  destruct (bm_free h =? 0); [|reflexivity].
  rewrite bind_unfold. unfold assert at 1.
  destruct (_ || _); [|reflexivity].
  rewrite (bind_Ret _ _ _ _ _ (modify_Some _ _ _ _ E)).
  rewrite (bind_Ret _ _ _ _ _ (modify_Some _ _ _ _ (lookup_update_eq _ _ _))).
  rewrite (bind_Ret _ _ _ _ _ (modify_Some _ _ _ _ (lookup_update_eq _ _ _))).
  rewrite !update_update. reflexivity.
Qed.

(** ** Triples *)

Section Hoare.
Context {A B : Type}.
Implicit Types (P : heap → Prop) (m : M A) (k : A → M B).

Lemma hoare_ret P (a : A) (Q : A → heap → Prop) :
  (∀ s, P s → Q a s) → hoare P (ret a) Q.
Proof. intros H s a' s' HP [= <- <-]. by apply H. Qed.

Lemma hoare_bind P m k (R : A → heap → Prop) (Q : B → heap → Prop) :
  hoare P m R → (∀ a, hoare (R a) (k a) Q) → hoare P (m ≫= k) Q.
Proof.
  intros Hm Hk s b s' HP E.
  apply bind_Ret_inv in E as (a & s1 & E1 & E2).
  eapply Hk; [|exact E2]. eapply Hm; eauto.
Qed.

Lemma hoare_conseq P P' m (Q Q' : A → heap → Prop) :
  hoare P' m Q' → (∀ s, P s → P' s) → (∀ a s, Q' a s → Q a s) →
  hoare P m Q.
Proof. intros H HP HQ s a s' Hs E. apply HQ. eapply H; eauto. Qed.

Lemma hoare_timeout P (Q : A → heap → Prop) : hoare P timeout Q.
Proof. intros s a s' _ E. discriminate E. Qed.

Lemma hoare_false m (Q : A → heap → Prop) : hoare (λ _, False) m Q.
Proof. intros s a s' []. Qed.
End Hoare.

Lemma hoare_load P b :
  hoare P (load b) (λ h s, P s ∧ blocks s !! b = Some h).
Proof. intros s h s' HP E. apply load_Ret_inv in E as [E ->]. auto. Qed.

Lemma hoare_modify P b f (Q : unit → heap → Prop) :
  (∀ s h, P s → blocks s !! b = Some h → Q tt (update b (f h) s)) →
  hoare P (modify b f) Q.
Proof.
  intros H s [] s' HP E. apply modify_Ret_inv in E as (h & E & ->). eauto.
Qed.

Lemma hoare_store P b h (Q : unit → heap → Prop) :
  (∀ s, P s → Q tt (update b h s)) → hoare P (store b h) Q.
Proof. intros H s [] s' HP [= <-]. eauto. Qed.

Lemma hoare_assert P c : hoare P (assert c) (λ _ s, P s ∧ c = true).
Proof. intros s [] s' HP. unfold assert. destruct c; [|discriminate]. by intros [= <-]. Qed.

Lemma hoare_get_global_base P :
  hoare P get_global_base (λ v s, P s ∧ v = global_base s).
Proof. intros s v s' HP [= <- <-]. auto. Qed.

Lemma hoare_get_stack_bottom P :
  hoare P get_stack_bottom (λ v s, P s ∧ v = stack_bottom s).
Proof. intros s v s' HP [= <- <-]. auto. Qed.

Lemma hoare_get_mem P : hoare P get_mem (λ v s, P s ∧ v = mem s).
Proof. intros s v s' HP [= <- <-]. auto. Qed.

Lemma sbrk_0 s : sbrk 0 s = Ret (brk s) s.
Proof. reflexivity. Qed.

Lemma hoare_sbrk_0 P : hoare P (sbrk 0) (λ v s, P s ∧ v = brk s).
Proof. intros s v s' HP. rewrite sbrk_0. intros [= <- <-]. auto. Qed.

Lemma flag_stable_mark_stable P : flag_stable P → mark_stable P.
Proof. intros H s b h v HP E. eapply H; eauto. Qed.

(** ** The block list *)

Lemma chain_det hs p l1 l2 : chain hs p l1 → chain hs p l2 → l1 = l2.
Proof.
  intros H. revert l2. induction H as [|b h l Hb E Hc IH]; intros l2 H2.
  - inversion H2; congruence.
  - inversion H2 as [|b' h' l' Hb' E' Hc']; subst; [congruence|].
    rewrite E in E'. injection E' as <-. f_equal. by apply IH.
Qed.

Lemma chain_nonzero hs p l b : chain hs p l → b ∈ l → b ≠ 0.
Proof.
  induction 1 as [|b' h l Hb E Hc IH]; intros Hin.
  - by apply elem_of_nil in Hin.
  - apply elem_of_cons in Hin as [->|Hin]; auto.
Qed.

Lemma chain_lookup hs p l b : chain hs p l → b ∈ l → is_Some (hs !! b).
Proof.
  induction 1 as [|b' h l Hb E Hc IH]; intros Hin.
  - by apply elem_of_nil in Hin.
  - apply elem_of_cons in Hin as [->|Hin]; eauto.
Qed.

(** From any block of the list, the rest of the list is the list that
    starts there. *)
Lemma chain_suffix hs p l b :
  chain hs p l → b ∈ l → ∃ l1 l2, l = l1 ++ b :: l2 ∧ chain hs b (b :: l2).
Proof.
  induction 1 as [|b' h l Hb E Hc IH]; intros Hin.
  - by apply elem_of_nil in Hin.
  - destruct (decide (b = b')) as [->|Hne].
    + exists [], l. split; [reflexivity|]. econstructor; eauto.
    + apply elem_of_cons in Hin as [?|Hin]; [done|].
      destruct (IH Hin) as (l1 & l2 & -> & Hc').
      exists (b' :: l1), l2. split; [reflexivity|done].
Qed.

(** A list that ends at NULL visits no block twice. *)
Lemma chain_NoDup hs p l : chain hs p l → NoDup l.
Proof.
  induction 1 as [|b h l Hb E Hc IH]; constructor; [|done].
  intros Hin.
  destruct (chain_suffix _ _ _ _ Hc Hin) as (l1 & l2 & -> & Hc').
  assert (Hc2 : chain hs b (b :: l1 ++ b :: l2)) by (econstructor; eauto).
  pose proof (chain_det _ _ _ _ Hc' Hc2) as Heq.
  apply (f_equal length) in Heq. simpl in Heq.
  rewrite length_app in Heq. simpl in Heq. lia.
Qed.

(** The list only depends on the [next] fields of its own blocks. *)
Lemma chain_ext hs hs' p l :
  chain hs p l →
  (∀ b h, b ∈ l → hs !! b = Some h →
          ∃ h', hs' !! b = Some h' ∧ bm_next h' = bm_next h) →
  chain hs' p l.
Proof.
  induction 1 as [|b h l Hb E Hc IH]; intros Hext; [constructor|].
  destruct (Hext b h) as (h' & E' & Hn); [left|done|].
  econstructor; eauto. rewrite Hn. apply IH.
  intros b0 h0 Hin. apply Hext. by right.
Qed.

Lemma chain_update hs p l b h h' :
  chain hs p l → hs !! b = Some h → bm_next h' = bm_next h →
  chain (<[b := h']> hs) p l.
Proof.
  intros Hc E Hn. eapply chain_ext; [exact Hc|].
  intros b0 h0 _ E0. destruct (decide (b = b0)) as [->|Hne].
  - rewrite lookup_insert_eq. exists h'. split; [done|]. congruence.
  - rewrite lookup_insert_ne by done. eauto.
Qed.

Lemma chain_update_inv hs p l b h h' :
  chain (<[b := h']> hs) p l → hs !! b = Some h → bm_next h' = bm_next h →
  chain hs p l.
Proof.
  intros Hc E Hn. eapply chain_ext; [exact Hc|].
  intros b0 h0 _ E0. destruct (decide (b = b0)) as [->|Hne].
  - rewrite lookup_insert_eq in E0. injection E0 as <-. eauto.
  - rewrite lookup_insert_ne in E0 by done. eauto.
Qed.

(** ** What the collector can change *)

Lemma hoare_ret_eq {A} P (a : A) : hoare P (ret a) (λ v s, P s ∧ v = a).
Proof. intros s v s' HP [= <- <-]. auto. Qed.

Ltac hoare_step :=
  lazymatch goal with
  | |- hoare _ (if ?c then _ else _) _ => destruct c eqn:?
  | |- hoare _ ((if ?c then _ else _) ≫= _) _ => destruct c eqn:?
  | |- hoare _ (ret _) _ => apply hoare_ret
  | |- hoare _ timeout _ => apply hoare_timeout
  | |- hoare _ (ret _ ≫= _) _ =>
      eapply hoare_bind; [apply hoare_ret_eq|intros ?]
  | |- hoare _ (load _ ≫= _) _ =>
      eapply hoare_bind; [apply hoare_load|intros ?]
  | |- hoare _ (get_global_base ≫= _) _ =>
      eapply hoare_bind; [apply hoare_get_global_base|intros ?]
  | |- hoare _ (get_stack_bottom ≫= _) _ =>
      eapply hoare_bind; [apply hoare_get_stack_bottom|intros ?]
  | |- hoare _ (get_mem ≫= _) _ =>
      eapply hoare_bind; [apply hoare_get_mem|intros ?]
  | |- hoare _ (sbrk 0 ≫= _) _ =>
      eapply hoare_bind; [apply hoare_sbrk_0|intros ?]
  | |- hoare _ (assert _ ≫= _) _ =>
      eapply hoare_bind; [apply hoare_assert|intros ?]
  end.

(** Closing a goal with a known triple whose precondition follows from
    the current one. *)
Ltac hoare_use H :=
  eapply hoare_conseq; [eapply H| |];
  [intros ?; simpl; intuition eauto|intros ? ?; simpl; intuition eauto].

(** A call in the middle of a sequence, by a known triple that keeps an
    invariant. *)
Ltac hoare_call H :=
  eapply hoare_bind;
  [eapply hoare_conseq;
   [eapply H|intros ?; simpl; intuition eauto|intros ? ? HQ; exact HQ]
  |intros ?].

Section MarkStable.
Variable P : heap → Prop.
Hypothesis HP : mark_stable P.

Lemma hoare_set_marked b v : hoare P (modify b (set_marked v)) (λ _, P).
Proof. apply hoare_modify. intros s h HPs E. by apply HP. Qed.

Lemma scan_region_find_stable fuel value block :
  hoare P (scan_region_find fuel value block) (λ _, P).
Proof.
  revert block. induction fuel as [|fuel IH]; intros block; simpl.
  { apply hoare_timeout. }
  repeat hoare_step; auto.
  - hoare_use hoare_set_marked.
  - hoare_use IH.
Qed.

Lemma scan_region_loop_stable fuel p end_ hs he :
  hoare P (scan_region_loop fuel p end_ hs he) (λ _, P).
Proof.
  revert p. induction fuel as [|fuel IH]; intros p; simpl.
  { apply hoare_timeout. }
  repeat hoare_step; auto.
  - eapply hoare_bind; [|intros ?; apply IH].
    hoare_step. hoare_use scan_region_find_stable.
  - hoare_use IH.
Qed.

Lemma scan_region_stable fuel start end_ :
  hoare P (scan_region fuel start end_) (λ _, P).
Proof.
  unfold scan_region. repeat hoare_step; [tauto|].
  hoare_use scan_region_loop_stable.
Qed.

Lemma scan_heap_others_stable fuel value other nm :
  hoare P (scan_heap_others fuel value other nm) (λ _, P).
Proof.
  revert other nm. induction fuel as [|fuel IH]; intros other nm; simpl.
  { apply hoare_timeout. }
  repeat hoare_step; auto.
  - hoare_call hoare_set_marked. hoare_step. hoare_use IH.
  - hoare_use IH.
  - hoare_use IH.
Qed.

Lemma scan_heap_words_stable fuel n data i nm :
  hoare P (scan_heap_words fuel n data i nm) (λ _, P).
Proof.
  revert i nm. induction n as [|n IH]; intros i nm; simpl.
  { by apply hoare_ret. }
  repeat hoare_step.
  hoare_call scan_heap_others_stable. apply IH.
Qed.

Lemma scan_heap_blocks_stable fuel block nm :
  hoare P (scan_heap_blocks fuel block nm) (λ _, P).
Proof.
  revert block nm. induction fuel as [|fuel IH]; intros block nm; simpl.
  { apply hoare_timeout. }
  repeat hoare_step; auto.
  - hoare_use IH.
  - hoare_call scan_heap_words_stable. hoare_step. hoare_use IH.
Qed.

Lemma scan_heap_loop_stable fuel : hoare P (scan_heap_loop fuel) (λ _, P).
Proof.
  induction fuel as [|fuel IH]; simpl.
  { apply hoare_timeout. }
  hoare_step. hoare_call scan_heap_blocks_stable.
  repeat hoare_step; auto.
Qed.

Lemma scan_heap_stable fuel : hoare P (scan_heap fuel) (λ _, P).
Proof.
  unfold scan_heap. repeat hoare_step; [tauto|].
  hoare_use scan_heap_loop_stable.
Qed.

Lemma gc_unmark_loop_stable fuel block :
  hoare P (gc_unmark_loop fuel block) (λ _, P).
Proof.
  revert block. induction fuel as [|fuel IH]; intros block; simpl.
  { apply hoare_timeout. }
  repeat hoare_step; auto.
  hoare_call hoare_set_marked. hoare_step. hoare_use IH.
Qed.

Lemma gc_mark_stable fuel etext end_ stack_top :
  hoare P (gc_mark fuel etext end_ stack_top) (λ _, P).
Proof.
  unfold gc_mark. hoare_step.
  hoare_call gc_unmark_loop_stable.
  hoare_call scan_region_stable.
  hoare_step.
  hoare_call scan_region_stable.
  apply scan_heap_stable.
Qed.
End MarkStable.

Section FlagStable.
Variable P : heap → Prop.
Hypothesis HP : flag_stable P.

Lemma hoare_set_flag b f :
  (∀ h, bm_size (f h) = bm_size h ∧ bm_next (f h) = bm_next h) →
  hoare P (modify b f) (λ _, P).
Proof.
  intros Hf. apply hoare_modify. intros s h HPs E.
  destruct (Hf h). eapply HP; eauto.
Qed.

Lemma gc_sweep_loop_stable fuel block :
  hoare P (gc_sweep_loop fuel block) (λ _, P).
Proof.
  revert block. induction fuel as [|fuel IH]; intros block; simpl.
  { apply hoare_timeout. }
  repeat hoare_step; auto.
  - eapply hoare_bind; [|intros ?; apply IH].
    hoare_call (hoare_set_flag block (set_free 1) ltac:(done)).
    hoare_call (hoare_set_flag block (set_marked 0) ltac:(done)).
    hoare_use (hoare_set_flag block (set_magic MAGIC_FREED) ltac:(done)).
  - hoare_use IH.
Qed.

Lemma gc_stable fuel etext end_ stack_top :
  hoare P (gc fuel etext end_ stack_top) (λ _, P).
Proof.
  unfold gc. repeat hoare_step; [tauto|].
  hoare_call (gc_mark_stable P (flag_stable_mark_stable P HP)).
  hoare_step. hoare_use gc_sweep_loop_stable.
Qed.
End FlagStable.

Lemma keeps_refl s : keeps s s.
Proof. unfold keeps. tauto. Qed.

Lemma keeps_flag_stable s : flag_stable (keeps s).
Proof.
  intros s' b h h' (?&?&?&?&?&?&Hl) E Hs Hn.
  unfold keeps. simpl. repeat (split; [done|]).
  intros b0. rewrite <- Hl. destruct (decide (b = b0)) as [->|Hne].
  - rewrite lookup_insert_eq, E. simpl. unfold layout_of. congruence.
  - by rewrite lookup_insert_ne.
Qed.

Lemma gc_keeps fuel etext end_ stack_top s s' :
  gc fuel etext end_ stack_top s = Ret tt s' → keeps s s'.
Proof.
  intros E. eapply (gc_stable _ (keeps_flag_stable s)); [|exact E].
  apply keeps_refl.
Qed.

Lemma keeps_chain s s' p l :
  keeps s s' → chain (blocks s) p l → chain (blocks s') p l.
Proof.
  intros (_&_&_&_&_&_&Hl) Hc. eapply chain_ext; [exact Hc|].
  intros b h _ E. specialize (Hl b). rewrite E in Hl.
  destruct (blocks s' !! b) as [h'|]; [|discriminate].
  injection Hl as _ Hn. eauto.
Qed.

(** ** The loops of [gc] that rewrite every header of the list *)

Lemma rewrite_all_cons f a l hs :
  rewrite_all f (a :: l) hs = rewrite_all f l (alter f a hs).
Proof. reflexivity. Qed.

Lemma rewrite_all_notin f l hs b :
  b ∉ l → rewrite_all f l hs !! b = hs !! b.
Proof.
  revert hs. induction l as [|a l IH]; intros hs Hb; [done|].
  apply not_elem_of_cons in Hb as [Hne Hb].
  rewrite rewrite_all_cons, IH by done.
  by apply lookup_alter_ne.
Qed.

Lemma rewrite_all_in f l hs b :
  NoDup l → b ∈ l → rewrite_all f l hs !! b = f <$> hs !! b.
Proof.
  revert hs. induction l as [|a l IH]; intros hs Hnd Hb.
  { by apply elem_of_nil in Hb. }
  apply NoDup_cons in Hnd as [Ha Hnd]. rewrite rewrite_all_cons.
  destruct (decide (b = a)) as [->|Hne].
  - rewrite rewrite_all_notin by done. apply lookup_alter_eq.
  - apply elem_of_cons in Hb as [?|Hb]; [done|].
    rewrite IH by done. by rewrite lookup_alter_ne.
Qed.

Lemma alter_update f b h s :
  blocks s !! b = Some h →
  with_blocks (alter f b (blocks s)) s = update b (f h) s.
Proof.
  intros E. unfold update. f_equal. apply map_eq. intros b0.
  destruct (decide (b = b0)) as [->|Hne].
  - by rewrite lookup_alter_eq, lookup_insert_eq, E.
  - by rewrite lookup_alter_ne, lookup_insert_ne.
Qed.

Section Walk.
Variable f : block_meta → block_meta.
Hypothesis f_next : ∀ h, bm_next (f h) = bm_next h.

(** With enough fuel the walk returns, and it has rewritten exactly
    the headers of the list. *)
Lemma walk_total fuel p l s :
  chain (blocks s) p l → (length l < fuel)%nat →
  walk f fuel p s = Ret tt (with_blocks (rewrite_all f l (blocks s)) s).
Proof.
  revert p l s. induction fuel as [|fuel IH]; intros p l s Hc Hlen; [lia|].
  destruct Hc as [|b h l Hb E Hc]; simpl.
  { by destruct s. }
  rewrite (eqb_neq_false _ _ Hb).
  rewrite (bind_Ret _ _ _ _ _ (load_Some _ _ _ E)).
  rewrite bind_unfold, store_unfold.
  rewrite (IH (bm_next h) l).
  - f_equal. rewrite <- (alter_update f b h s E). reflexivity.
  - rewrite blocks_update. eapply chain_update; eauto.
  - simpl in Hlen. lia.
Qed.

(** A walk that returns has found the end of the list. *)
Lemma walk_returns fuel p s s' :
  walk f fuel p s = Ret tt s' →
  ∃ l, chain (blocks s) p l ∧ (length l < fuel)%nat.
Proof.
  revert p s. induction fuel as [|fuel IH]; intros p s; simpl.
  { discriminate. }
  destruct (p =? 0) eqn:Hp.
  - apply Z.eqb_eq in Hp as ->. intros _. exists []. split; [constructor|].
    simpl. lia.
  - apply Z.eqb_neq in Hp. intros E.
    apply bind_Ret_inv in E as (h & s1 & E1 & E2).
    apply load_Ret_inv in E1 as [E1 ->].
    rewrite bind_unfold, store_unfold in E2.
    apply IH in E2 as (l & Hc & Hlen).
    exists (p :: l). split; [|simpl; lia].
    econstructor; eauto.
    rewrite blocks_update in Hc. eapply chain_update_inv; eauto.
Qed.

Lemma walk_spec fuel p s s' :
  walk f fuel p s = Ret tt s' →
  ∃ l, chain (blocks s) p l ∧
       s' = with_blocks (rewrite_all f l (blocks s)) s.
Proof.
  intros E. destruct (walk_returns _ _ _ _ E) as (l & Hc & Hlen).
  exists l. split; [done|].
  rewrite (walk_total _ _ _ _ Hc Hlen) in E. congruence.
Qed.
End Walk.

Lemma gc_unmark_loop_walk fuel p s :
  gc_unmark_loop fuel p s = walk (set_marked 0) fuel p s.
Proof.
  revert p s. induction fuel as [|fuel IH]; intros p s; simpl; [done|].
  destruct (p =? 0); [done|].
  destruct (blocks s !! p) as [h|] eqn:E.
  - rewrite (bind_Ret _ _ _ _ _ (modify_Some _ _ _ _ E)).
    rewrite (bind_Ret _ _ _ _ _ (load_Some _ _ _ (lookup_update_eq _ _ _))).
    rewrite (bind_Ret _ _ _ _ _ (load_Some _ _ _ E)).
    rewrite bind_unfold, store_unfold. apply IH.
  - by rewrite !bind_unfold, (modify_None _ _ _ E), (load_None _ _ E).
Qed.

Lemma gc_sweep_loop_walk fuel p s :
  gc_sweep_loop fuel p s = walk swept fuel p s.
Proof.
  revert p s. induction fuel as [|fuel IH]; intros p s; simpl; [done|].
  destruct (p =? 0); [done|].
  destruct (blocks s !! p) as [h|] eqn:E.
  - rewrite !(bind_Ret _ _ _ _ _ (load_Some _ _ _ E)).
    rewrite (bind_unfold (store _ _)), store_unfold. unfold swept.
    destruct ((bm_marked h =? 0) && (bm_free h =? 0)).
    + rewrite (bind_Ret _ _ _ _ _ (modify3 _ _ _ _ _ _ E)). apply IH.
    + rewrite bind_unfold, ret_unfold, (update_id _ _ _ E). apply IH.
  - by rewrite !bind_unfold, (load_None _ _ E).
Qed.

(** ** The mark phase does not read the free flag or the tag *)

Lemma bind_get_mem {B} (k : (Z → Z) → M B) s :
  (get_mem ≫= k) s = k (mem s) s.
Proof. reflexivity. Qed.

Lemma bind_get_global_base {B} (k : Z → M B) s :
  (get_global_base ≫= k) s = k (global_base s) s.
Proof. reflexivity. Qed.

Lemma bind_get_stack_bottom {B} (k : Z → M B) s :
  (get_stack_bottom ≫= k) s = k (stack_bottom s) s.
Proof. reflexivity. Qed.

Lemma bind_sbrk_0 {B} (k : Z → M B) s : (sbrk 0 ≫= k) s = k (brk s) s.
Proof. reflexivity. Qed.

Lemma bind_load_Some {B} (k : block_meta → M B) b h s :
  blocks s !! b = Some h → (load b ≫= k) s = k h s.
Proof. intros E. apply bind_Ret. by apply load_Some. Qed.

Lemma bind_load_None {B} (k : block_meta → M B) b s :
  blocks s !! b = None → (load b ≫= k) s = Fault.
Proof. intros E. by rewrite bind_unfold, load_None. Qed.

Lemma bind_modify_Some {B} (k : unit → M B) b f h s :
  blocks s !! b = Some h → (modify b f ≫= k) s = k tt (update b (f h) s).
Proof. intros E. apply bind_Ret. by apply modify_Some. Qed.

Section Sim.
Variable l : list Z.

Lemma rsim_bind {A B} (m m' : M A) (k k' : A → M B) s t :
  rsim l (m s) (m' t) →
  (∀ a s1 t1, sim l s1 t1 → rsim l (k a s1) (k' a t1)) →
  rsim l ((m ≫= k) s) ((m' ≫= k') t).
Proof.
  intros Hm Hk. rewrite !bind_unfold.
  destruct (m s), (m' t); simpl in Hm; try done.
  destruct Hm as [-> Hs]. by apply Hk.
Qed.

Lemma rsim_ret {A} (a : A) s t : sim l s t → rsim l (ret a s) (ret a t).
Proof. intros H. by split. Qed.

(** The header read at a block of [l] is missing in both states or
    present in both, with the same size, link and mark. *)
Lemma sim_lookup s t b :
  sim l s t → b ∈ l →
  (blocks s !! b = None ∧ blocks t !! b = None) ∨
  (∃ h h', blocks s !! b = Some h ∧ blocks t !! b = Some h' ∧
           bm_size h' = bm_size h ∧ bm_next h' = bm_next h ∧
           bm_marked h' = bm_marked h ∧
           (bm_next h = 0 ∨ bm_next h ∈ l)).
Proof.
  intros H Hb. pose proof (sim_blocks _ _ _ H b Hb) as E.
  destruct (blocks s !! b) as [h|] eqn:Es,
           (blocks t !! b) as [h'|] eqn:Et; simpl in E; try done.
  - right. exists h, h'. injection E as E1 E2 E3.
    repeat split; try done. eapply sim_closed; eauto.
  - by left.
Qed.

Lemma sim_set_marked s t b h h' v :
  sim l s t → b ∈ l →
  blocks s !! b = Some h → blocks t !! b = Some h' →
  bm_size h' = bm_size h → bm_next h' = bm_next h →
  sim l (update b (set_marked v h) s) (update b (set_marked v h') t).
Proof.
  intros [] Hb Es Et Hsz Hn. split; simpl; try done.
  - intros b0 Hb0. destruct (decide (b = b0)) as [->|Hne].
    + rewrite !lookup_insert_eq. simpl. unfold mark_view. simpl.
      congruence.
    + rewrite !lookup_insert_ne by done. auto.
  - intros b0 h0 Hb0. destruct (decide (b = b0)) as [->|Hne].
    + rewrite lookup_insert_eq. intros [= <-]. simpl. eauto.
    + rewrite lookup_insert_ne by done. eauto.
Qed.

Lemma scan_region_find_sim fuel value p s t :
  sim l s t → p = 0 ∨ p ∈ l →
  rsim l (scan_region_find fuel value p s) (scan_region_find fuel value p t).
Proof.
  revert p s t. induction fuel as [|fuel IH]; intros p s t H Hp; simpl.
  { done. }
  destruct (p =? 0) eqn:Ep; [by apply rsim_ret|].
  apply Z.eqb_neq in Ep. destruct Hp as [?|Hp]; [done|].
  destruct (sim_lookup s t p H Hp)
    as [[Es Et]|(h & h' & Es & Et & Hsz & Hn & Hm & Hcl)].
  { by rewrite (bind_load_None _ _ _ Es), (bind_load_None _ _ _ Et). }
  rewrite (bind_load_Some _ _ _ _ Es), (bind_load_Some _ _ _ _ Et).
  rewrite Hsz, Hn.
  destruct (_ && _).
  - rewrite (modify_Some _ _ _ _ Es), (modify_Some _ _ _ _ Et).
    split; [done|]. by apply sim_set_marked.
  - by apply IH.
Qed.

Lemma scan_region_loop_sim fuel p end_ hs he s t :
  sim l s t →
  rsim l (scan_region_loop fuel p end_ hs he s)
         (scan_region_loop fuel p end_ hs he t).
Proof.
  revert p s t. induction fuel as [|fuel IH]; intros p s t H; simpl.
  { done. }
  destruct (p <? end_); [|by apply rsim_ret].
  rewrite !bind_get_mem, (sim_mem _ _ _ H).
  apply rsim_bind; [|intros _ s1 t1 H1; by apply IH].
  destruct (_ && _); [|by apply rsim_ret].
  rewrite !bind_get_global_base, <- (sim_base _ _ _ H).
  apply scan_region_find_sim; [done|]. by apply (sim_head _ _ _ H).
Qed.

Lemma scan_region_sim fuel start end_ s t :
  sim l s t →
  rsim l (scan_region fuel start end_ s) (scan_region fuel start end_ t).
Proof.
  intros H. unfold scan_region.
  rewrite !bind_get_global_base, <- (sim_base _ _ _ H).
  destruct (global_base s =? 0); [by apply rsim_ret|].
  rewrite !bind_sbrk_0, <- (sim_brk _ _ _ H).
  by apply scan_region_loop_sim.
Qed.

Lemma scan_heap_others_sim fuel value p nm s t :
  sim l s t → p = 0 ∨ p ∈ l →
  rsim l (scan_heap_others fuel value p nm s)
         (scan_heap_others fuel value p nm t).
Proof.
  revert p nm s t. induction fuel as [|fuel IH]; intros p nm s t H Hp; simpl.
  { done. }
  destruct (p =? 0) eqn:Ep; [by apply rsim_ret|].
  apply Z.eqb_neq in Ep. destruct Hp as [?|Hp]; [done|].
  destruct (sim_lookup s t p H Hp)
    as [[Es Et]|(h & h' & Es & Et & Hsz & Hn & Hm & Hcl)].
  { by rewrite (bind_load_None _ _ _ Es), (bind_load_None _ _ _ Et). }
  rewrite (bind_load_Some _ _ _ _ Es), (bind_load_Some _ _ _ _ Et).
  rewrite Hsz, Hn, Hm.
  destruct (bm_marked h =? 0); [|by apply IH].
  destruct (_ && _); [|by apply IH].
  rewrite (bind_modify_Some _ _ _ _ _ Es), (bind_modify_Some _ _ _ _ _ Et).
  rewrite !(bind_load_Some _ _ _ _ (lookup_update_eq _ _ _)). simpl.
  rewrite Hn. apply IH; [|done]. by apply sim_set_marked.
Qed.

Lemma scan_heap_words_sim fuel n data i nm s t :
  sim l s t →
  rsim l (scan_heap_words fuel n data i nm s)
         (scan_heap_words fuel n data i nm t).
Proof.
  revert i nm s t. induction n as [|n IH]; intros i nm s t H; simpl.
  { by apply rsim_ret. }
  rewrite !bind_get_mem, !bind_get_global_base.
  rewrite <- (sim_mem _ _ _ H), <- (sim_base _ _ _ H).
  apply rsim_bind; [|intros nm' s1 t1 H1; by apply IH].
  apply scan_heap_others_sim; [done|]. by apply (sim_head _ _ _ H).
Qed.
Lemma scan_heap_blocks_sim fuel p nm s t :
  sim l s t → p = 0 ∨ p ∈ l →
  rsim l (scan_heap_blocks fuel p nm s) (scan_heap_blocks fuel p nm t).
Proof.
  revert p nm s t. induction fuel as [|fuel IH]; intros p nm s t H Hp; simpl.
  { done. }
  destruct (p =? 0) eqn:Ep; [by apply rsim_ret|].
  apply Z.eqb_neq in Ep. destruct Hp as [?|Hp]; [done|].
  destruct (sim_lookup s t p H Hp)
    as [[Es Et]|(h & h' & Es & Et & Hsz & Hn & Hm & Hcl)].
  { by rewrite (bind_load_None _ _ _ Es), (bind_load_None _ _ _ Et). }
  rewrite (bind_load_Some _ _ _ _ Es), (bind_load_Some _ _ _ _ Et).
  rewrite Hsz, Hn, Hm.
  destruct (bm_marked h =? 0); [by apply IH|].
  apply rsim_bind; [by apply scan_heap_words_sim|].
  intros nm' s1 t1 H1.
  destruct (sim_lookup s1 t1 p H1 Hp)
    as [[Es1 Et1]|(h1 & h1' & Es1 & Et1 & _ & Hn1 & _ & Hcl1)].
  { by rewrite (bind_load_None _ _ _ Es1), (bind_load_None _ _ _ Et1). }
  rewrite (bind_load_Some _ _ _ _ Es1), (bind_load_Some _ _ _ _ Et1).
  rewrite Hn1. by apply IH.
Qed.

Lemma scan_heap_loop_sim fuel s t :
  sim l s t → rsim l (scan_heap_loop fuel s) (scan_heap_loop fuel t).
Proof.
  revert s t. induction fuel as [|fuel IH]; intros s t H; simpl.
  { done. }
  rewrite !bind_get_global_base, <- (sim_base _ _ _ H).
  apply rsim_bind.
  - apply scan_heap_blocks_sim; [done|]. by apply (sim_head _ _ _ H).
  - intros nm s1 t1 H1. destruct (nm =? 0); [by apply rsim_ret|].
    by apply IH.
Qed.

Lemma scan_heap_sim fuel s t :
  sim l s t → rsim l (scan_heap fuel s) (scan_heap fuel t).
Proof.
  intros H. unfold scan_heap.
  rewrite !bind_get_global_base, <- (sim_base _ _ _ H).
  destruct (global_base s =? 0); [by apply rsim_ret|].
  by apply scan_heap_loop_sim.
Qed.

(** The mark phase after the reset of the marks. *)
Lemma scans_sim fuel etext end_ stack_top s t :
  sim l s t →
  rsim l
    ((scan_region fuel etext end_;;
      bottom ← get_stack_bottom;
      scan_region fuel stack_top bottom;;
      scan_heap fuel) s)
    ((scan_region fuel etext end_;;
      bottom ← get_stack_bottom;
      scan_region fuel stack_top bottom;;
      scan_heap fuel) t).
Proof.
  intros H. apply rsim_bind; [by apply scan_region_sim|].
  intros _ s1 t1 H1.
  rewrite !bind_get_stack_bottom, <- (sim_bottom _ _ _ H1).
  apply rsim_bind; [by apply scan_region_sim|].
  intros _ s2 t2 H2. by apply scan_heap_sim.
Qed.
End Sim.

Lemma marks_only_refl s : marks_only s s.
Proof. by intros b. Qed.

Lemma marks_only_mark_stable s : mark_stable (marks_only s).
Proof.
  intros s' b h v H E b0. rewrite <- (H b0).
  destruct (decide (b = b0)) as [->|Hne].
  - by rewrite lookup_update_eq, E.
  - by rewrite lookup_update_ne.
Qed.

Lemma chain_closed hs p l b h :
  chain hs p l → b ∈ l → hs !! b = Some h →
  bm_next h = 0 ∨ bm_next h ∈ l.
Proof.
  intros Hc Hb E.
  destruct (chain_suffix _ _ _ _ Hc Hb) as (l1 & l2 & -> & Hc').
  inversion Hc' as [|b' h' l' Hb' E' Hc'']; subst.
  rewrite E in E'. injection E' as <-.
  inversion Hc'' as [|b'' h'' l'' Hb'' E'' Hc''']; subst; [by left|].
  right. rewrite elem_of_app, !elem_of_cons. auto.
Qed.

Lemma chain_head hs p l : chain hs p l → p = 0 ∨ p ∈ l.
Proof. destruct 1; [by left|right; by left]. Qed.

(** ** [gc] in two phases *)

Lemma gc_empty fuel etext end_ stack_top s :
  global_base s = 0 → gc fuel etext end_ stack_top s = Ret tt s.
Proof. intros E. unfold gc. rewrite bind_get_global_base, E. reflexivity. Qed.

Lemma gc_phases fuel etext end_ stack_top s s' :
  global_base s ≠ 0 →
  gc fuel etext end_ stack_top s = Ret tt s' →
  ∃ sm, gc_mark fuel etext end_ stack_top s = Ret tt sm ∧
        gc_sweep_loop fuel (global_base sm) sm = Ret tt s'.
Proof.
  intros Hb. unfold gc.
  rewrite bind_get_global_base, (eqb_neq_false _ _ Hb).
  intros E. apply bind_Ret_inv in E as ([] & sm & E1 & E2). eauto.
Qed.

Lemma gc_phases_intro fuel etext end_ stack_top s sm :
  global_base s ≠ 0 →
  gc_mark fuel etext end_ stack_top s = Ret tt sm →
  gc fuel etext end_ stack_top s = gc_sweep_loop fuel (global_base sm) sm.
Proof.
  intros Hb E. unfold gc.
  rewrite bind_get_global_base, (eqb_neq_false _ _ Hb).
  by rewrite (bind_Ret _ _ _ _ _ E).
Qed.

Lemma gc_mark_keeps fuel etext end_ stack_top s s' :
  gc_mark fuel etext end_ stack_top s = Ret tt s' → keeps s s'.
Proof.
  intros E.
  eapply (gc_mark_stable _ (flag_stable_mark_stable _ (keeps_flag_stable s)));
    [|exact E].
  apply keeps_refl.
Qed.

Lemma gc_mark_marks_only fuel etext end_ stack_top s s' :
  gc_mark fuel etext end_ stack_top s = Ret tt s' → marks_only s s'.
Proof.
  intros E. eapply (gc_mark_stable _ (marks_only_mark_stable s)); [|exact E].
  apply marks_only_refl.
Qed.

(** The sweep, header by header. *)
Lemma gc_sweep_loop_spec fuel sm s' :
  gc_sweep_loop fuel (global_base sm) sm = Ret tt s' →
  ∃ l, block_list sm l ∧ (length l < fuel)%nat ∧
       s' = with_blocks (rewrite_all swept l (blocks sm)) sm ∧
       ∀ b h, b ∈ l → blocks sm !! b = Some h →
              blocks s' !! b = Some (swept h).
Proof.
  rewrite gc_sweep_loop_walk. intros E.
  assert (Hn : ∀ h, bm_next (swept h) = bm_next h).
  { intros h. unfold swept. by destruct (_ && _). }
  destruct (walk_returns _ Hn _ _ _ _ E) as (l & Hc & Hlen).
  rewrite (walk_total _ Hn _ _ _ _ Hc Hlen) in E. injection E as <-.
  exists l. repeat split; try done.
  intros b h Hb Eb. simpl.
  rewrite rewrite_all_in, Eb; [done| |done]. by eapply chain_NoDup.
Qed.

(** ** Claims about [gc] *)

(** C3: when [gc] returns, every block of the list that the mark phase
    left unmarked and that was not free has become free, unmarked and
    tagged [MAGIC_FREED]; every block that was marked or already free has
    the header the mark phase left. *)
Theorem gc_sweep_correct fuel etext end_ stack_top s s' :
  global_base s ≠ 0 →
  gc fuel etext end_ stack_top s = Ret tt s' →
  ∃ sm l,
    gc_mark fuel etext end_ stack_top s = Ret tt sm ∧
    block_list sm l ∧
    ∀ b h, b ∈ l → blocks sm !! b = Some h →
      (bm_marked h = 0 → bm_free h = 0 →
       blocks s' !! b =
         Some (mk_meta (bm_size h) (bm_next h) 1 0 MAGIC_FREED)) ∧
      (bm_marked h ≠ 0 ∨ bm_free h ≠ 0 → blocks s' !! b = Some h).
Proof.
  intros Hb E.
  destruct (gc_phases _ _ _ _ _ _ Hb E) as (sm & Em & Es).
  destruct (gc_sweep_loop_spec _ _ _ Es) as (l & Hl & _ & _ & Hsw).
  exists sm, l. repeat split; try done.
  - intros Hm Hf. rewrite (Hsw b h) by done.
    unfold swept. by rewrite Hm, Hf.
  - intros Hor. rewrite (Hsw b h) by done. unfold swept.
    destruct (bm_marked h =? 0) eqn:Em'; [|done].
    destruct (bm_free h =? 0) eqn:Ef'; [|done].
    apply Z.eqb_eq in Em', Ef'. by destruct Hor.
Qed.

Lemma gc_sweep_correct_witness :
  ∃ sm l,
    gc_mark 8 64 72 0 Demo.rooted = Ret tt sm ∧
    block_list sm l ∧
    ∀ b h, b ∈ l → blocks sm !! b = Some h →
      (bm_marked h = 0 → bm_free h = 0 →
       blocks (Demo.run Demo.collect Demo.rooted) !! b =
         Some (mk_meta (bm_size h) (bm_next h) 1 0 MAGIC_FREED)) ∧
      (bm_marked h ≠ 0 ∨ bm_free h ≠ 0 →
       blocks (Demo.run Demo.collect Demo.rooted) !! b = Some h).
Proof.
  apply (gc_sweep_correct 8 64 72 0 Demo.rooted).
  - vm_compute. discriminate.
  - vm_compute. reflexivity.
Defined.



(** The two unreachable neighbours of the demo heap are both free after
    [gc], the first ends where the second begins, and they are still two
    blocks. *)
Example gc_leaves_neighbours_unmerged :
  let s' := Demo.run Demo.collect Demo.rooted in
  block_list s' [4096; 4144; 4192] ∧
  blocks s' !! 4096 = Some (mk_meta 16 4144 1 0 MAGIC_FREED) ∧
  blocks s' !! 4144 = Some (mk_meta 16 4192 1 0 MAGIC_FREED) ∧
  blocks s' !! 4192 = Some (mk_meta 16 0 0 1 MAGIC_FRESH) ∧
  ptr_add (payload_of 4096) 16 = 4144.
Proof.
  intros s'.
  split; [|split; [|split; [|split]]]; try (vm_compute; reflexivity).
  unfold block_list.
  eapply chain_cons; [done|vm_compute; reflexivity|].
  eapply chain_cons; [done|vm_compute; reflexivity|].
  eapply chain_cons; [done|vm_compute; reflexivity|].
  apply chain_nil.
Qed.

Lemma gc_mark_unfold fuel etext end_ stack_top s :
  gc_mark fuel etext end_ stack_top s =
  (gc_unmark_loop fuel (global_base s);;
   scan_region fuel etext end_;;
   bottom ← get_stack_bottom;
   scan_region fuel stack_top bottom;;
   scan_heap fuel) s.
Proof. reflexivity. Qed.

(** Resetting the marks makes a state and its collected successor look
    the same to the mark phase. *)
Lemma unmark_sim s s1 l :
  keeps s s1 → block_list s l → global_base s ≠ 0 →
  sim l (with_blocks (rewrite_all (set_marked 0) l (blocks s)) s)
        (with_blocks (rewrite_all (set_marked 0) l (blocks s1)) s1).
Proof.
  intros (Hg & Hsb & Hbrk & _ & _ & Hm & Hl) Hc Hb.
  pose proof (chain_NoDup _ _ _ Hc) as Hnd.
  split; simpl; try done.
  - destruct (chain_head _ _ _ Hc); [done|by right].
  - intros b Hin. rewrite !rewrite_all_in by done.
    specialize (Hl b).
    destruct (blocks s !! b) as [h|], (blocks s1 !! b) as [h1|];
      simpl in *; try done.
    injection Hl as Hsz Hn. unfold mark_view. simpl. congruence.
  - intros b h Hin. rewrite rewrite_all_in by done.
    destruct (blocks s !! b) as [h0|] eqn:E0; simpl; [|done].
    intros [= <-]. simpl. by eapply chain_closed.
Qed.

(** Sweeping twice is sweeping once, whatever the marks were. *)
Lemma swept_again h h2 :
  mark_view h2 = mark_view h →
  set_marked 0 h2 = set_marked 0 (swept h) →
  swept h2 = swept h.
Proof.
  destruct h as [sz nx fr mk mg], h2 as [sz2 nx2 fr2 mk2 mg2].
  unfold mark_view, swept, set_marked, released. simpl.
  intros [= -> -> ->].
  destruct (mk =? 0) eqn:Em, (fr =? 0) eqn:Ef; simpl;
    intros [= -> ->]; rewrite ?Em, ?Ef; simpl; try done.
  apply Z.eqb_eq in Em as ->. done.
Qed.

(** C9: a second [gc] right after a first one, with the same root
    regions and the same memory, returns as well and leaves every block of
    the list with the header the first call left: the same blocks are
    free and the same blocks are allocated. *)
Theorem gc_idempotent fuel etext end_ stack_top s s1 :
  gc fuel etext end_ stack_top s = Ret tt s1 →
  ∃ s2,
    gc fuel etext end_ stack_top s1 = Ret tt s2 ∧
    mem s2 = mem s1 ∧
    ∀ l, block_list s1 l →
      block_list s2 l ∧
      ∀ b, b ∈ l → blocks s2 !! b = blocks s1 !! b.
Proof.
  intros E.
  destruct (decide (global_base s = 0)) as [Hb|Hb].
  { rewrite (gc_empty _ _ _ _ _ Hb) in E. injection E as <-.
    exists s. rewrite (gc_empty _ _ _ _ _ Hb). auto. }
  pose proof (gc_keeps _ _ _ _ _ _ E) as Hk.
  destruct (gc_phases _ _ _ _ _ _ Hb E) as (sm & Em & Es).
  pose proof (gc_mark_keeps _ _ _ _ _ _ Em) as Hkm.
  (* the first run, phase by phase *)
  rewrite gc_mark_unfold in Em.
  apply bind_Ret_inv in Em as ([] & a1 & Eu & Escan).
  rewrite gc_unmark_loop_walk in Eu.
  assert (Hnx : ∀ h, bm_next (set_marked 0 h) = bm_next h) by done.
  destruct (walk_returns _ Hnx _ _ _ _ Eu) as (l & Hc & Hlen).
  rewrite (walk_total _ Hnx _ _ _ _ Hc Hlen) in Eu. injection Eu as <-.
  destruct (gc_sweep_loop_spec _ _ _ Es) as (l' & Hcm & _ & _ & Hsw).
  assert (Hgm : global_base sm = global_base s) by apply Hkm.
  assert (Hg1 : global_base s1 = global_base s) by apply Hk.
  assert (l' = l) as ->.
  { eapply chain_det; [exact Hcm|]. rewrite Hgm. by eapply keeps_chain. }
  assert (Hc1 : block_list s1 l).
  { unfold block_list. rewrite Hg1. by eapply keeps_chain. }
  (* the second run resets the marks ... *)
  assert (Eu1 : gc_unmark_loop fuel (global_base s1) s1 =
                Ret tt (with_blocks (rewrite_all (set_marked 0) l (blocks s1)) s1)).
  { rewrite gc_unmark_loop_walk. by apply walk_total. }
  (* ... and scans in step with the first *)
  pose proof (scans_sim l fuel etext end_ stack_top _ _
                (unmark_sim s s1 l Hk Hc Hb)) as Hr.
  rewrite Escan in Hr.
  match type of Hr with rsim _ _ (?m ?a) =>
    destruct (m a) as [[] sm2| | |] eqn:Escan1; simpl in Hr; try done
  end.
  destruct Hr as [_ Hsim].
  assert (Em1 : gc_mark fuel etext end_ stack_top s1 = Ret tt sm2).
  { rewrite gc_mark_unfold. rewrite (bind_Ret _ _ _ _ _ Eu1). exact Escan1. }
  pose proof (gc_mark_keeps _ _ _ _ _ _ Em1) as Hkm1.
  pose proof (gc_mark_marks_only _ _ _ _ _ _ Em1) as Hmo.
  assert (Hgm2 : global_base sm2 = global_base s) by (rewrite <- Hg1; apply Hkm1).
  assert (Hc2 : block_list sm2 l).
  { unfold block_list. rewrite Hgm2, <- Hg1. by eapply keeps_chain. }
  (* the second sweep *)
  assert (Hns : ∀ h, bm_next (swept h) = bm_next h).
  { intros h. unfold swept. by destruct (_ && _). }
  exists (with_blocks (rewrite_all swept l (blocks sm2)) sm2).
  split; [|split].
  - rewrite (gc_phases_intro _ _ _ _ _ _ (eq_ind_r (λ x, x ≠ 0) Hb Hg1) Em1).
    rewrite gc_sweep_loop_walk. by apply walk_total.
  - simpl. apply Hkm1.
  - intros l0 Hl0. assert (l0 = l) as -> by (eapply chain_det; eauto).
    assert (Heq : ∀ b, b ∈ l →
              rewrite_all swept l (blocks sm2) !! b = blocks s1 !! b).
    { intros b Hin.
      rewrite rewrite_all_in; [|by eapply chain_NoDup|done].
      destruct (chain_lookup _ _ _ b Hcm Hin) as [h Eh].
      rewrite (Hsw b h Hin Eh).
      pose proof (sim_blocks _ _ _ Hsim b Hin) as Hv.
      pose proof (Hmo b) as Hf.
      rewrite (Hsw b h Hin Eh) in Hf. rewrite Eh in Hv.
      destruct (blocks sm2 !! b) as [h2|]; [|done].
      cbn [fmap option_fmap option_map] in Hv, Hf |- *.
      assert (Hv' : mark_view h2 = mark_view h) by congruence.
      assert (Hf' : set_marked 0 h2 = set_marked 0 (swept h)) by congruence.
      f_equal. by apply swept_again. }
    split; [|exact Heq].
    unfold block_list. simpl. rewrite Hgm2, <- Hg1.
    eapply chain_ext; [exact Hc1|].
    intros b h Hin Eb. rewrite Heq, Eb by done. eauto.
Qed.

Lemma gc_idempotent_witness :
  ∃ s2,
    Demo.collect (Demo.run Demo.collect Demo.rooted) = Ret tt s2 ∧
    mem s2 = mem (Demo.run Demo.collect Demo.rooted) ∧
    ∀ l, block_list (Demo.run Demo.collect Demo.rooted) l →
      block_list s2 l ∧
      ∀ b, b ∈ l →
        blocks s2 !! b = blocks (Demo.run Demo.collect Demo.rooted) !! b.
Proof.
  apply (gc_idempotent 8 64 72 0 Demo.rooted). vm_compute. reflexivity.
Defined.

(** ** Claims about [free] and [realloc] on their early paths *)

(** C10: [free(NULL)] returns at once and leaves the whole state as it
    was: every header, the list head, the break and the memory. *)
Theorem free_null fuel s : free fuel 0 s = Ret tt s.
Proof. reflexivity. Qed.

Lemma realloc_fits fuel ptr size s h :
  ptr ≠ 0 → size ≠ 0 →
  blocks s !! header_of ptr = Some h →
  size <= bm_size h →
  realloc fuel ptr size s = Ret ptr s.
Proof.
  intros Hp Hs E Hle. unfold realloc.
  rewrite (eqb_neq_false _ _ Hp), (eqb_neq_false _ _ Hs).
  rewrite (bind_load_Some _ _ _ _ E).
  by rewrite (proj2 (Z.leb_le _ _) Hle).
Qed.

(** C7: [realloc(p, n)] with [p] non-null, [n] non-zero and [n] at most
    the recorded size returns [p] and leaves the state as it was: the
    size, the free flag and the payload are untouched and nothing is
    split. *)
Theorem realloc_no_shrink fuel ptr size s h :
  ptr ≠ 0 → size ≠ 0 →
  blocks s !! header_of ptr = Some h →
  size <= bm_size h →
  realloc fuel ptr size s = Ret ptr s.
Proof. apply realloc_fits. Qed.

Lemma realloc_no_shrink_witness :
  realloc 8 4128 8 (Demo.three 0) = Ret 4128 (Demo.three 0).
Proof.
  apply (realloc_no_shrink 8 4128 8 (Demo.three 0)
           (mk_meta 16 4144 0 1 MAGIC_FRESH)).
  - done.
  - done.
  - vm_compute. reflexivity.
  - simpl. lia.
Defined.

Lemma realloc_zero fuel ptr s :
  ptr ≠ 0 →
  realloc fuel ptr 0 s =
    match free fuel ptr s with
    | Ret _ s' => Ret 0 s'
    | Abort => Abort
    | Fault => Fault
    | OutOfFuel => OutOfFuel
    end.
Proof.
  intros Hp. unfold realloc. rewrite (eqb_neq_false _ _ Hp). simpl.
  rewrite bind_unfold. by destruct (free fuel ptr s).
Qed.

(** C5 as stated fails: a released block handed to [realloc] with a size
    that still fits comes back without any check of its tag. *)
Lemma realloc_released_counterexample :
  let s := Demo.run (free 8 4128) (Demo.three 0) in
  blocks s !! header_of 4128 = Some (mk_meta 16 4144 1 0 MAGIC_FREED) ∧
  allocated_tag MAGIC_FREED = false ∧
  realloc 8 4128 8 s = Ret 4128 s.
Proof.
  split; [vm_compute; reflexivity|].
  split; vm_compute; reflexivity.
Qed.


(** A second [free] of the same pointer aborts. *)
Example double_free_aborts :
  free 8 4128 (Demo.run (free 8 4128) (Demo.three 0)) = Abort.
Proof. vm_compute. reflexivity. Qed.

(** ** [malloc] on a free block it finds *)

Lemma bind_store {B} (k : unit → M B) b h s :
  (store b h ≫= k) s = k tt (update b h s).
Proof. reflexivity. Qed.

Lemma update_comm b b' h h' s :
  b ≠ b' → update b h (update b' h' s) = update b' h' (update b h s).
Proof.
  intros Hne. unfold update, with_blocks. simpl. f_equal.
  by apply insert_insert_ne.
Qed.



Lemma tail_ne_block block size :
  0 < size + META_SIZE < modulus →
  ptr_add (ptr_add block META_SIZE) size ≠ block.
Proof.
  unfold ptr_add, wrap, META_SIZE. rewrite modulus_eq. intros Hr Heq.
  rewrite Zplus_mod_idemp_l in Heq.
  pose proof (Z.div_mod (block + 32 + size) 18446744073709551616).
  lia.
Qed.

Lemma split_block_eq block size h s :
  blocks s !! block = Some h →
  ptr_add (ptr_add block META_SIZE) size ≠ block →
  split_block block size s =
    Ret tt
      (update block
         (mk_meta size (ptr_add (ptr_add block META_SIZE) size)
                  (bm_free h) (bm_marked h) (bm_magic h))
         (update (ptr_add (ptr_add block META_SIZE) size)
            (mk_meta (wrap (bm_size h - size - META_SIZE)) (bm_next h)
                     1 0 MAGIC_SPLIT) s)).
Proof.
  intros E Hne. unfold split_block.
  rewrite (bind_load_Some _ _ _ _ E).
  rewrite (bind_modify_Some _ _ _ _ _ E).
  rewrite (bind_load_Some _ _ _ _ (lookup_update_eq _ _ _)).
  rewrite bind_store.
  erewrite modify_Some;
    [|rewrite lookup_update_ne by done; apply lookup_update_eq].
  f_equal. rewrite update_comm by done.
  rewrite update_update. by rewrite update_comm.
Qed.

Lemma malloc_reuse_eq fuel size s block last h :
  0 < size → global_base s ≠ 0 →
  find_free_block fuel 0 (align8 size) s = Ret (block, last) s →
  block ≠ 0 →
  blocks s !! block = Some h →
  malloc fuel size s =
    ((if wrap (align8 size + META_SIZE + MIN_SIZE) <=? bm_size h
      then split_block block (align8 size) else ret tt);;
     modify block (set_free 0);;
     modify block (set_marked 1);;
     modify block (set_magic MAGIC_REUSED);;
     ret (payload_of block)) s.
Proof.
  intros Hs Hb Hf Hblock E. unfold malloc.
  rewrite (proj2 (Z.leb_gt _ _) Hs).
  rewrite bind_get_global_base, (eqb_neq_false _ _ Hb).
  rewrite (bind_Ret _ _ _ _ _ Hf). simpl.
  rewrite (eqb_neq_false _ _ Hblock).
  by rewrite (bind_load_Some _ _ _ _ E).
Qed.

Lemma modify3_ret {A} b f g k (a : A) h s :
  blocks s !! b = Some h →
  (modify b f;; modify b g;; modify b k;; ret a) s =
  Ret a (update b (k (g (f h))) s).
Proof.
  intros E.
  rewrite (bind_modify_Some _ _ _ _ _ E).
  rewrite (bind_modify_Some _ _ _ _ _ (lookup_update_eq _ _ _)).
  rewrite (bind_modify_Some _ _ _ _ _ (lookup_update_eq _ _ _)).
  by rewrite !update_update.
Qed.

(** C1 as stated fails: a free block of exactly the aligned request plus
    the header plus [MIN_SIZE] bytes does not exceed that sum, and it is
    split all the same, leaving a tail of [MIN_SIZE] bytes. *)
Lemma malloc_split_counterexample :
  let s := Demo.run (free 8 4128) (Demo.run (malloc 8 48) (Demo.start 0)) in
  blocks s !! 4096 = Some (mk_meta 48 0 1 0 MAGIC_FREED) ∧
  48 = align8 8 + META_SIZE + MIN_SIZE ∧
  ∃ s', malloc 8 8 s = Ret 4128 s' ∧
        blocks s' !! 4096 = Some (mk_meta 8 4136 0 1 MAGIC_REUSED) ∧
        blocks s' !! 4136 = Some (mk_meta 8 0 1 0 MAGIC_SPLIT).
Proof.
  split; [vm_compute; reflexivity|]. split; [vm_compute; reflexivity|].
  eexists. split; [vm_compute; reflexivity|].
  split; vm_compute; reflexivity.
Qed.

(** C1, amended: when [malloc] reuses a free block, the block is split
    exactly when its size is at least the aligned request plus the header
    plus [MIN_SIZE]: the block keeps the aligned request and links to a
    new free block behind it that holds the rest minus one header;
    otherwise the block is handed out whole, its size and link as they
    were. *)
Theorem malloc_reuse_split fuel size s block last h :
  0 < size →
  global_base s ≠ 0 →
  find_free_block fuel 0 (align8 size) s = Ret (block, last) s →
  block ≠ 0 →
  blocks s !! block = Some h →
  bm_size h < modulus →
  align8 size + META_SIZE + MIN_SIZE < modulus →
  let tail := ptr_add (ptr_add block META_SIZE) (align8 size) in
  (align8 size + META_SIZE + MIN_SIZE <= bm_size h →
   malloc fuel size s =
     Ret (payload_of block)
       (update block (mk_meta (align8 size) tail 0 1 MAGIC_REUSED)
          (update tail
             (mk_meta (bm_size h - align8 size - META_SIZE) (bm_next h)
                      1 0 MAGIC_SPLIT) s))) ∧
  (bm_size h < align8 size + META_SIZE + MIN_SIZE →
   malloc fuel size s =
     Ret (payload_of block)
       (update block
          (mk_meta (bm_size h) (bm_next h) 0 1 MAGIC_REUSED) s)).
Proof.
  intros Hs Hb Hf Hblock E Hsz Hov tail.
  pose proof (align8_range size) as Hr.
  assert (Hw : wrap (align8 size + META_SIZE + MIN_SIZE) =
               align8 size + META_SIZE + MIN_SIZE).
  { apply wrap_small. unfold META_SIZE, MIN_SIZE in *. lia. }
  rewrite (malloc_reuse_eq _ _ _ _ _ _ Hs Hb Hf Hblock E), Hw.
  split; intros Hcmp.
  - rewrite (proj2 (Z.leb_le _ _) Hcmp).
    assert (Hne : tail ≠ block).
    { apply tail_ne_block. unfold META_SIZE, MIN_SIZE in *. lia. }
    rewrite (bind_Ret _ _ _ _ _ (split_block_eq _ _ _ _ E Hne)).
    rewrite (modify3_ret _ _ _ _ _ _ _ (lookup_update_eq _ _ _)).
    rewrite update_update. unfold set_magic, set_marked, set_free. simpl.
    rewrite (wrap_small (bm_size h - align8 size - META_SIZE)); [done|].
    unfold META_SIZE, MIN_SIZE in *. lia.
  - rewrite (proj2 (Z.leb_gt _ _) Hcmp).
    rewrite bind_unfold, ret_unfold.
    by rewrite (modify3_ret _ _ _ _ _ _ _ E).
Qed.

Lemma malloc_reuse_split_witness :
  let s := Demo.run (free 8 4128) (Demo.run (malloc 8 48) (Demo.start 0)) in
  let tail := ptr_add (ptr_add 4096 META_SIZE) (align8 8) in
  (align8 8 + META_SIZE + MIN_SIZE <= 48 →
   malloc 8 8 s =
     Ret (payload_of 4096)
       (update 4096 (mk_meta (align8 8) tail 0 1 MAGIC_REUSED)
          (update tail
             (mk_meta (48 - align8 8 - META_SIZE) 0 1 0 MAGIC_SPLIT) s))) ∧
  (48 < align8 8 + META_SIZE + MIN_SIZE →
   malloc 8 8 s =
     Ret (payload_of 4096)
       (update 4096 (mk_meta 48 0 0 1 MAGIC_REUSED) s)).
Proof.
  apply (malloc_reuse_split 8 8
           (Demo.run (free 8 4128) (Demo.run (malloc 8 48) (Demo.start 0)))
           4096 0 (mk_meta 48 0 1 0 MAGIC_FREED)).
  - lia.
  - vm_compute. discriminate.
  - vm_compute. reflexivity.
  - lia.
  - vm_compute. reflexivity.
  - vm_compute. reflexivity.
  - vm_compute. reflexivity.
Defined.

(** ** Alignment is an invariant *)





















(** ** Address order *)

Lemma arena_chain hs hi lo p l : arena hs hi lo p l → chain hs p l.
Proof.
  induction 1; [constructor|]. econstructor; eauto. lia.
Qed.

Lemma arena_lo_le_hi hs hi lo p l : arena hs hi lo p l → lo <= hi.
Proof. induction 1; unfold META_SIZE in *; lia. Qed.

Lemma arena_weaken hs hi lo lo' p l :
  arena hs hi lo p l → lo' <= lo → arena hs hi lo' p l.
Proof.
  destruct 1; intros Hle.
  - constructor. lia.
  - econstructor; eauto. lia.
Qed.

Lemma arena_lb hs hi lo p l x : arena hs hi lo p l → x ∈ l → lo <= x.
Proof.
  induction 1 as [|lo b h l Hlo Hb E Hsz Ha IH]; intros Hx.
  - by apply elem_of_nil in Hx.
  - apply elem_of_cons in Hx as [->|Hx]; [done|].
    specialize (IH Hx). unfold META_SIZE in IH. lia.
Qed.

Lemma arena_ub hs hi lo p l x h :
  arena hs hi lo p l → x ∈ l → hs !! x = Some h →
  0 < x ∧ 0 <= bm_size h ∧ x + META_SIZE + bm_size h <= hi.
Proof.
  induction 1 as [|lo b h0 l Hlo Hb E Hsz Ha IH]; intros Hx Ex.
  - by apply elem_of_nil in Hx.
  - apply elem_of_cons in Hx as [->|Hx]; [|by apply IH].
    rewrite E in Ex. injection Ex as <-.
    apply arena_lo_le_hi in Ha. done.
Qed.

Lemma arena_ext hs hs' hi lo p l :
  arena hs hi lo p l →
  (∀ b, b ∈ l → hs' !! b = hs !! b) →
  arena hs' hi lo p l.
Proof.
  induction 1 as [|lo b h l Hlo Hb E Hsz Ha IH]; intros Hext.
  - by constructor.
  - econstructor; eauto.
    + rewrite Hext; [done|by left].
    + apply IH. intros b0 Hb0. apply Hext. by right.
Qed.

(** Writing flags or a tag anywhere keeps the order. *)
Lemma arena_update_flags hs hi lo p l b h h' :
  arena hs hi lo p l → hs !! b = Some h →
  bm_size h' = bm_size h → bm_next h' = bm_next h →
  arena (<[b := h']> hs) hi lo p l.
Proof.
  induction 1 as [|lo b0 h0 l Hlo Hb E Hsz Ha IH]; intros Eb Hs Hn.
  - by constructor.
  - destruct (decide (b = b0)) as [->|Hne].
    + rewrite E in Eb. injection Eb as <-.
      apply (arena_cons _ _ _ _ h'); try done.
      * apply lookup_insert_eq.
      * lia.
      * rewrite Hs, Hn. by apply IH.
    + apply (arena_cons _ _ _ _ h0); try done.
      * by rewrite lookup_insert_ne.
      * by apply IH.
Qed.

Lemma heap_ok_flag_stable : flag_stable heap_ok.
Proof.
  intros s b h h' [Hbrk [l Ha]] E Hs Hn. split; [done|].
  exists l. simpl. by eapply arena_update_flags.
Qed.

Lemma block_end_exact hs hi lo p l b h :
  arena hs hi lo p l → hi < modulus → b ∈ l → hs !! b = Some h →
  block_end b h = b + META_SIZE + bm_size h.
Proof.
  intros Ha Hhi Hb E. destruct (arena_ub _ _ _ _ _ _ _ Ha Hb E) as (?&?&?).
  unfold block_end, ptr_add, META_SIZE in *.
  rewrite (wrap_small (b + 32)) by lia. apply wrap_small. lia.
Qed.

(** In an ordered list only a block and its successor can be adjacent. *)
Lemma arena_pairs_coalesced hs hi lo p l :
  arena hs hi lo p l → hi < modulus → pairs_ok hs l →
  ∀ b1 b2, b1 ∈ l → b2 ∈ l → ¬ adjacent_free hs b1 b2.
Proof.
  intros Ha Hhi. induction Ha as [|lo b h l Hlo Hb E Hsz Ha IH];
    intros Hp b1 b2 H1 H2 (h1 & h2 & E1 & E2 & Hf1 & Hf2 & Hend).
  { by apply elem_of_nil in H1. }
  assert (Hall : arena hs hi lo b (b :: l)) by (econstructor; eauto).
  pose proof Hend as Hend0.
  rewrite (block_end_exact _ _ _ _ _ _ _ Hall Hhi H1 E1) in Hend.
  destruct (arena_ub _ _ _ _ _ _ _ Hall H1 E1) as (Hb1 & Hsz1 & _).
  apply elem_of_cons in H1 as [->|H1].
  - rewrite E in E1. injection E1 as <-.
    apply elem_of_cons in H2 as [->|H2]; [unfold META_SIZE in *; lia|].
    destruct Ha as [|lo' n hn l1 Hlo' Hn En Hszn Ha'].
    { by apply elem_of_nil in H2. }
    apply elem_of_cons in H2 as [->|H2].
    + destruct Hp as [Hp _]. apply Hp. by exists h, h2.
    + pose proof (arena_lb _ _ _ _ _ _ Ha' H2). unfold META_SIZE in *. lia.
  - pose proof (arena_lb _ _ _ _ _ _ Ha H1) as Hlb.
    apply elem_of_cons in H2 as [->|H2]; [unfold META_SIZE in *; lia|].
    assert (Hp' : pairs_ok hs l) by (destruct l; [done|by destruct Hp]).
    apply (IH Hp' b1 b2 H1 H2). by exists h1, h2.
Qed.

(** ** The coalescing pass *)

Lemma arena_head hs hi lo p l :
  arena hs hi lo p l → p ≠ 0 → ∃ l2, l = p :: l2.
Proof. destruct 1; [done|eauto]. Qed.

Lemma with_blocks_id s : with_blocks (blocks s) s = s.
Proof. by destruct s. Qed.

Lemma with_blocks_update hs b h s :
  with_blocks hs (update b h s) = with_blocks hs s.
Proof. reflexivity. Qed.

(** The step of the pass that moves on to the next block. *)
Lemma merge_advance hs hs' hi lo b h n l1 l2 :
  arena hs hi lo b (b :: n :: l1) →
  hs !! b = Some h →
  arena hs' hi (b + META_SIZE + bm_size h) (bm_next h) l2 →
  bm_next h = n →
  pairs_ok hs' l2 →
  (∀ x, x ∉ n :: l1 → hs' !! x = hs !! x) →
  (∀ hn, hs !! n = Some hn →
         ∃ hn', hs' !! n = Some hn' ∧ bm_free hn' = bm_free hn) →
  (bm_free h = 0 ∨
   ∃ hn, hs !! n = Some hn ∧ (bm_free hn = 0 ∨ block_end b h ≠ n)) →
  arena hs' hi lo b (b :: l2) ∧ pairs_ok hs' (b :: l2) ∧
  (∀ x, x ∉ b :: n :: l1 → hs' !! x = hs !! x) ∧
  (∃ h', hs' !! b = Some h' ∧ bm_free h' = bm_free h).
Proof.
  intros Ha E Ha2 Hn Hp Hfr Hhd Hwhy.
  inversion Ha as [|lo0 b0 h0 l0 Hlo Hb E0 Hsz Ha0]; subst.
  rewrite E in E0. injection E0 as <-.
  assert (Hnotin : b ∉ bm_next h :: l1).
  { intros Hin. pose proof (arena_lb _ _ _ _ _ _ Ha0 Hin).
    unfold META_SIZE in *. lia. }
  assert (E' : hs' !! b = Some h) by (by rewrite Hfr).
  split_and!.
  - by apply (arena_cons _ _ _ _ h).
  - assert (Hnz : bm_next h ≠ 0).
    { inversion Ha0; subst; lia. }
    destruct (arena_head _ _ _ _ _ Ha2 Hnz) as [l3 ->].
    split; [|done].
    intros (h1 & h2 & E1 & E2 & Hf1 & Hf2 & Hend).
    rewrite E' in E1. injection E1 as <-.
    destruct Hwhy as [Hz|(hn & En & Hz)]; [done|].
    destruct (Hhd _ En) as (hn' & En' & Hfn).
    rewrite En' in E2. injection E2 as <-.
    destruct Hz; congruence.
  - intros x Hx. apply Hfr. intros Hin. apply Hx. by right.
  - eauto.
Qed.

Lemma arena_nil_inv hs hi lo p : arena hs hi lo p [] → p = 0 ∧ lo <= hi.
Proof. by inversion 1. Qed.

Lemma arena_cons_inv hs hi lo p b l :
  arena hs hi lo p (b :: l) →
  p = b ∧ ∃ h, lo <= b ∧ 0 < b ∧ hs !! b = Some h ∧ 0 <= bm_size h ∧
               arena hs hi (b + META_SIZE + bm_size h) (bm_next h) l.
Proof. inversion 1; subst. split; [done|]. eauto 10. Qed.

Lemma merge_free_blocks_spec fuel hi s lo cur l :
  arena (blocks s) hi lo cur l → hi < modulus → (length l < fuel)%nat →
  ∃ hs' l',
    merge_free_blocks fuel cur s = Ret tt (with_blocks hs' s) ∧
    arena hs' hi lo cur l' ∧ pairs_ok hs' l' ∧
    (∀ b, b ∉ l → hs' !! b = blocks s !! b) ∧
    (∀ h, blocks s !! cur = Some h →
          ∃ h', hs' !! cur = Some h' ∧ bm_free h' = bm_free h) ∧
    (∀ x, x ∈ l' → x ∈ l) ∧
    (∀ x h, x ∈ l → blocks s !! x = Some h → bm_free h = 0 → x ∈ l').
Proof.
  revert s lo cur l.
  induction fuel as [|fuel IH]; intros s lo cur l Hall Hhi Hlen; [lia|].
  destruct l as [|b l0].
  { apply arena_nil_inv in Hall as Hinv. destruct Hinv as [-> Hlo]. simpl.
    exists (blocks s), []. rewrite with_blocks_id.
    split_and!; [done|done|done|done| |done|done]. intros h' E'. eauto. }
  apply arena_cons_inv in Hall as Hinv.
  destruct Hinv as [-> (h & Hlo & Hb & E & Hsz & Ha0)]. simpl.
  rewrite (eqb_neq_false b 0) by lia.
  rewrite (bind_load_Some _ _ _ _ E).
  destruct l0 as [|n l1].
  { apply arena_nil_inv in Ha0 as Hinv. destruct Hinv as [En Hlo0].
    rewrite En. simpl.
    exists (blocks s), [b]. rewrite with_blocks_id.
    split_and!; [done|done|done|done| |done|done]. intros h' E'. eauto. }
  apply arena_cons_inv in Ha0 as Hinv.
  destruct Hinv as [En (hn & Hlo0 & Hn & Ehn & Hszn & Ha1)].
  rewrite En.
  rewrite (eqb_neq_false n 0) by lia.
  simpl in Hlen.
  (* the two ways of moving on to [n] *)
  assert (Hadvance :
    (bm_free h = 0 ∨
     ∃ hn0, blocks s !! n = Some hn0 ∧
            (bm_free hn0 = 0 ∨ block_end b h ≠ n)) →
    ∃ hs' l',
      merge_free_blocks fuel n s = Ret tt (with_blocks hs' s) ∧
      arena hs' hi lo b l' ∧ pairs_ok hs' l' ∧
      (∀ b0, b0 ∉ b :: n :: l1 → hs' !! b0 = blocks s !! b0) ∧
      (∀ h0, blocks s !! b = Some h0 →
             ∃ h', hs' !! b = Some h' ∧ bm_free h' = bm_free h0) ∧
      (∀ x, x ∈ l' → x ∈ b :: n :: l1) ∧
      (∀ x h0, x ∈ b :: n :: l1 → blocks s !! x = Some h0 →
               bm_free h0 = 0 → x ∈ l')).
  { intros Hwhy. rewrite En in Ha0.
    destruct (IH s _ n (n :: l1) Ha0 Hhi ltac:(simpl; lia))
      as (hs' & l2 & Erun & Ha2 & Hp2 & Hfr2 & Hhd2 & Hsub & Hkeep).
    exists hs', (b :: l2). split; [done|].
    rewrite <- En in Ha2.
    destruct (merge_advance _ _ _ _ _ _ _ _ _ Hall E Ha2 En
                Hp2 Hfr2 Hhd2 Hwhy) as (?&?&?&?).
    split_and!; try done.
    - intros h' E'. rewrite E in E'. by injection E' as <-.
    - intros x Hx. apply elem_of_cons in Hx as [->|Hx]; [by left|].
      right. by apply Hsub.
    - intros x h0 Hx E0 Hf0. apply elem_of_cons in Hx as [->|Hx]; [by left|].
      right. by apply (Hkeep x h0). }
  destruct (bm_free h =? 0) eqn:Ef.
  { apply Z.eqb_eq in Ef. apply Hadvance. by left. }
  rewrite (bind_load_Some _ _ _ _ Ehn).
  destruct (negb (bm_free hn =? 0) &&
            (ptr_add (ptr_add b META_SIZE) (bm_size h) =? n)) eqn:Ec.
  - (* merge [n] into [b] and look at [b] again *)
    apply andb_true_iff in Ec as [Efn Eadj].
    apply Z.eqb_eq in Eadj.
    fold (block_end b h) in Eadj.
    rewrite (block_end_exact _ _ _ _ _ _ _ Hall Hhi
               ltac:(by left) E) in Eadj.
    destruct (arena_ub _ _ _ _ _ _ _ Hall
                ltac:(right; by left) Ehn) as (_ & _ & Hub).
    rewrite (bind_modify_Some _ _ _ _ _ E).
    rewrite (bind_modify_Some _ _ _ _ _ (lookup_update_eq _ _ _)).
    rewrite update_update.
    set (hb := set_next (bm_next hn)
                 (set_size (wrap (bm_size h + wrap (META_SIZE + bm_size hn)))
                    h)).
    assert (Hsize : bm_size hb = bm_size h + META_SIZE + bm_size hn).
    { subst hb. simpl. unfold META_SIZE in *.
      rewrite (wrap_small (32 + bm_size hn)) by lia.
      rewrite wrap_small by lia. lia. }
    assert (Hb1 : b ∉ l1).
    { intros Hin. pose proof (arena_lb _ _ _ _ _ _ Ha1 Hin).
      unfold META_SIZE in *. lia. }
    assert (Ha' : arena (blocks (update b hb s)) hi lo b (b :: l1)).
    { apply (arena_cons _ _ _ _ hb); try done.
      - apply lookup_update_eq.
      - rewrite Hsize. unfold META_SIZE. lia.
      - rewrite Hsize. subst hb. simpl.
        apply (arena_weaken _ _ (n + META_SIZE + bm_size hn));
          [|unfold META_SIZE in *; lia].
        eapply arena_ext; [exact Ha1|].
        intros x Hx. rewrite lookup_insert_ne; [done|]. by intros ->. }
    destruct (IH (update b hb s) lo b (b :: l1) Ha' Hhi ltac:(simpl; lia))
      as (hs' & l2 & Erun & Ha2 & Hp2 & Hfr2 & Hhd2 & Hsub & Hkeep).
    exists hs', l2. rewrite with_blocks_update in Erun.
    split_and!; try done.
    + intros x Hx. rewrite Hfr2.
      * rewrite lookup_update_ne; [done|]. intros ->. apply Hx. by left.
      * intros Hin. apply Hx.
        apply elem_of_cons in Hin as [->|Hin]; [by left|right; by right].
    + intros h' E'. rewrite E in E'. injection E' as <-.
      destruct (Hhd2 hb (lookup_update_eq _ _ _)) as (h' & E' & Hf').
      exists h'. by split.
    + intros x Hx. apply Hsub in Hx.
      apply elem_of_cons in Hx as [->|Hx]; [by left|right; by right].
    + intros x h0 Hx E0 Hf0.
      assert (Hxb : x ≠ b).
      { intros ->. rewrite E in E0. injection E0 as <-.
        apply Z.eqb_neq in Ef. done. }
      assert (Hxn : x ≠ n).
      { intros ->. rewrite Ehn in E0. injection E0 as <-.
        apply negb_true_iff, Z.eqb_neq in Efn. done. }
      apply (Hkeep x h0); [|by rewrite lookup_update_ne|done].
      apply elem_of_cons in Hx as [?|Hx]; [done|].
      apply elem_of_cons in Hx as [?|Hx]; [done|]. by right.
  - (* move on to [n] *)
    apply Hadvance. right. exists hn. split; [done|].
    apply andb_false_iff in Ec as [Ec|Ec].
    + left. apply negb_false_iff in Ec. by apply Z.eqb_eq in Ec.
    + right. by apply Z.eqb_neq in Ec.
Qed.

(** More fuel never changes what the pass returns. *)
Lemma merge_free_blocks_fuel fuel fuel' current s s' :
  merge_free_blocks fuel current s = Ret tt s' → (fuel <= fuel')%nat →
  merge_free_blocks fuel' current s = Ret tt s'.
Proof.
  revert fuel' current s.
  induction fuel as [|fuel IH]; intros fuel' current s E Hle; [done|].
  destruct fuel' as [|fuel']; [lia|]. simpl in *.
  destruct (current =? 0); [done|].
  rewrite bind_unfold in *. destruct (load current s) as [hc s1| | |]; try done.
  destruct (bm_next hc =? 0); [done|].
  destruct (bm_free hc =? 0); [apply IH; [done|lia]|].
  rewrite bind_unfold in *.
  destruct (load (bm_next hc) s1) as [hn s2| | |]; try done.
  destruct (_ && _); [|apply IH; [done|lia]].
  rewrite bind_unfold in *.
  destruct (modify current _ s2) as [[] s3| | |]; try done.
  rewrite bind_unfold in *.
  destruct (modify current _ s3) as [[] s4| | |]; try done.
  apply IH; [done|lia].
Qed.

Lemma heap_ok_block_list s l :
  heap_ok s → block_list s l → arena (blocks s) (brk s) 1 (global_base s) l.
Proof.
  intros [_ [l0 Ha]] Hl.
  by rewrite (chain_det _ _ _ _ Hl (arena_chain _ _ _ _ _ Ha)).
Qed.

(** The pass on an ordered heap: it returns when the fuel exceeds the
    length of the list, and whenever it returns the heap is still ordered
    and no two free blocks of the list are adjacent. *)
Lemma merge_free_blocks_ok s l :
  heap_ok s → block_list s l →
  (∃ s', merge_free_blocks (S (length l)) (global_base s) s = Ret tt s') ∧
  ∀ fuel s', merge_free_blocks fuel (global_base s) s = Ret tt s' →
    heap_ok s' ∧ coalesced s' ∧
    ∃ hs' l', s' = with_blocks hs' s ∧ block_list s' l' ∧
              (∀ x, x ∈ l' → x ∈ l) ∧
              (∀ x h, x ∈ l → blocks s !! x = Some h → bm_free h = 0 →
                      x ∈ l').
Proof.
  intros Hok Hl. pose proof (heap_ok_block_list _ _ Hok Hl) as Ha.
  destruct Hok as [Hbrk _].
  split.
  { destruct (merge_free_blocks_spec (S (length l)) _ _ _ _ _ Ha Hbrk
                ltac:(lia)) as (hs' & l' & Erun & _). eauto. }
  intros fuel s' E.
  destruct (merge_free_blocks_spec (max fuel (S (length l))) _ _ _ _ _
              Ha Hbrk ltac:(lia))
    as (hs' & l' & Erun & Ha' & Hp & _ & _ & Hsub & Hkeep).
  rewrite (merge_free_blocks_fuel _ _ _ _ _ E (Nat.le_max_l _ _)) in Erun.
  injection Erun as ->.
  split_and!.
  - split; [done|]. by exists l'.
  - intros l3 b1 b2 Hl3. unfold block_list in Hl3. simpl in Hl3.
    rewrite (chain_det _ _ _ _ Hl3 (arena_chain _ _ _ _ _ Ha')).
    by apply (arena_pairs_coalesced _ _ _ _ _ Ha' Hbrk Hp).
  - exists hs', l'. split_and!; try done. by apply arena_chain in Ha'.
Qed.

(** The pass writes sizes and links of free blocks only. *)
Lemma merge_free_blocks_writes fuel current s s' :
  merge_free_blocks fuel current s = Ret tt s' →
  (∀ b h, blocks s !! b = Some h → bm_free h = 0 →
          blocks s' !! b = Some h) ∧
  (∀ b, flags_of <$> blocks s' !! b = flags_of <$> blocks s !! b).
Proof.
  revert current s. induction fuel as [|fuel IH]; intros current s; simpl.
  { done. }
  destruct (current =? 0); [by intros [= <-]|].
  intros E. apply bind_Ret_inv in E as (hc & s1 & E1 & E).
  apply load_Ret_inv in E1 as [Ec ->].
  destruct (bm_next hc =? 0); [by injection E as <-|].
  destruct (bm_free hc =? 0) eqn:Ef; [by apply IH in E|].
  apply bind_Ret_inv in E as (hn & s1 & E1 & E).
  apply load_Ret_inv in E1 as [En ->].
  destruct (_ && _); [|by apply IH in E].
  rewrite (bind_modify_Some _ _ _ _ _ Ec) in E.
  rewrite (bind_modify_Some _ _ _ _ _ (lookup_update_eq _ _ _)) in E.
  rewrite update_update in E.
  apply IH in E as [Hkeep Hflags]. apply Z.eqb_neq in Ef. split.
  - intros b h Eb Hf. apply Hkeep; [|done].
    rewrite lookup_update_ne; [done|]. intros ->. congruence.
  - intros b. rewrite Hflags. destruct (decide (current = b)) as [->|Hne].
    + by rewrite lookup_update_eq, Ec.
    + by rewrite lookup_update_ne.
Qed.


(** ** [find_free_block] is a first-fit search *)

Lemma fits_dec hs size b h :
  hs !! b = Some h →
  (negb (bm_free h =? 0) && (size <=? bm_size h) = true ↔ fits hs size b).
Proof.
  intros E. rewrite andb_true_iff, negb_true_iff, Z.eqb_neq, Z.leb_le.
  split.
  - intros [Hf Hs]. by exists h.
  - intros (h' & E' & Hf & Hs). rewrite E in E'. by injection E' as <-.
Qed.

Lemma last_seen_cons initial b l :
  last_seen initial (b :: l) = last_seen b l.
Proof.
  unfold last_seen. destruct l as [|c l]; [done|].
  rewrite last_cons_cons.
  destruct (last (c :: l)) eqn:E; [done|]. by apply last_None in E.
Qed.

(** What the search returns, read along the list. *)
Lemma find_free_block_loop_sound fuel current last size s l b last' s' :
  chain (blocks s) current l →
  find_free_block_loop fuel current last size s = Ret (b, last') s' →
  s' = s ∧
  ((b = 0 ∧ (∀ x, x ∈ l → ¬ fits (blocks s) size x) ∧
    last' = last_seen last l) ∨
   (∃ l1 l2, l = l1 ++ b :: l2 ∧ fits (blocks s) size b ∧
             (∀ x, x ∈ l1 → ¬ fits (blocks s) size x) ∧
             last' = last_seen last l1)).
Proof.
  revert current last l.
  induction fuel as [|fuel IH]; intros current last l Hc; simpl; [done|].
  destruct Hc as [|c h l Hnz E Hc].
  { intros [= <- <- <-]. split; [done|]. left.
    split_and!; [done| |done]. intros x Hx. by apply elem_of_nil in Hx. }
  rewrite (eqb_neq_false _ _ Hnz), (bind_load_Some _ _ _ _ E).
  destruct (negb (bm_free h =? 0) && (size <=? bm_size h)) eqn:Ec.
  - intros [= <- <- <-]. split; [done|]. right.
    exists [], l. split_and!; [done| |by intros x Hx; apply elem_of_nil in Hx|done].
    by apply (fits_dec _ _ _ _ E).
  - intros Er. destruct (IH _ _ _ Hc Er) as [-> Hres].
    split; [done|].
    assert (Hno : ¬ fits (blocks s) size c).
    { intros Hf. apply (fits_dec _ _ _ _ E) in Hf. congruence. }
    destruct Hres as [(-> & Hall & ->)|(l1 & l2 & -> & Hf & Hall & ->)].
    + left. split_and!; [done| |by rewrite last_seen_cons].
      intros x Hx. apply elem_of_cons in Hx as [->|Hx]; auto.
    + right. exists (c :: l1), l2.
      split_and!; [done|done| |by rewrite last_seen_cons].
      intros x Hx. apply elem_of_cons in Hx as [->|Hx]; auto.
Qed.

(** The search returns when the fuel exceeds the length of the list. *)
Lemma find_free_block_loop_total fuel current last size s l :
  chain (blocks s) current l → (length l < fuel)%nat →
  ∃ r, find_free_block_loop fuel current last size s = Ret r s.
Proof.
  revert current last l.
  induction fuel as [|fuel IH]; intros current last l Hc Hlen; [lia|].
  simpl. destruct Hc as [|c h l Hnz E Hc]; [by eexists|].
  rewrite (eqb_neq_false _ _ Hnz), (bind_load_Some _ _ _ _ E).
  destruct (_ && _); [by eexists|].
  apply (IH _ _ l); [done|simpl in Hlen; lia].
Qed.

Lemma find_free_block_spec fuel last size s l :
  block_list s l → (length l < fuel)%nat →
  ∃ b last',
    find_free_block fuel last size s = Ret (b, last') s ∧
    ((b = 0 ∧ (∀ x, x ∈ l → ¬ fits (blocks s) size x) ∧
      last' = last_seen last l) ∨
     (∃ l1 l2, l = l1 ++ b :: l2 ∧ fits (blocks s) size b ∧
               (∀ x, x ∈ l1 → ¬ fits (blocks s) size x) ∧
               last' = last_seen last l1)).
Proof.
  intros Hl Hlen. unfold find_free_block. rewrite bind_get_global_base.
  destruct (find_free_block_loop_total fuel _ last size _ _ Hl Hlen)
    as [[b last'] Er].
  exists b, last'. split; [done|].
  by destruct (find_free_block_loop_sound _ _ _ _ _ _ _ _ _ Hl Er).
Qed.

(** [find_free_block] returns the first block of the list that is free
    and large enough, with [*last] the block before it; when no block
    fits it returns NULL with [*last] the last block of the list.  It
    changes nothing. *)
Theorem find_free_block_first_fit fuel last size s l :
  block_list s l → (length l < fuel)%nat →
  ∃ b last',
    find_free_block fuel last size s = Ret (b, last') s ∧
    ((b = 0 ∧ (∀ x, x ∈ l → ¬ fits (blocks s) size x) ∧
      last' = last_seen last l) ∨
     (∃ l1 l2, l = l1 ++ b :: l2 ∧ fits (blocks s) size b ∧
               (∀ x, x ∈ l1 → ¬ fits (blocks s) size x) ∧
               last' = last_seen last l1)).
Proof. apply find_free_block_spec. Qed.

(** ** The memory source and [request_space] *)

Lemma to_intptr_small z : z < 2 ^ 63 → to_intptr z = z.
Proof. intros H. unfold to_intptr. by rewrite (proj2 (Z.ltb_lt _ _) H). Qed.

Lemma sbrk_grow inc s :
  0 < inc < 2 ^ 63 →
  brk_start s <= brk s + inc <= brk_max s →
  sbrk inc s = Ret (brk s) (with_brk (brk s + inc) s).
Proof.
  intros Hinc Hr. unfold sbrk. rewrite to_intptr_small by lia.
  rewrite (eqb_neq_false inc 0) by lia.
  rewrite (proj2 (Z.leb_le _ _) (proj1 Hr)), (proj2 (Z.leb_le _ _) (proj2 Hr)).
  done.
Qed.

Lemma sbrk_refused inc s :
  0 < inc < 2 ^ 63 →
  ¬ (brk_start s <= brk s + inc <= brk_max s) →
  sbrk inc s = Ret SBRK_FAILED s.
Proof.
  intros Hinc Hr. unfold sbrk. rewrite to_intptr_small by lia.
  rewrite (eqb_neq_false inc 0) by lia.
  destruct (brk_start s <=? brk s + inc) eqn:E1;
    destruct (brk s + inc <=? brk_max s) eqn:E2; try done.
  apply Z.leb_le in E1, E2. lia.
Qed.

Lemma wrap_request size :
  0 <= size → size + META_SIZE < 2 ^ 63 →
  wrap (size + META_SIZE) = size + META_SIZE ∧ 0 < size + META_SIZE < 2 ^ 63.
Proof.
  intros H1 H2. unfold META_SIZE in *. split; [|lia].
  apply wrap_small. rewrite modulus_eq. lia.
Qed.

(** The memory source grants the request: the new block sits at the old
    break. *)
Lemma request_space_grow last size s :
  0 <= size → size + META_SIZE < 2 ^ 63 →
  brk_start s <= brk s + (size + META_SIZE) <= brk_max s →
  brk s ≠ SBRK_FAILED →
  request_space last size s =
    ((if last =? 0 then ret tt else modify last (set_next (brk s)));;
     store (brk s) (mk_meta size 0 0 1 MAGIC_FRESH);;
     ret (brk s)) (with_brk (brk s + (size + META_SIZE)) s).
Proof.
  intros H1 H2 Hr Hb. destruct (wrap_request _ H1 H2) as [Hw Hinc].
  unfold request_space. rewrite bind_sbrk_0, Hw.
  rewrite (bind_Ret _ _ _ _ _ (sbrk_grow _ _ Hinc Hr)).
  rewrite bind_unfold. unfold assert. rewrite Z.eqb_refl.
  by rewrite (eqb_neq_false _ _ Hb).
Qed.

(** The memory source refuses: the assertion of [request_space] fails
    before the test for [(void * ) -1] is reached. *)
Lemma request_space_refused last size s :
  0 <= size → size + META_SIZE < 2 ^ 63 →
  ¬ (brk_start s <= brk s + (size + META_SIZE) <= brk_max s) →
  brk s ≠ SBRK_FAILED →
  request_space last size s = Abort.
Proof.
  intros H1 H2 Hr Hb. destruct (wrap_request _ H1 H2) as [Hw Hinc].
  unfold request_space. rewrite bind_sbrk_0, Hw.
  rewrite (bind_Ret _ _ _ _ _ (sbrk_refused _ _ Hinc Hr)).
  rewrite bind_unfold. unfold assert.
  by rewrite (eqb_neq_false _ _ Hb).
Qed.

Lemma align8_bound size :
  0 < size <= 2 ^ 62 →
  size <= align8 size ∧ align8 size + META_SIZE + MIN_SIZE < 2 ^ 63.
Proof.
  intros Hs.
  assert (H62 : 2 ^ 62 = 4611686018427387904) by done.
  assert (H63 : 2 ^ 63 = 9223372036854775808) by done.
  destruct (align8_ge size) as [Hl Hu]; [lia|rewrite modulus_eq; lia|].
  unfold META_SIZE, MIN_SIZE. lia.
Qed.

Lemma chain_null_inv hs l : chain hs 0 l → l = [].
Proof. by inversion 1. Qed.

Lemma malloc_exhausted fuel size s l :
  0 < size <= 2 ^ 62 →
  block_list s l → (length l < fuel)%nat →
  (∀ x, x ∈ l → ¬ fits (blocks s) (align8 size) x) →
  ¬ (brk_start s <= brk s + (align8 size + META_SIZE) <= brk_max s) →
  brk s ≠ SBRK_FAILED →
  malloc fuel size s = Abort.
Proof.
  intros Hs Hl Hlen Hnofit Hr Hb.
  destruct (align8_bound _ Hs) as [Hle Hub].
  pose proof (align8_range size) as [Hnn _].
  assert (Hreq : ∀ last, request_space last (align8 size) s = Abort).
  { intros last. apply request_space_refused; try done.
    unfold META_SIZE, MIN_SIZE in *. lia. }
  unfold malloc. rewrite (proj2 (Z.leb_gt _ _) (proj1 Hs)).
  rewrite bind_get_global_base.
  destruct (global_base s =? 0).
  { by rewrite bind_unfold, Hreq. }
  destruct (find_free_block_spec fuel 0 (align8 size) s l Hl Hlen)
    as (b & last' & Ef & Hres).
  rewrite (bind_Ret _ _ _ _ _ Ef). simpl.
  destruct Hres as [(-> & _)|(l1 & l2 & -> & Hfit & _)].
  - simpl. by rewrite bind_unfold, Hreq.
  - exfalso. apply (Hnofit b); [|done].
    rewrite elem_of_app, elem_of_cons. auto.
Qed.

(** When no block of the list can serve the request and the memory
    source refuses to move the break, [malloc] does not return NULL: the
    assertion in [request_space] fails and the program aborts.  A
    [realloc] that has to grow a block aborts in the same way, before it
    touches the old block. *)
Theorem exhaustion_aborts fuel size s l :
  0 < size <= 2 ^ 62 →
  block_list s l → (length l < fuel)%nat →
  (∀ x, x ∈ l → ¬ fits (blocks s) (align8 size) x) →
  ¬ (brk_start s <= brk s + (align8 size + META_SIZE) <= brk_max s) →
  brk s ≠ SBRK_FAILED →
  malloc fuel size s = Abort ∧
  ∀ ptr h, ptr ≠ 0 → blocks s !! header_of ptr = Some h →
           bm_size h < size → realloc fuel ptr size s = Abort.
Proof.
  intros Hs Hl Hlen Hnofit Hr Hb.
  pose proof (malloc_exhausted _ _ _ _ Hs Hl Hlen Hnofit Hr Hb) as Hm.
  split; [done|]. intros ptr h Hp E Hlt. unfold realloc.
  rewrite (eqb_neq_false _ _ Hp), (eqb_neq_false size 0) by lia.
  rewrite (bind_load_Some _ _ _ _ E).
  rewrite (proj2 (Z.leb_gt _ _) Hlt).
  by rewrite bind_unfold, Hm.
Qed.

(** ** [malloc] keeps the heap ordered *)

Lemma arena_notin_above hs hi lo p l x :
  arena hs hi lo p l → hi <= x → x ∉ l.
Proof.
  intros Ha Hx Hin.
  destruct (chain_lookup _ _ _ _ (arena_chain _ _ _ _ _ Ha) Hin) as [h E].
  destruct (arena_ub _ _ _ _ _ _ _ Ha Hin E) as (_ & ? & ?).
  unfold META_SIZE in *. lia.
Qed.

(** Appending a block at the old break. *)
Lemma arena_snoc hs hi lo p l lst hl size :
  arena hs hi lo p l → last l = Some lst → hs !! lst = Some hl →
  0 < hi → 0 <= size →
  arena (<[hi := mk_meta size 0 0 1 MAGIC_FRESH]>
           (<[lst := set_next hi hl]> hs))
        (hi + (size + META_SIZE)) lo p (l ++ [hi]).
Proof.
  intros Ha. revert lst hl.
  induction Ha as [|lo b h l Hlo Hb E Hsz Ha IH]; intros lst hl Hlast El Hhi Hsize.
  { done. }
  assert (Hall : arena hs hi lo b (b :: l)) by (by econstructor).
  assert (Hbhi : b ≠ hi).
  { intros ->. by apply (arena_notin_above _ _ _ _ _ hi Hall); [|left]. }
  destruct l as [|n l1].
  - injection Hlast as <-. rewrite E in El. injection El as <-.
    apply arena_nil_inv in Ha as [Hn Hle]. simpl.
    apply (arena_cons _ _ _ _ (set_next hi h)); try done.
    + rewrite lookup_insert_ne by done. apply lookup_insert_eq.
    + simpl. apply (arena_cons _ _ _ _ (mk_meta size 0 0 1 MAGIC_FRESH));
        try done.
      * apply lookup_insert_eq.
      * simpl. constructor. unfold META_SIZE. lia.
  - rewrite last_cons_cons in Hlast. simpl.
    assert (Hlst : lst ∈ n :: l1).
    { apply last_Some in Hlast as [l' ->]. rewrite elem_of_app, elem_of_cons.
      right. by left. }
    assert (Hblst : b ≠ lst).
    { intros ->. pose proof (arena_lb _ _ _ _ _ _ Ha Hlst).
      unfold META_SIZE in *. lia. }
    apply (arena_cons _ _ _ _ h); try done.
    + by rewrite !lookup_insert_ne.
    + by apply (IH lst hl).
Qed.

(** Cutting the block at [b] in two: the front keeps [size] bytes, the
    rest becomes a block of its own right behind it. *)
Lemma arena_split hs hi lo p l b h size hb ht :
  arena hs hi lo p l → b ∈ l → hs !! b = Some h →
  0 <= size → size + META_SIZE <= bm_size h →
  bm_size hb = size → bm_next hb = b + META_SIZE + size →
  bm_size ht = bm_size h - size - META_SIZE → bm_next ht = bm_next h →
  ∃ l', arena (<[b := hb]> (<[b + META_SIZE + size := ht]> hs)) hi lo p l' ∧
        ∀ x, x ∈ l' ↔ x ∈ l ∨ x = b + META_SIZE + size.
Proof.
  intros Ha Hin E Hsz Hfit Hbs Hbn Hts Htn.
  induction Ha as [|lo b0 h0 l Hlo Hb0 E0 Hsz0 Ha IH].
  { by apply elem_of_nil in Hin. }
  assert (Hall : arena hs hi lo b0 (b0 :: l)) by (by econstructor).
  destruct (arena_ub _ _ _ _ _ _ _ Hall Hin E) as (Hbpos & _ & _).
  set (tail := b + META_SIZE + size) in *.
  assert (Hbt : b ≠ tail) by (unfold tail, META_SIZE; lia).
  destruct (decide (b = b0)) as [<-|Hne].
  - rewrite E in E0. injection E0 as <-.
    exists (b :: tail :: l).
    split; [|intros x; rewrite !elem_of_cons; tauto].
    apply (arena_cons _ _ _ _ hb); try done.
    + apply lookup_insert_eq.
    + lia.
    + rewrite Hbs, Hbn. fold tail.
      apply (arena_cons _ _ _ _ ht); try (unfold tail, META_SIZE in *; lia).
      * rewrite lookup_insert_ne by done. apply lookup_insert_eq.
      * rewrite Hts, Htn.
        replace (tail + META_SIZE + (bm_size h - size - META_SIZE))
          with (b + META_SIZE + bm_size h) by (unfold tail; lia).
        eapply arena_ext; [exact Ha|]. intros x Hx.
        pose proof (arena_lb _ _ _ _ _ _ Ha Hx).
        rewrite !lookup_insert_ne; [done|..];
          unfold tail, META_SIZE in *; lia.
  - apply elem_of_cons in Hin as [?|Hin]; [done|].
    destruct (IH Hin) as (l' & Ha' & Hl').
    exists (b0 :: l').
    split; [|intros x; rewrite !elem_of_cons, Hl'; tauto].
    pose proof (arena_lb _ _ _ _ _ _ Ha Hin).
    apply (arena_cons _ _ _ _ h0); try done.
    rewrite !lookup_insert_ne; [done|..]; unfold tail, META_SIZE in *; lia.
Qed.

(** Two distinct blocks of an ordered list do not overlap. *)
Lemma arena_disjoint hs hi lo p l b1 b2 h1 h2 :
  arena hs hi lo p l → b1 ∈ l → b2 ∈ l → b1 ≠ b2 →
  hs !! b1 = Some h1 → hs !! b2 = Some h2 →
  b1 + META_SIZE + bm_size h1 <= b2 ∨ b2 + META_SIZE + bm_size h2 <= b1.
Proof.
  induction 1 as [|lo b h l Hlo Hb E Hsz Ha IH]; intros H1 H2 Hne E1 E2.
  { by apply elem_of_nil in H1. }
  apply elem_of_cons in H1 as [->|H1]; apply elem_of_cons in H2 as [->|H2];
    try done.
  - left. rewrite E in E1. injection E1 as <-.
    by apply (arena_lb _ _ _ _ _ _ Ha).
  - right. rewrite E in E2. injection E2 as <-.
    by apply (arena_lb _ _ _ _ _ _ Ha).
  - by apply IH.
Qed.

Lemma arena_interior_notin hs hi lo p l b h x :
  arena hs hi lo p l → b ∈ l → hs !! b = Some h →
  b < x < b + META_SIZE + bm_size h → x ∉ l.
Proof.
  intros Ha Hb E Hx Hin.
  destruct (chain_lookup _ _ _ _ (arena_chain _ _ _ _ _ Ha) Hin) as [hx Ex].
  destruct (arena_ub _ _ _ _ _ _ _ Ha Hin Ex) as (_ & ? & _).
  destruct (arena_disjoint _ _ _ _ _ b x h hx Ha Hb Hin) as [?|?];
    try done; unfold META_SIZE in *; lia.
Qed.

Lemma request_space_corner last size s :
  0 <= size → size + META_SIZE < 2 ^ 63 →
  ¬ (brk_start s <= brk s + (size + META_SIZE) <= brk_max s) →
  brk s = SBRK_FAILED →
  request_space last size s = Ret 0 s.
Proof.
  intros H1 H2 Hr Hb. destruct (wrap_request _ H1 H2) as [Hw Hinc].
  unfold request_space. rewrite bind_sbrk_0, Hw.
  rewrite (bind_Ret _ _ _ _ _ (sbrk_refused _ _ Hinc Hr)).
  rewrite bind_unfold. unfold assert. rewrite Hb, !Z.eqb_refl. done.
Qed.

Lemma in_use_kept_refl l s : in_use_kept l s s.
Proof. intros b h _ E Hf. exists h. done. Qed.

Lemma malloc_post_refl l s size : heap_ok s → malloc_post l s s size 0.
Proof.
  intros Hok. unfold malloc_post. split_and!; try done.
  apply in_use_kept_refl.
Qed.

Lemma payload_of_exact b : 0 <= b → b + META_SIZE < modulus →
  payload_of b = b + META_SIZE.
Proof.
  intros. unfold payload_of, ptr_add. apply wrap_small.
  unfold META_SIZE in *. lia.
Qed.

(** The first block of the heap. *)
Lemma malloc_post_first s size asz :
  heap_ok s → brk_max s < modulus → global_base s = 0 →
  0 <= asz → size <= asz →
  brk_start s <= brk s + (asz + META_SIZE) <= brk_max s →
  malloc_post [] s
    (with_global_base (brk s)
       (update (brk s) (mk_meta asz 0 0 1 MAGIC_FRESH)
          (with_brk (brk s + (asz + META_SIZE)) s)))
    size (payload_of (brk s)).
Proof.
  intros [Hbrk [l Ha]] Hmax Hbase Hasz Hle Hr.
  rewrite Hbase in Ha. pose proof (arena_lo_le_hi _ _ _ _ _ Ha) as Hpos.
  assert (Hnew : arena (<[brk s := mk_meta asz 0 0 1 MAGIC_FRESH]> (blocks s))
                   (brk s + (asz + META_SIZE)) 1 (brk s) [brk s]).
  { apply (arena_cons _ _ _ _ (mk_meta asz 0 0 1 MAGIC_FRESH)); try done.
    - lia.
    - apply lookup_insert_eq.
    - simpl. constructor. lia. }
  unfold malloc_post. split_and!; try done.
  - split; simpl; [lia|eauto].
  - intros b h Hb. by apply elem_of_nil in Hb.
  - intros _. exists [brk s], (brk s), (mk_meta asz 0 0 1 MAGIC_FRESH).
    split_and!; try done.
    + by apply arena_chain in Hnew.
    + intros x Hx. by apply elem_of_nil in Hx.
    + apply payload_of_exact; unfold META_SIZE in *; lia.
    + by left.
    + apply lookup_insert_eq.
    + left. apply not_elem_of_nil.
Qed.

(** A new block behind the last one. *)
Lemma malloc_post_append s l lst hl size asz :
  heap_ok s → brk_max s < modulus → block_list s l →
  last l = Some lst → blocks s !! lst = Some hl →
  0 <= asz → size <= asz →
  brk_start s <= brk s + (asz + META_SIZE) <= brk_max s →
  malloc_post l s
    (update (brk s) (mk_meta asz 0 0 1 MAGIC_FRESH)
       (update lst (set_next (brk s) hl)
          (with_brk (brk s + (asz + META_SIZE)) s)))
    size (payload_of (brk s)).
Proof.
  intros Hok Hmax Hl Hlast El Hasz Hle Hr.
  pose proof (heap_ok_block_list _ _ Hok Hl) as Ha.
  destruct Hok as [Hbrk _].
  pose proof (arena_lo_le_hi _ _ _ _ _ Ha) as Hpos.
  pose proof (arena_snoc _ _ _ _ _ _ _ asz Ha Hlast El ltac:(lia) Hasz)
    as Hnew.
  assert (Hnotin : brk s ∉ l).
  { by apply (arena_notin_above _ _ _ _ _ _ Ha). }
  unfold malloc_post. split_and!; try done.
  - split; simpl; [lia|eauto].
  - intros b h Hb E Hf. simpl.
    assert (b ≠ brk s) by (by intros ->).
    rewrite lookup_insert_ne by done.
    destruct (decide (b = lst)) as [->|Hne].
    + rewrite lookup_insert_eq. rewrite El in E. injection E as <-.
      by exists (set_next (brk s) hl).
    + rewrite lookup_insert_ne by done. by exists h.
  - intros _.
    exists (l ++ [brk s]), (brk s), (mk_meta asz 0 0 1 MAGIC_FRESH).
    split_and!; try done.
    + by apply arena_chain in Hnew.
    + intros x Hx. rewrite elem_of_app. by left.
    + apply payload_of_exact; unfold META_SIZE in *; lia.
    + rewrite elem_of_app, list_elem_of_singleton. by right.
    + apply lookup_insert_eq.
    + by left.
Qed.

(** A free block handed out whole. *)
Lemma malloc_post_whole s l b h size :
  heap_ok s → block_list s l → b ∈ l →
  blocks s !! b = Some h → bm_free h ≠ 0 → size <= bm_size h →
  malloc_post l s (update b (reused h) s) size (payload_of b).
Proof.
  intros Hok Hl Hb E Hf Hle.
  pose proof (heap_ok_block_list _ _ Hok Hl) as Ha.
  destruct (arena_ub _ _ _ _ _ _ _ Ha Hb E) as (Hbpos & Hsz & Hub).
  assert (Hok' : heap_ok (update b (reused h) s)).
  { by eapply heap_ok_flag_stable. }
  unfold malloc_post. split_and!; try done.
  - intros b0 h0 Hb0 E0 Hf0. simpl.
    destruct (decide (b = b0)) as [->|Hne]; [congruence|].
    rewrite lookup_insert_ne by done. by exists h0.
  - intros _. exists l, b, (reused h). split_and!; try done.
    + unfold block_list. simpl. by eapply chain_update.
    + destruct Hok as [Hbrk _].
      apply payload_of_exact; unfold META_SIZE in *; lia.
    + apply lookup_insert_eq.
    + right. by exists h.
Qed.

(** A free block cut in two, the front handed out. *)
Lemma malloc_post_split s l b h size asz :
  heap_ok s → block_list s l → b ∈ l →
  blocks s !! b = Some h → bm_free h ≠ 0 →
  0 <= asz → size <= asz → asz + META_SIZE + MIN_SIZE <= bm_size h →
  malloc_post l s
    (update b (mk_meta asz (b + META_SIZE + asz) 0 1 MAGIC_REUSED)
       (update (b + META_SIZE + asz)
          (mk_meta (bm_size h - asz - META_SIZE) (bm_next h) 1 0 MAGIC_SPLIT)
          s))
    size (payload_of b).
Proof.
  intros Hok Hl Hb E Hf Hasz Hle Hfit.
  pose proof (heap_ok_block_list _ _ Hok Hl) as Ha.
  destruct (arena_ub _ _ _ _ _ _ _ Ha Hb E) as (Hbpos & Hsz & Hub).
  destruct Hok as [Hbrk _].
  destruct (arena_split _ _ _ _ _ b h asz
              (mk_meta asz (b + META_SIZE + asz) 0 1 MAGIC_REUSED)
              (mk_meta (bm_size h - asz - META_SIZE) (bm_next h) 1 0
                 MAGIC_SPLIT) Ha Hb E Hasz)
    as (l' & Ha' & Hl'); try done.
  { unfold MIN_SIZE in *. lia. }
  assert (Htail : b + META_SIZE + asz ∉ l).
  { apply (arena_interior_notin _ _ _ _ _ b h _ Ha Hb E).
    unfold META_SIZE, MIN_SIZE in *. lia. }
  unfold malloc_post. split_and!; try done.
  - split; [done|]. by exists l'.
  - intros b0 h0 Hb0 E0 Hf0. simpl.
    assert (b ≠ b0) by congruence.
    assert (b + META_SIZE + asz ≠ b0) by (by intros <-).
    rewrite !lookup_insert_ne by done. by exists h0.
  - intros _.
    exists l', b, (mk_meta asz (b + META_SIZE + asz) 0 1 MAGIC_REUSED).
    split_and!; try done.
    + by apply arena_chain in Ha'.
    + intros x Hx. apply Hl'. by left.
    + apply payload_of_exact; unfold META_SIZE in *; lia.
    + apply Hl'. by left.
    + apply lookup_insert_eq.
    + right. by exists h.
Qed.

Lemma find_free_block_sound fuel last size s l b last' s' :
  block_list s l →
  find_free_block fuel last size s = Ret (b, last') s' →
  s' = s ∧
  ((b = 0 ∧ (∀ x, x ∈ l → ¬ fits (blocks s) size x) ∧
    last' = last_seen last l) ∨
   (∃ l1 l2, l = l1 ++ b :: l2 ∧ fits (blocks s) size b ∧
             (∀ x, x ∈ l1 → ¬ fits (blocks s) size x) ∧
             last' = last_seen last l1)).
Proof.
  intros Hl. unfold find_free_block. rewrite bind_get_global_base.
  by apply find_free_block_loop_sound.
Qed.

Lemma SBRK_FAILED_eq : SBRK_FAILED = modulus - 1.
Proof. reflexivity. Qed.

Lemma malloc_reuse_sound s l b h size p s' :
  heap_ok s → block_list s l → b ∈ l →
  blocks s !! b = Some h → bm_free h ≠ 0 → align8 size <= bm_size h →
  0 < size <= 2 ^ 62 →
  ((if wrap (align8 size + META_SIZE + MIN_SIZE) <=? bm_size h
    then split_block b (align8 size) else ret tt);;
   modify b (set_free 0);;
   modify b (set_marked 1);;
   modify b (set_magic MAGIC_REUSED);;
   ret (payload_of b)) s = Ret p s' →
  malloc_post l s s' size p.
Proof.
  intros Hok Hl Hin Eh Hfree Hfits Hs E.
  destruct (align8_bound _ Hs) as [Hle Hub].
  pose proof (align8_range size) as [Hnn _].
  pose proof (heap_ok_block_list _ _ Hok Hl) as Ha.
  assert (H63 : 2 ^ 63 < modulus) by done.
  destruct (arena_ub _ _ _ _ _ _ _ Ha Hin Eh) as (Hbpos & Hhsz & Hub').
  pose proof (proj1 Hok) as Hbrk.
  rewrite (wrap_small (align8 size + META_SIZE + MIN_SIZE)) in E
    by (unfold META_SIZE, MIN_SIZE in *; lia).
  destruct (align8 size + META_SIZE + MIN_SIZE <=? bm_size h) eqn:Ec.
  - apply Z.leb_le in Ec.
    assert (Hne : ptr_add (ptr_add b META_SIZE) (align8 size) ≠ b).
    { apply tail_ne_block. unfold META_SIZE, MIN_SIZE in *. lia. }
    assert (Htail : ptr_add (ptr_add b META_SIZE) (align8 size) =
                    b + META_SIZE + align8 size).
    { unfold ptr_add, META_SIZE, MIN_SIZE in *.
      rewrite (wrap_small (b + 32)) by lia. apply wrap_small. lia. }
    rewrite (bind_Ret _ _ _ _ _ (split_block_eq _ _ _ _ Eh Hne)) in E.
    rewrite (modify3_ret _ _ _ _ _ _ _ (lookup_update_eq _ _ _)) in E.
    rewrite update_update, Htail in E.
    rewrite (wrap_small (bm_size h - align8 size - META_SIZE)) in E
      by (unfold META_SIZE, MIN_SIZE in *; lia).
    injection E as <- <-.
    by apply (malloc_post_split _ _ _ h).
  - rewrite bind_unfold, ret_unfold in E.
    rewrite (modify3_ret _ _ _ _ _ _ _ Eh) in E.
    injection E as <- <-.
    apply (malloc_post_whole _ _ _ h); try done. lia.
Qed.

(** Everything [malloc] promises on an ordered heap, for requests of at
    most [2 ^ 62] bytes. *)
Lemma malloc_sound_all fuel size s l p s' :
  heap_ok s → brk_max s < modulus → block_list s l →
  0 < size <= 2 ^ 62 →
  malloc fuel size s = Ret p s' →
  malloc_post l s s' size p.
Proof.
  intros Hok Hmax Hl Hs E.
  destruct (align8_bound _ Hs) as [Hle Hub].
  pose proof (align8_range size) as [Hnn _].
  pose proof (heap_ok_block_list _ _ Hok Hl) as Ha.
  pose proof (arena_lo_le_hi _ _ _ _ _ Ha) as Hpos.
  assert (H63 : 2 ^ 63 < modulus) by done.
  assert (Hsz32 : align8 size + META_SIZE < 2 ^ 63).
  { unfold META_SIZE, MIN_SIZE in *. lia. }
  (* what [request_space] can return *)
  assert (Hreq : ∀ last b s1,
    request_space last (align8 size) s = Ret b s1 →
    (b = 0 ∧ s1 = s) ∨
    (brk_start s <= brk s + (align8 size + META_SIZE) <= brk_max s ∧
     b = brk s ∧
     ((if last =? 0 then ret tt else modify last (set_next (brk s)));;
      store (brk s) (mk_meta (align8 size) 0 0 1 MAGIC_FRESH);;
      ret (brk s)) (with_brk (brk s + (align8 size + META_SIZE)) s)
     = Ret b s1)).
  { intros last b s1 Er.
    destruct (decide (brk_start s <= brk s + (align8 size + META_SIZE)
                      <= brk_max s)) as [Hr|Hr].
    - assert (Hbf : brk s ≠ SBRK_FAILED).
      { rewrite SBRK_FAILED_eq. unfold META_SIZE in *. lia. }
      rewrite (request_space_grow _ _ _ Hnn Hsz32 Hr Hbf) in Er.
      right. split_and!; [lia|lia| |done].
      apply bind_Ret_inv in Er as (? & ? & _ & Er).
      rewrite bind_store in Er. by injection Er as <- _.
    - left. destruct (decide (brk s = SBRK_FAILED)) as [Hbf|Hbf].
      + rewrite (request_space_corner _ _ _ Hnn Hsz32 Hr Hbf) in Er.
        by injection Er as <- <-.
      + by rewrite (request_space_refused _ _ _ Hnn Hsz32 Hr Hbf) in Er. }
  assert (Hb0 : (brk s =? 0) = false) by (apply Z.eqb_neq; lia).
  unfold malloc in E. rewrite (proj2 (Z.leb_gt _ _) (proj1 Hs)) in E.
  rewrite bind_get_global_base in E.
  destruct (global_base s =? 0) eqn:Eb.
  - apply Z.eqb_eq in Eb. pose proof Hl as Hl0.
    unfold block_list in Hl0. rewrite Eb in Hl0.
    apply chain_null_inv in Hl0 as ->.
    apply bind_Ret_inv in E as (b & s1 & Er & E).
    destruct (Hreq _ _ _ Er) as [[-> ->]|(Hr & -> & Er')].
    { injection E as <- <-. by apply malloc_post_refl. }
    rewrite Hb0 in E. simpl in Er'. injection Er' as <-.
    injection E as <- <-. by apply malloc_post_first.
  - apply Z.eqb_neq in Eb.
    apply bind_Ret_inv in E as ([b last'] & s1 & Ef & E).
    destruct (find_free_block_sound _ _ _ _ _ _ _ _ Hl Ef) as [-> Hres].
    destruct Hres as [(-> & Hno & ->)|(l1 & l2 & Heq & Hfit & _ & _)].
    + simpl in E. apply bind_Ret_inv in E as (b & s1 & Er & E).
      destruct (Hreq _ _ _ Er) as [[-> ->]|(Hr & -> & Er')].
      { injection E as <- <-. by apply malloc_post_refl. }
      rewrite Hb0 in E. injection E as <- <-.
      destruct (chain_head _ _ _ Hl) as [?|Hin]; [done|].
      destruct (last l) as [lst|] eqn:Hlast;
        [|apply last_None in Hlast; subst l; by apply elem_of_nil in Hin].
      assert (Hlst : lst ∈ l).
      { apply last_Some in Hlast as [l' ->]. rewrite elem_of_app.
        right. by left. }
      destruct (chain_lookup _ _ _ _ Hl Hlst) as [hl El].
      pose proof (chain_nonzero _ _ _ _ Hl Hlst) as Hnz.
      unfold last_seen in Er'. rewrite Hlast in Er'. simpl in Er'.
      rewrite (eqb_neq_false _ _ Hnz) in Er'.
      rewrite (bind_modify_Some _ _ _ _
                 (with_brk (brk s + (align8 size + META_SIZE)) s) El) in Er'.
      rewrite bind_store in Er'. injection Er' as <-.
      by apply (malloc_post_append _ _ lst hl).
    + assert (Hin : b ∈ l).
      { rewrite Heq, elem_of_app, elem_of_cons. auto. }
      destruct Hfit as (h & Eh & Hfree & Hfits).
      pose proof (chain_nonzero _ _ _ _ Hl Hin) as Hnz.
      cbn beta iota in E. rewrite (eqb_neq_false _ _ Hnz) in E.
      rewrite (bind_load_Some _ _ _ _ Eh) in E.
      by apply (malloc_reuse_sound _ _ _ h _ _ _ Hok Hl Hin Eh Hfree Hfits Hs).
Qed.

(** ** The order is an invariant *)

Lemma heap_ok_has_list s : heap_ok s → ∃ l, block_list s l.
Proof. intros [_ [l Ha]]. exists l. by apply arena_chain in Ha. Qed.

Lemma free_sound fuel ptr s s' :
  heap_ok s → free fuel ptr s = Ret tt s' →
  heap_ok s' ∧ brk_max s' = brk_max s ∧ mem s' = mem s ∧
  (ptr ≠ 0 → coalesced s').
Proof.
  intros Hok E. destruct (decide (ptr = 0)) as [->|Hp].
  { change (free fuel 0 s) with (Ret tt s) in E. injection E as <-.
    by split_and!. }
  destruct (blocks s !! header_of ptr) as [h|] eqn:Eh.
  - rewrite (free_unfold _ _ _ _ Hp Eh) in E.
    destruct (bm_free h =? 0); [|done].
    destruct (allocated_tag (bm_magic h)); [|done].
    set (s1 := update (header_of ptr) (released h) s) in *.
    assert (Hok1 : heap_ok s1) by (by eapply heap_ok_flag_stable).
    destruct (heap_ok_has_list _ Hok1) as [l Hl].
    destruct (merge_free_blocks_ok _ _ Hok1 Hl) as [_ Hall].
    destruct (Hall _ _ E) as (Hok' & Hco & hs' & l' & -> & _).
    by split_and!.
  - unfold free in E. rewrite (eqb_neq_false _ _ Hp) in E.
    by rewrite (bind_load_None _ _ _ Eh) in E.
Qed.

Lemma free_frame fuel ptr s l s' :
  heap_ok s → block_list s l →
  free fuel ptr s = Ret tt s' →
  mem s' = mem s ∧ brk s' = brk s ∧
  (ptr ≠ 0 → ∃ h', blocks s' !! header_of ptr = Some h' ∧
                   flags_of h' = (1, 0, MAGIC_FREED)) ∧
  ∃ l', block_list s' l' ∧ (∀ x, x ∈ l' → x ∈ l) ∧
        ∀ b h, b ∈ l → b ≠ header_of ptr →
               blocks s !! b = Some h → bm_free h = 0 →
               b ∈ l' ∧ blocks s' !! b = Some h.
Proof.
  intros Hok Hl E. destruct (decide (ptr = 0)) as [->|Hp].
  { change (free fuel 0 s) with (Ret tt s) in E. injection E as <-.
    split_and!; try done. exists l. by split_and!. }
  destruct (blocks s !! header_of ptr) as [h|] eqn:Eh.
  - rewrite (free_unfold _ _ _ _ Hp Eh) in E.
    destruct (bm_free h =? 0); [|done].
    destruct (allocated_tag (bm_magic h)); [|done].
    set (s1 := update (header_of ptr) (released h) s) in *.
    assert (Hok1 : heap_ok s1) by (by eapply heap_ok_flag_stable).
    assert (Hl1 : block_list s1 l).
    { unfold block_list, s1. simpl. by eapply chain_update. }
    destruct (merge_free_blocks_ok _ _ Hok1 Hl1) as [_ Hall].
    destruct (Hall _ _ E) as (_ & _ & hs' & l' & Hs' & Hl' & Hsub & Hkeep).
    destruct (merge_free_blocks_writes _ _ _ _ E) as [Hsame Hflags].
    split_and!.
    + by rewrite Hs'.
    + by rewrite Hs'.
    + intros _. specialize (Hflags (header_of ptr)).
      unfold s1 in Hflags. rewrite lookup_update_eq in Hflags.
      destruct (blocks s' !! header_of ptr) as [h'|]; [|done].
      cbn [fmap option_fmap option_map] in Hflags.
      exists h'. split; [done|].
      assert (Hx : flags_of h' = flags_of (released h)) by congruence.
      exact Hx.
    + exists l'. split_and!; try done.
      intros b h0 Hb Hne E0 Hf0.
      assert (E1 : blocks s1 !! b = Some h0).
      { unfold s1. by rewrite lookup_update_ne. }
      split; [by apply (Hkeep b h0)|by apply Hsame].
  - unfold free in E. rewrite (eqb_neq_false _ _ Hp) in E.
    by rewrite (bind_load_None _ _ _ Eh) in E.
Qed.

(** On an ordered heap a [free] that returns leaves the memory and the
    break alone, removes no block from the list that is in use, and
    changes no header of a block in use other than the one released;
    the released header is flagged free, unmarked and tagged
    [MAGIC_FREED]. *)
Theorem free_keeps_in_use fuel ptr s l s' :
  heap_ok s → block_list s l →
  free fuel ptr s = Ret tt s' →
  mem s' = mem s ∧ brk s' = brk s ∧
  (ptr ≠ 0 → ∃ h', blocks s' !! header_of ptr = Some h' ∧
                   flags_of h' = (1, 0, MAGIC_FREED)) ∧
  ∃ l', block_list s' l' ∧ (∀ x, x ∈ l' → x ∈ l) ∧
        ∀ b h, b ∈ l → b ≠ header_of ptr →
               blocks s !! b = Some h → bm_free h = 0 →
               b ∈ l' ∧ blocks s' !! b = Some h.
Proof. apply free_frame. Qed.

(** On an ordered heap, a [malloc] of at most [2 ^ 62] bytes that
    returns leaves the heap ordered; a non-null result is the payload of
    a block of the list that is now in use, marked, at least as large as
    the request, and that was not in use before: it is new or it was
    free.  No block leaves the list. *)
Theorem malloc_hands_out fuel size s l p s' :
  heap_ok s → brk_max s < modulus → block_list s l →
  0 < size <= 2 ^ 62 →
  malloc fuel size s = Ret p s' →
  heap_ok s' ∧ (p ≠ 0 → handed_out l s s' size p).
Proof.
  intros Hok Hmax Hl Hs E.
  by destruct (malloc_sound_all _ _ _ _ _ _ Hok Hmax Hl Hs E)
    as (? & _ & _ & _ & ?).
Qed.

(** On an ordered heap, a [malloc] that returns writes no memory and
    leaves every block that is in use with the size, the flags and the
    tag it had. *)
Theorem malloc_keeps_in_use fuel size s l p s' :
  heap_ok s → brk_max s < modulus → block_list s l →
  0 < size <= 2 ^ 62 →
  malloc fuel size s = Ret p s' →
  mem s' = mem s ∧ in_use_kept l s s'.
Proof.
  intros Hok Hmax Hl Hs E.
  by destruct (malloc_sound_all _ _ _ _ _ _ Hok Hmax Hl Hs E)
    as (_ & _ & ? & ? & _).
Qed.

Lemma malloc_null fuel size s : size <= 0 → malloc fuel size s = Ret 0 s.
Proof. intros H. unfold malloc. by rewrite (proj2 (Z.leb_le _ _) H). Qed.

Lemma malloc_inv fuel size s p s' :
  heap_ok s → brk_max s < modulus → size <= 2 ^ 62 →
  malloc fuel size s = Ret p s' →
  heap_ok s' ∧ brk_max s' = brk_max s.
Proof.
  intros Hok Hmax Hs E. destruct (decide (size <= 0)) as [Hz|Hz].
  { rewrite (malloc_null _ _ _ Hz) in E. by injection E as <- <-. }
  destruct (heap_ok_has_list _ Hok) as [l Hl].
  assert (Hr : 0 < size <= 2 ^ 62) by (split; [lia|done]).
  by destruct (malloc_sound_all _ _ _ _ _ _ Hok Hmax Hl Hr E)
    as (? & ? & _).
Qed.

Lemma heap_ok_with_mem f s : heap_ok s → heap_ok (with_mem f s).
Proof. intros H. exact H. Qed.

Lemma realloc_inv fuel ptr size s p s' :
  heap_ok s → brk_max s < modulus → size <= 2 ^ 62 →
  realloc fuel ptr size s = Ret p s' →
  heap_ok s' ∧ brk_max s' = brk_max s.
Proof.
  intros Hok Hmax Hs E. unfold realloc in E.
  destruct (ptr =? 0); [by eapply malloc_inv|].
  destruct (size =? 0).
  { apply bind_Ret_inv in E as ([] & s1 & E1 & E). injection E as <- <-.
    by destruct (free_sound _ _ _ _ Hok E1) as (? & ? & _). }
  apply bind_Ret_inv in E as (h & s1 & E1 & E).
  apply load_Ret_inv in E1 as [Eh ->].
  destruct (size <=? bm_size h); [by injection E as <- <-|].
  apply bind_Ret_inv in E as (new_ptr & s1 & E1 & E).
  destruct (malloc_inv _ _ _ _ _ Hok Hmax Hs E1) as [Hok1 Hmax1].
  apply bind_Ret_inv in E as ([] & s2 & E2 & E). injection E as <- <-.
  destruct (new_ptr =? 0); [by injection E2 as <-|].
  apply bind_Ret_inv in E2 as (h' & s3 & E3 & E2).
  apply load_Ret_inv in E3 as [_ ->].
  rewrite bind_unfold in E2. simpl in E2.
  destruct (free_sound _ _ _ _ (heap_ok_with_mem _ _ Hok1) E2) as (? & ? & _).
  split; [done|]. simpl in *. congruence.
Qed.

Lemma run_op_inv fuel o s p s' :
  heap_ok s → brk_max s < modulus → small_request o →
  run_op fuel o s = Ret p s' →
  heap_ok s' ∧ brk_max s' = brk_max s.
Proof.
  intros Hok Hmax Hsmall E.
  destruct o as [size|ptr|ptr size|etext end_ stack_top]; simpl in *.
  - by eapply malloc_inv.
  - apply bind_Ret_inv in E as ([] & s1 & E1 & E). injection E as <- <-.
    by destruct (free_sound _ _ _ _ Hok E1) as (? & ? & _).
  - by eapply realloc_inv.
  - apply bind_Ret_inv in E as ([] & s1 & E1 & E). injection E as <- <-.
    split.
    + eapply (gc_stable _ heap_ok_flag_stable); eauto.
    + by destruct (gc_keeps _ _ _ _ _ _ E1) as (_&_&_&_&?&_).
Qed.

Lemma run_ops_inv fuel os s ps s' :
  heap_ok s → brk_max s < modulus → Forall small_request os →
  run_ops fuel os s = Ret ps s' →
  heap_ok s'.
Proof.
  revert s ps. induction os as [|o os IH]; intros s ps Hok Hmax Hall E.
  { by injection E as <- <-. }
  apply Forall_cons in Hall as [Ho Hall]. simpl in E.
  apply bind_Ret_inv in E as (p & s1 & E1 & E).
  destruct (run_op_inv _ _ _ _ _ Hok Hmax Ho E1) as [Hok1 Hmax1].
  apply bind_Ret_inv in E as (ps' & s2 & E2 & E). injection E as <- <-.
  eapply IH; [exact Hok1|lia|exact Hall|exact E2].
Qed.

(** Start with no block and the break anywhere in the address space.
    After any sequence of [malloc], [free], [realloc] and [gc] calls with
    requests of at most [2 ^ 62] bytes that returns, the block list ends
    at NULL, every block of it lies below the break, and no two blocks of
    it overlap, headers included. *)
Theorem heap_stays_ordered fuel os s0 ps s :
  blocks s0 = ∅ → global_base s0 = 0 →
  0 < brk s0 < modulus → brk_max s0 < modulus →
  Forall small_request os →
  run_ops fuel os s0 = Ret ps s →
  ∃ l, block_list s l ∧
       (∀ b h, b ∈ l → blocks s !! b = Some h →
               0 < b ∧ 0 <= bm_size h ∧
               b + META_SIZE + bm_size h <= brk s) ∧
       (∀ b1 b2 h1 h2, b1 ∈ l → b2 ∈ l → b1 ≠ b2 →
               blocks s !! b1 = Some h1 → blocks s !! b2 = Some h2 →
               b1 + META_SIZE + bm_size h1 <= b2 ∨
               b2 + META_SIZE + bm_size h2 <= b1).
Proof.
  intros Hempty Hbase Hbrk Hmax Hall E.
  assert (Hok0 : heap_ok s0).
  { split; [lia|]. exists []. rewrite Hbase. constructor. lia. }
  destruct (run_ops_inv _ _ _ _ _ Hok0 Hmax Hall E) as [_ [l Ha]].
  exists l. split_and!.
  - by apply arena_chain in Ha.
  - intros b h Hb Eb. by apply (arena_ub _ _ _ _ _ _ _ Ha).
  - intros b1 b2 h1 h2 H1 H2 Hne E1 E2.
    by apply (arena_disjoint _ _ _ _ _ _ _ _ _ Ha).
Qed.

(** ** [realloc] that has to grow *)

Lemma realloc_grow_unfold fuel ptr size s h :
  ptr ≠ 0 → blocks s !! header_of ptr = Some h → bm_size h < size →
  0 <= bm_size h →
  realloc fuel ptr size s =
    (new_ptr ← malloc fuel size;
     (if new_ptr =? 0 then ret tt
      else h' ← load (header_of ptr);
           memcpy new_ptr ptr (bm_size h');;
           free fuel ptr);;
     ret new_ptr) s.
Proof.
  intros Hp E Hlt Hnn. unfold realloc.
  rewrite (eqb_neq_false _ _ Hp), (eqb_neq_false size 0) by lia.
  rewrite (bind_load_Some _ _ _ _ E).
  by rewrite (proj2 (Z.leb_gt _ _) Hlt).
Qed.

(** On an ordered heap, [realloc] of a block in use to a larger size of
    at most [2 ^ 62] bytes, when it returns a non-null pointer: the
    first old-size bytes of the new payload are the bytes of the old
    payload, no other byte of memory has changed, the old header is
    flagged free and tagged [MAGIC_FREED], the heap is ordered with no
    two free neighbours, and the result is the payload of a block of
    the list in use that holds the new size. *)
Theorem realloc_grow_copies fuel ptr size s l h p s' :
  heap_ok s → brk_max s < modulus → block_list s l →
  ptr ≠ 0 → header_of ptr ∈ l →
  blocks s !! header_of ptr = Some h → bm_free h = 0 →
  bm_size h < size <= 2 ^ 62 →
  realloc fuel ptr size s = Ret p s' → p ≠ 0 →
  (∀ i, 0 <= i < bm_size h → mem s' (p + i) = mem s (ptr + i)) ∧
  (∀ a, ¬ (p <= a < p + bm_size h) → mem s' a = mem s a) ∧
  (∃ h', blocks s' !! header_of ptr = Some h' ∧
         flags_of h' = (1, 0, MAGIC_FREED)) ∧
  heap_ok s' ∧ coalesced s' ∧
  ∃ l' b hb, block_list s' l' ∧ p = b + META_SIZE ∧ b ∈ l' ∧
             blocks s' !! b = Some hb ∧ bm_free hb = 0 ∧
             size <= bm_size hb.
Proof.
  intros Hok Hmax Hl Hp Hin Eh Hf [Hlt Hs] E Hpnz.
  pose proof (heap_ok_block_list _ _ Hok Hl) as Ha.
  destruct (arena_ub _ _ _ _ _ _ _ Ha Hin Eh) as (_ & Hnn & _).
  rewrite (realloc_grow_unfold _ _ _ _ _ Hp Eh Hlt Hnn) in E.
  apply bind_Ret_inv in E as (new_ptr & s1 & Em & E).
  apply bind_Ret_inv in E as ([] & s2 & E2 & E). injection E as <- <-.
  rewrite (eqb_neq_false _ _ Hpnz) in E2.
  assert (Hr : 0 < size <= 2 ^ 62) by (split; [lia|done]).
  destruct (malloc_sound_all _ _ _ _ _ _ Hok Hmax Hl Hr Em)
    as (Hok1 & _ & Hmem1 & Hkept & Hout).
  destruct (Hkept _ _ Hin Eh Hf) as (h1 & Eh1 & Hsz1 & Hf1 & _).
  destruct (Hout Hpnz)
    as (l1 & b & hb & Hl1 & Hsub & -> & Hb1 & Ehb & Hfb & _ & Hszb & Hnew).
  rewrite (bind_load_Some _ _ _ _ Eh1) in E2.
  rewrite bind_unfold in E2. simpl in E2. rewrite Hsz1 in E2.
  set (s1' := with_mem _ s1) in E2.
  assert (Hne : b ≠ header_of ptr).
  { intros ->. destruct Hnew as [?|(h0 & E0 & Hf0)]; [done|]. congruence. }
  destruct (free_sound _ _ _ _ (heap_ok_with_mem _ _ Hok1) E2)
    as (Hok2 & _ & Hmem2 & Hco).
  destruct (free_frame _ _ s1' l1 _ (heap_ok_with_mem _ _ Hok1) Hl1 E2)
    as (_ & _ & Hrel & l2 & Hl2 & _ & Hkeep2).
  destruct (Hkeep2 b hb Hb1 Hne Ehb Hfb) as [Hb2 Ehb2].
  split_and!; try done.
  - intros i Hi. rewrite Hmem2. unfold s1'. simpl.
    replace ((b + META_SIZE <=? b + META_SIZE + i) &&
             (b + META_SIZE + i <? b + META_SIZE + bm_size h)) with true.
    + rewrite Hmem1. f_equal. lia.
    + symmetry. apply andb_true_iff. split; [apply Z.leb_le|apply Z.ltb_lt];
        lia.
  - intros a Ha'. rewrite Hmem2. unfold s1'. simpl.
    replace ((b + META_SIZE <=? a) && (a <? b + META_SIZE + bm_size h))
      with false; [by rewrite Hmem1|].
    symmetry. apply andb_false_iff.
    destruct (decide (b + META_SIZE <= a)).
    + right. apply Z.ltb_ge. lia.
    + left. apply Z.leb_gt. lia.
  - by apply Hrel.
  - by apply Hco.
  - exists l2, b, hb. by split_and!.
Qed.

(** ** The demo heaps are ordered *)

Ltac arena_step :=
  eapply arena_cons; [| |vm_compute; reflexivity| |];
  [unfold META_SIZE; lia|lia|cbn [bm_size]; lia|cbn [bm_size bm_next]].

Lemma demo_three_arena v :
  arena (blocks (Demo.three v)) 4240 1 4096 [4096; 4144; 4192].
Proof. do 3 arena_step. apply arena_nil. unfold META_SIZE. lia. Qed.

Lemma demo_three_ok v : heap_ok (Demo.three v).
Proof.
  split; [done|]. exists [4096; 4144; 4192]. apply demo_three_arena.
Qed.

Lemma demo_three_list v : block_list (Demo.three v) [4096; 4144; 4192].
Proof. apply (arena_chain _ _ _ _ _ (demo_three_arena v)). Qed.

Lemma cases_three_arena :
  arena (blocks Cases.three) 4240 1 4096 [4096; 4144; 4192].
Proof. do 3 arena_step. apply arena_nil. unfold META_SIZE. lia. Qed.

Lemma cases_three_ok : heap_ok Cases.three.
Proof.
  split; [done|]. exists [4096; 4144; 4192]. apply cases_three_arena.
Qed.

Lemma cases_three_list : block_list Cases.three [4096; 4144; 4192].
Proof. apply (arena_chain _ _ _ _ _ cases_three_arena). Qed.

Lemma cases_holed_arena :
  arena (blocks Cases.holed) 4240 1 4096 [4096; 4144; 4192].
Proof. do 3 arena_step. apply arena_nil. unfold META_SIZE. lia. Qed.

Lemma cases_holed_ok : heap_ok Cases.holed.
Proof.
  split; [done|]. exists [4096; 4144; 4192]. apply cases_holed_arena.
Qed.

Lemma cases_holed_list : block_list Cases.holed [4096; 4144; 4192].
Proof. apply (arena_chain _ _ _ _ _ cases_holed_arena). Qed.

Lemma realloc_grow_copies_witness :
  let s := Cases.three in
  let s' := Demo.run (realloc 8 4176 100) Cases.three in
  let h := mk_meta 16 4192 0 1 MAGIC_FRESH in
  (∀ i, 0 <= i < bm_size h → mem s' (4272 + i) = mem s (4176 + i)) ∧
  (∀ a, ¬ (4272 <= a < 4272 + bm_size h) → mem s' a = mem s a) ∧
  (∃ h', blocks s' !! header_of 4176 = Some h' ∧
         flags_of h' = (1, 0, MAGIC_FREED)) ∧
  heap_ok s' ∧ coalesced s' ∧
  ∃ l' b hb, block_list s' l' ∧ 4272 = b + META_SIZE ∧ b ∈ l' ∧
             blocks s' !! b = Some hb ∧ bm_free hb = 0 ∧
             100 <= bm_size hb.
Proof.
  apply (realloc_grow_copies 8 4176 100 Cases.three [4096; 4144; 4192]
           (mk_meta 16 4192 0 1 MAGIC_FRESH) 4272).
  - apply cases_three_ok.
  - done.
  - apply cases_three_list.
  - done.
  - vm_compute. set_solver.
  - vm_compute. reflexivity.
  - reflexivity.
  - done.
  - vm_compute. reflexivity.
  - done.
Defined.

Lemma find_free_block_first_fit_witness :
  ∃ b last',
    find_free_block 8 0 16 Cases.holed = Ret (b, last') Cases.holed ∧
    ((b = 0 ∧ (∀ x, x ∈ [4096; 4144; 4192] →
                    ¬ fits (blocks Cases.holed) 16 x) ∧
      last' = last_seen 0 [4096; 4144; 4192]) ∨
     (∃ l1 l2, [4096; 4144; 4192] = l1 ++ b :: l2 ∧
               fits (blocks Cases.holed) 16 b ∧
               (∀ x, x ∈ l1 → ¬ fits (blocks Cases.holed) 16 x) ∧
               last' = last_seen 0 l1)).
Proof.
  apply (find_free_block_first_fit 8 0 16 Cases.holed [4096; 4144; 4192]).
  - apply cases_holed_list.
  - simpl. lia.
Defined.

(** The search on the heap with the hole finds the hole. *)
Example first_fit_finds_hole :
  find_free_block 8 0 16 Cases.holed = Ret (4144, 4096) Cases.holed.
Proof. vm_compute. reflexivity. Qed.

Lemma exhaustion_aborts_witness :
  malloc 8 16 Cases.full = Abort ∧
  ∀ ptr h, ptr ≠ 0 → blocks Cases.full !! header_of ptr = Some h →
           bm_size h < 16 → realloc 8 ptr 16 Cases.full = Abort.
Proof.
  apply (exhaustion_aborts 8 16 Cases.full []).
  - done.
  - apply chain_nil.
  - simpl. lia.
  - intros x Hx. by apply elem_of_nil in Hx.
  - vm_compute. intros [_ H]. by apply H.
  - done.
Defined.


Lemma free_keeps_in_use_witness :
  let s := Cases.three in
  let s' := Cases.holed in
  mem s' = mem s ∧ brk s' = brk s ∧
  (4176 ≠ 0 → ∃ h', blocks s' !! header_of 4176 = Some h' ∧
                    flags_of h' = (1, 0, MAGIC_FREED)) ∧
  ∃ l', block_list s' l' ∧ (∀ x, x ∈ l' → x ∈ [4096; 4144; 4192]) ∧
        ∀ b h, b ∈ [4096; 4144; 4192] → b ≠ header_of 4176 →
               blocks s !! b = Some h → bm_free h = 0 →
               b ∈ l' ∧ blocks s' !! b = Some h.
Proof.
  apply (free_keeps_in_use 8 4176 Cases.three [4096; 4144; 4192]).
  - apply cases_three_ok.
  - apply cases_three_list.
  - vm_compute. reflexivity.
Defined.

Lemma malloc_hands_out_witness :
  let s' := Demo.run (malloc 8 8) Cases.holed in
  heap_ok s' ∧
  (4176 ≠ 0 → handed_out [4096; 4144; 4192] Cases.holed s' 8 4176).
Proof.
  apply (malloc_hands_out 8 8 Cases.holed [4096; 4144; 4192]).
  - apply cases_holed_ok.
  - done.
  - apply cases_holed_list.
  - done.
  - vm_compute. reflexivity.
Defined.

Lemma malloc_keeps_in_use_witness :
  let s' := Demo.run (malloc 8 40) Cases.holed in
  mem s' = mem Cases.holed ∧
  in_use_kept [4096; 4144; 4192] Cases.holed s'.
Proof.
  apply (malloc_keeps_in_use 8 40 Cases.holed [4096; 4144; 4192] 4272).
  - apply cases_holed_ok.
  - done.
  - apply cases_holed_list.
  - done.
  - vm_compute. reflexivity.
Defined.

Lemma heap_stays_ordered_witness :
  let s := state_of Script.outcome Script.start in
  ∃ l, block_list s l ∧
       (∀ b h, b ∈ l → blocks s !! b = Some h →
               0 < b ∧ 0 <= bm_size h ∧
               b + META_SIZE + bm_size h <= brk s) ∧
       (∀ b1 b2 h1 h2, b1 ∈ l → b2 ∈ l → b1 ≠ b2 →
               blocks s !! b1 = Some h1 → blocks s !! b2 = Some h2 →
               b1 + META_SIZE + bm_size h1 <= b2 ∨
               b2 + META_SIZE + bm_size h2 <= b1).
Proof.
  apply (heap_stays_ordered 8 Script.calls Script.start
           [4128; 4168; 4224; 0; 4360; 0; 4128]).
  - reflexivity.
  - reflexivity.
  - done.
  - done.
  - unfold Script.calls. repeat constructor; simpl; done.
  - vm_compute. reflexivity.
Defined.

(** ** The counters *)

Lemma count_allocated_loop_spec fuel curr count s l :
  chain (blocks s) curr l → (length l < fuel)%nat →
  count_allocated_loop fuel curr count s =
    Ret (count + tally (in_use_at (blocks s)) l) s.
Proof.
  revert curr count l.
  induction fuel as [|fuel IH]; intros curr count l Hc Hlen; [lia|].
  simpl. destruct Hc as [|b h l Hb E Hc]; simpl.
  { by rewrite Z.add_0_r. }
  rewrite (eqb_neq_false _ _ Hb), (bind_load_Some _ _ _ _ E).
  rewrite (IH _ _ l Hc) by (simpl in Hlen; lia).
  unfold in_use_at at 2. rewrite E.
  destruct (bm_free h =? 0); f_equal; lia.
Qed.

Lemma count_free_loop_spec fuel curr count s l :
  chain (blocks s) curr l → (length l < fuel)%nat →
  count_free_loop fuel curr count s =
    Ret (count + tally (λ b, negb (in_use_at (blocks s) b)) l) s.
Proof.
  revert curr count l.
  induction fuel as [|fuel IH]; intros curr count l Hc Hlen; [lia|].
  simpl. destruct Hc as [|b h l Hb E Hc]; simpl.
  { by rewrite Z.add_0_r. }
  rewrite (eqb_neq_false _ _ Hb), (bind_load_Some _ _ _ _ E).
  rewrite (IH _ _ l Hc) by (simpl in Hlen; lia).
  unfold in_use_at at 2. rewrite E.
  destruct (bm_free h =? 0); simpl; f_equal; lia.
Qed.

Lemma tally_partition p l :
  tally p l + tally (λ b, negb (p b)) l = Z.of_nat (length l).
Proof.
  induction l as [|b l IH]; [done|]. simpl length. rewrite Nat2Z.inj_succ.
  simpl. destruct (p b); simpl; lia.
Qed.

Lemma tally_range p l : 0 <= tally p l <= Z.of_nat (length l).
Proof.
  induction l as [|b l IH]; [done|]. simpl length. rewrite Nat2Z.inj_succ.
  simpl. destruct (p b); lia.
Qed.

(** On a list of fewer than [2 ^ 31] blocks that ends at NULL, the two
    counters change nothing and return the number of blocks of the list
    in use and the number of free ones, which add up to the length of the
    list.  [print_gc_stats] hands [printf] the line with the two counts
    of the heap as it is on entry; everything else it does to the heap
    is what that [printf] does, whatever it is. *)
Theorem print_gc_stats_counts printf fuel s l :
  block_list s l → (length l < fuel)%nat → Z.of_nat (length l) < 2 ^ 31 →
  ∃ allocated free_,
    count_allocated_blocks fuel s = Ret allocated s ∧
    count_free_blocks fuel s = Ret free_ s ∧
    print_gc_stats printf fuel s = printf (StatsLine allocated free_) s ∧
    allocated = tally (in_use_at (blocks s)) l ∧
    free_ = tally (λ b, negb (in_use_at (blocks s) b)) l ∧
    allocated + free_ = Z.of_nat (length l) ∧
    0 <= allocated < 2 ^ 31 ∧ 0 <= free_ < 2 ^ 31.
Proof.
  intros Hl Hlen Hint.
  assert (Ea : count_allocated_blocks fuel s =
               Ret (tally (in_use_at (blocks s)) l) s).
  { unfold count_allocated_blocks. rewrite bind_get_global_base.
    by rewrite (count_allocated_loop_spec _ _ _ _ l). }
  assert (Ef : count_free_blocks fuel s =
               Ret (tally (λ b, negb (in_use_at (blocks s) b)) l) s).
  { unfold count_free_blocks. rewrite bind_get_global_base.
    by rewrite (count_free_loop_spec _ _ _ _ l). }
  eexists _, _. split_and!; try done.
  - unfold print_gc_stats.
    rewrite (bind_Ret _ _ _ _ _ Ea), (bind_Ret _ _ _ _ _ Ef). done.
  - apply tally_partition.
  - apply tally_range.
  - pose proof (tally_range (in_use_at (blocks s)) l). lia.
  - apply tally_range.
  - pose proof (tally_range (λ b, negb (in_use_at (blocks s) b)) l). lia.
Qed.

Lemma print_gc_stats_counts_witness :
  ∃ allocated free_,
    count_allocated_blocks 8 Cases.holed = Ret allocated Cases.holed ∧
    count_free_blocks 8 Cases.holed = Ret free_ Cases.holed ∧
    print_gc_stats (buffering 8 4096) 8 Cases.holed =
      buffering 8 4096 (StatsLine allocated free_) Cases.holed ∧
    allocated = tally (in_use_at (blocks Cases.holed)) [4096; 4144; 4192] ∧
    free_ = tally (λ b, negb (in_use_at (blocks Cases.holed) b))
                  [4096; 4144; 4192] ∧
    allocated + free_ = Z.of_nat (length [4096; 4144; 4192]) ∧
    0 <= allocated < 2 ^ 31 ∧ 0 <= free_ < 2 ^ 31.
Proof.
  apply (print_gc_stats_counts (buffering 8 4096) 8 Cases.holed
           [4096; 4144; 4192]).
  - apply cases_holed_list.
  - simpl. lia.
  - done.
Defined.

(** The counts of the heap with the hole: two in use, one free. *)
Example counters_holed :
  count_allocated_blocks 8 Cases.holed = Ret 2 Cases.holed ∧
  count_free_blocks 8 Cases.holed = Ret 1 Cases.holed.
Proof. split; vm_compute; reflexivity. Qed.

(** ** The heap dump *)

Lemma row_count_app out out' :
  row_count (out ++ out') = (row_count out + row_count out')%nat.
Proof. unfold row_count. by rewrite List.filter_app, length_app. Qed.

Lemma chain_segment hs p l n :
  chain hs p l →
  ∃ q, segment hs p (take n l) q ∧ ((length l <= n)%nat → q = 0).
Proof.
  intros Hc. revert n. induction Hc as [|b h l Hb E Hc IH]; intros n.
  - exists 0. rewrite take_nil. split; [constructor|done].
  - destruct n as [|n]; simpl.
    + exists b. split; [constructor|lia].
    + destruct (IH n) as (q & Hs & Hq). exists q.
      split; [by econstructor|]. intros ?. apply Hq. lia.
Qed.

Lemma bind_quiet {B} printf d (k : unit → M B) s :
  quiet_on printf s → (printf d ≫= k) s = k tt s.
Proof. intros Hq. by rewrite bind_unfold, (Hq d). Qed.

(** Along a stretch of at most [20 - count] sound blocks, with a
    [printf] that leaves the heap alone, the loop of the dump prints one
    row per block and arrives at the end of the stretch. *)
Lemma debug_heap_loop_rows printf fuel curr count out s l q :
  quiet_on printf s →
  segment (blocks s) curr l q → Forall (sound_tag (blocks s)) l →
  count + Z.of_nat (length l) <= 20 → (length l <= fuel)%nat →
  debug_heap_loop printf fuel curr count out s =
    debug_heap_loop printf (fuel - length l) q (count + Z.of_nat (length l))
      (out ++ map (dump_row (blocks s)) l) s.
Proof.
  intros Hq Hs. revert fuel count out.
  induction Hs as [p|b h l q Hb E Hs IH]; intros fuel count out Hk Hc Hf.
  - simpl. by rewrite Nat.sub_0_r, Z.add_0_r, app_nil_r.
  - destruct fuel as [|fuel]; [simpl in Hf; lia|].
    apply Forall_cons in Hk as [Hkb Hk]. simpl length in *.
    cbn [debug_heap_loop].
    rewrite (eqb_neq_false _ _ Hb).
    assert (count <? 20 = true) as -> by (apply Z.ltb_lt; lia).
    cbn [negb andb]. rewrite (bind_load_Some _ _ _ _ E), (Hkb _ E).
    cbn [negb]. cbn zeta.
    rewrite (bind_quiet _ _ _ _ Hq), (bind_load_Some _ _ _ _ E).
    rewrite IH by (done || lia).
    cbn [map]. unfold dump_row at 2. rewrite E.
    rewrite <- app_assoc. cbn [app Nat.sub].
    f_equal. lia.
Qed.

(** The loop of the dump makes at most [20 - count] steps, whatever
    the links are and whatever [printf] does. *)
Lemma debug_heap_loop_bounded printf fuel curr count out s :
  (∀ d s1, printf d s1 ≠ OutOfFuel) →
  0 <= count → (Z.to_nat (20 - count) < fuel)%nat →
  debug_heap_loop printf fuel curr count out s ≠ OutOfFuel ∧
  ∀ c' out' s',
    debug_heap_loop printf fuel curr count out s = Ret (c', out') s' →
    count <= c' ∧
    Z.of_nat (row_count out') <=
      Z.of_nat (row_count out) + Z.max 0 (20 - count).
Proof.
  intros Hp. revert curr count out s.
  induction fuel as [|fuel IH]; intros curr count out s Hc Hf; [lia|].
  cbn [debug_heap_loop].
  destruct (negb (curr =? 0) && (count <? 20)) eqn:Ec.
  - apply andb_true_iff in Ec as [_ Hlt]. apply Z.ltb_lt in Hlt.
    destruct (blocks s !! curr) as [h|] eqn:Eb;
      [rewrite (bind_load_Some _ _ _ _ Eb)
      |rewrite (bind_load_None _ _ _ Eb); split; [done|intros ? ? ? [=]]].
    destruct (negb (known_magic (bm_magic h))); cbn zeta;
      rewrite bind_unfold.
    + pose proof (Hp (DumpCorrupted curr (bm_magic h)) s) as Hp1.
      destruct (printf (DumpCorrupted curr (bm_magic h)) s)
        as [[] s1| | |]; try done.
      split; [done|]. intros c' out' s' [= <- <- <-].
      split; [lia|].
      rewrite row_count_app. unfold row_count at 2. simpl. lia.
    + pose proof (Hp (DumpRow curr (bm_size h) (bm_free h) (bm_marked h)
                        (bm_magic h)) s) as Hp2.
      destruct (printf (DumpRow curr (bm_size h) (bm_free h) (bm_marked h)
                          (bm_magic h)) s) as [[] s1| | |]; try done.
      destruct (blocks s1 !! curr) as [h'|] eqn:Eb1;
        [rewrite (bind_load_Some _ _ _ _ Eb1)
        |rewrite (bind_load_None _ _ _ Eb1); split; [done|intros ? ? ? [=]]].
      destruct (IH (bm_next h') (count + 1)
                  (out ++ [DumpRow curr (bm_size h) (bm_free h)
                             (bm_marked h) (bm_magic h)]) s1
                  ltac:(lia) ltac:(lia)) as (H1 & H3).
      split; [done|]. intros c' out' s' E.
      destruct (H3 _ _ _ E) as (Hle & Hrows).
      split; [lia|].
      rewrite row_count_app in Hrows. unfold row_count at 3 in Hrows.
      simpl in Hrows. lia.
  - split; [done|]. intros c' out' s' [= <- <- <-]. split; lia.
Qed.

(** The loop of [debug_heap] is bounded by its counter, not by the list:
    with fuel for 21 steps [debug_heap] runs out of fuel only if a
    [printf] does, whatever the links are (a list that does not end
    included) and whatever the [printf]s do to the heap; and when it
    returns it has printed at most 20 block lines. *)
Theorem debug_heap_bounded printf fuel s :
  (20 < fuel)%nat → (∀ d s1, printf d s1 ≠ OutOfFuel) →
  debug_heap printf fuel s ≠ OutOfFuel ∧
  ∀ out s', debug_heap printf fuel s = Ret out s' →
            (row_count out <= 20)%nat.
Proof.
  intros Hf Hp. unfold debug_heap. rewrite bind_get_global_base.
  rewrite bind_unfold. pose proof (Hp DumpTitle s) as Hp1.
  destruct (printf DumpTitle s) as [[] s1| | |]; try done.
  rewrite bind_unfold. pose proof (Hp DumpColumns s1) as Hp2.
  destruct (printf DumpColumns s1) as [[] s2| | |]; try done.
  destruct (debug_heap_loop_bounded printf fuel (global_base s) 0
              [DumpTitle; DumpColumns] s2 Hp ltac:(lia) ltac:(simpl; lia))
    as (H1 & H3).
  rewrite bind_unfold.
  destruct (debug_heap_loop printf fuel (global_base s) 0
              [DumpTitle; DumpColumns] s2)
    as [[c' out'] s3| | |] eqn:E; try done.
  destruct (H3 _ _ _ eq_refl) as (Hc & Hrows).
  unfold row_count in Hrows at 2. simpl in Hrows.
  assert (Hr1 : row_count [DumpRule] = 0%nat) by done.
  assert (Hr2 : row_count [DumpStopped] = 0%nat) by done.
  rewrite bind_unfold.
  destruct (20 <=? c') eqn:E20.
  - pose proof (Hp DumpStopped s3) as Hp3.
    destruct (printf DumpStopped s3) as [[] s4| | |]; try done.
    rewrite bind_unfold. pose proof (Hp DumpRule s4) as Hp4.
    destruct (printf DumpRule s4) as [[] s5| | |]; try done.
    split; [done|]. intros out s' [= <- <-]. rewrite !row_count_app. lia.
  - rewrite ret_unfold, bind_unfold. pose proof (Hp DumpRule s3) as Hp4.
    destruct (printf DumpRule s3) as [[] s5| | |]; try done.
    split; [done|]. intros out s' [= <- <-]. rewrite row_count_app. lia.
Qed.

Lemma debug_heap_bounded_witness :
  debug_heap silent 21 overrun ≠ OutOfFuel ∧
  ∀ out s', debug_heap silent 21 overrun = Ret out s' →
            (row_count out <= 20)%nat.
Proof.
  apply (debug_heap_bounded silent 21 overrun); [lia|].
  intros d s1. unfold silent. done.
Defined.

Lemma debug_heap_tail printf s count out :
  quiet_on printf s →
  ((if 20 <=? count then printf DumpStopped else ret tt);;
   printf DumpRule;;
   ret ((if 20 <=? count then out ++ [DumpStopped] else out) ++ [DumpRule]))
    s =
  Ret ((if 20 <=? count then out ++ [DumpStopped] else out) ++ [DumpRule]) s.
Proof.
  intros Hq. destruct (20 <=? count).
  - by rewrite !(bind_quiet _ _ _ _ Hq).
  - by rewrite bind_unfold, ret_unfold, (bind_quiet _ _ _ _ Hq).
Qed.

(** [debug_heap] with a [printf] that leaves the heap alone (so not the
    first output of the process), on a list whose first 20 blocks carry
    tags the program writes: it changes nothing and prints the two
    heading lines, one row for each of the first 20 blocks in list order,
    the line "stopped after 20 blocks" exactly when the list has 20
    blocks or more (so also when it has exactly 20 and all of them were
    printed), and the closing rule. *)
Theorem debug_heap_dump printf fuel s l :
  quiet_on printf s →
  block_list s l → Forall (sound_tag (blocks s)) (take 20 l) →
  (length (take 20 l) < fuel)%nat →
  debug_heap printf fuel s =
    Ret ([DumpTitle; DumpColumns] ++ map (dump_row (blocks s)) (take 20 l) ++
         (if (20 <=? length l)%nat then [DumpStopped] else []) ++ [DumpRule])
        s.
Proof.
  intros Hquiet Hl Hk Hf.
  destruct (chain_segment _ _ _ 20 Hl) as (q & Hs & Hq).
  assert (length (take 20 l) <= 20)%nat as Hle20 by (rewrite length_take; lia).
  unfold debug_heap. rewrite bind_get_global_base.
  rewrite !(bind_quiet _ _ _ _ Hquiet), bind_unfold.
  rewrite (debug_heap_loop_rows _ _ _ _ _ _ _ q Hquiet Hs Hk) by lia.
  destruct (fuel - length (take 20 l))%nat as [|fuel'] eqn:Ef; [lia|].
  rewrite Z.add_0_l. cbn [debug_heap_loop].
  destruct (decide (20 <= length l)%nat) as [Hlong|Hshort].
  - rewrite length_take, Nat.min_l in * by done.
    assert ((20 <=? length l)%nat = true) as -> by by apply Nat.leb_le.
    change (Z.of_nat 20 <? 20) with false. rewrite andb_false_r.
    rewrite ret_unfold, (debug_heap_tail _ _ _ _ Hquiet).
    change (20 <=? Z.of_nat 20) with true. by rewrite <- !app_assoc.
  - rewrite Hq by lia. change (negb (0 =? 0)) with false. cbn [andb].
    rewrite ret_unfold, (debug_heap_tail _ _ _ _ Hquiet).
    assert ((20 <=? length l)%nat = false) as -> by (apply Nat.leb_gt; lia).
    assert (20 <=? Z.of_nat (length (take 20 l)) = false) as ->.
    { apply Z.leb_gt. rewrite length_take. lia. }
    by rewrite <- !app_assoc.
Qed.

Lemma debug_heap_dump_witness :
  debug_heap silent 8 Cases.holed =
    Ret ([DumpTitle; DumpColumns] ++
         map (dump_row (blocks Cases.holed)) (take 20 [4096; 4144; 4192]) ++
         (if (20 <=? length [4096; 4144; 4192])%nat then [DumpStopped]
          else []) ++ [DumpRule])
        Cases.holed.
Proof.
  apply (debug_heap_dump silent 8 Cases.holed [4096; 4144; 4192]).
  - intros d. reflexivity.
  - apply cases_holed_list.
  - repeat constructor; intros h E; vm_compute in E;
      injection E as <-; reflexivity.
  - simpl. lia.
Defined.

(** The first output of a process: [printf] takes the buffer of [stdout]
    from this heap while the title is printed, and the dump of the three
    blocks of [Cases.holed] shows four. *)
Example debug_heap_first_output :
  match debug_heap (buffering 8 4096) 8 Cases.holed with
  | Ret out s' =>
      row_count out = 4%nat ∧ brk s' = 8368 ∧
      blocks s' !! 4240 = Some (mk_meta 4096 0 0 1 MAGIC_FRESH)
  | _ => False
  end.
Proof. vm_compute. done. Qed.

(** [debug_heap] with a [printf] that leaves the heap alone stops at the
    first header whose tag is none of the four the program writes: after
    the rows of the sound blocks before it, it prints the "CORRUPTED"
    line with the address and the tag found, no "stopped" line, and the
    closing rule; it never follows the [next] field of that header. *)
Theorem debug_heap_corrupted printf fuel s l b h :
  quiet_on printf s →
  segment (blocks s) (global_base s) l b → b ≠ 0 →
  blocks s !! b = Some h → known_magic (bm_magic h) = false →
  Forall (sound_tag (blocks s)) l → (length l < 20)%nat →
  (length l < fuel)%nat →
  debug_heap printf fuel s =
    Ret ([DumpTitle; DumpColumns] ++ map (dump_row (blocks s)) l ++
         [DumpCorrupted b (bm_magic h); DumpRule]) s.
Proof.
  intros Hquiet Hs Hb E Hbad Hk H20 Hf.
  unfold debug_heap. rewrite bind_get_global_base.
  rewrite !(bind_quiet _ _ _ _ Hquiet), bind_unfold.
  rewrite (debug_heap_loop_rows _ _ _ _ _ _ _ b Hquiet Hs Hk) by lia.
  destruct (fuel - length l)%nat as [|fuel'] eqn:Ef; [lia|].
  rewrite Z.add_0_l. cbn [debug_heap_loop].
  rewrite (eqb_neq_false _ _ Hb).
  assert (Z.of_nat (length l) <? 20 = true) as -> by (apply Z.ltb_lt; lia).
  cbn [negb andb]. rewrite (bind_load_Some _ _ _ _ E), Hbad. cbn [negb].
  cbn zeta. rewrite (bind_quiet _ _ _ _ Hquiet).
  rewrite ret_unfold, (debug_heap_tail _ _ _ _ Hquiet).
  assert (20 <=? Z.of_nat (length l) = false) as -> by (apply Z.leb_gt; lia).
  by rewrite <- !app_assoc.
Qed.

Lemma debug_heap_corrupted_witness :
  debug_heap silent 8 overrun =
    Ret ([DumpTitle; DumpColumns] ++ map (dump_row (blocks overrun)) [4096] ++
         [DumpCorrupted 4144 (bm_magic (mk_meta 16 4097 0 1 0)); DumpRule])
        overrun.
Proof.
  apply (debug_heap_corrupted silent 8 overrun [4096] 4144
           (mk_meta 16 4097 0 1 0)).
  - intros d. reflexivity.
  - apply (segment_cons _ 4096 (mk_meta 16 4144 0 1 MAGIC_FRESH));
      [done|vm_compute; reflexivity|apply segment_nil].
  - done.
  - vm_compute. reflexivity.
  - reflexivity.
  - repeat constructor; intros h E; vm_compute in E;
      injection E as <-; reflexivity.
  - simpl. lia.
  - simpl. lia.
Defined.

(** ** The mark phase *)

Lemma keeps_trans s1 s2 s3 : keeps s1 s2 → keeps s2 s3 → keeps s1 s3.
Proof.
  intros (?&?&?&?&?&?&Hl1) (?&?&?&?&?&?&Hl2).
  unfold keeps. split_and!; try congruence.
  all: intros b; by rewrite Hl2, Hl1.
Qed.

Lemma keeps_sym s1 s2 : keeps s1 s2 → keeps s2 s1.
Proof.
  intros (?&?&?&?&?&?&Hl1). unfold keeps. split_and!; try congruence.
  all: intros b; by rewrite Hl1.
Qed.

Lemma keeps_lookup s s' b h :
  keeps s s' → blocks s !! b = Some h →
  ∃ h', blocks s' !! b = Some h' ∧ bm_size h' = bm_size h ∧
        bm_next h' = bm_next h.
Proof.
  intros (_&_&_&_&_&_&Hl) E. specialize (Hl b). rewrite E in Hl.
  destruct (blocks s' !! b) as [h'|]; [|discriminate].
  injection Hl as Hs Hn. eauto.
Qed.

Lemma keeps_in_payload s s' v b :
  keeps s s' → in_payload (blocks s) v b → in_payload (blocks s') v b.
Proof.
  intros Hk (h & E & Hv). destruct (keeps_lookup _ _ _ _ Hk E) as (h' & E' & Hs & _).
  exists h'. split; [done|]. by rewrite Hs.
Qed.

Lemma keeps_arena s s' hi lo p l :
  keeps s s' → arena (blocks s) hi lo p l → arena (blocks s') hi lo p l.
Proof.
  intros Hk Ha. induction Ha as [lo Hle|lo b h l Hlo Hb E Hs Ha IH].
  - by constructor.
  - destruct (keeps_lookup _ _ _ _ Hk E) as (h' & E' & Hs' & Hn').
    apply (arena_cons _ _ _ _ h'); try done; [lia|].
    by rewrite Hs', Hn'.
Qed.

Lemma marks_only_trans s1 s2 s3 :
  marks_only s1 s2 → marks_only s2 s3 → marks_only s1 s3.
Proof. intros H1 H2 b. by rewrite H2, H1. Qed.

Lemma grows_refl s : grows s s.
Proof. split_and!; [apply keeps_refl|apply marks_only_refl|done]. Qed.

Lemma grows_trans s1 s2 s3 : grows s1 s2 → grows s2 s3 → grows s1 s3.
Proof.
  intros (?&?&Hi1) (?&?&Hi2). split_and!.
  - by eapply keeps_trans.
  - by eapply marks_only_trans.
  - intros b Hb. by apply Hi2, Hi1.
Qed.

Lemma grows_mark s b h :
  blocks s !! b = Some h → grows s (update b (set_marked 1 h) s).
Proof.
  intros E. split_and!.
  - apply (keeps_flag_stable s s b h); [apply keeps_refl|done..].
  - apply (marks_only_mark_stable s s b h); [apply marks_only_refl|done].
  - intros c (hc & Ec & Hc). destruct (decide (b = c)) as [<-|Hne].
    + exists (set_marked 1 h). by rewrite lookup_update_eq.
    + exists hc. by rewrite lookup_update_ne.
Qed.

Lemma is_marked_update s b h : is_marked (update b (set_marked 1 h) s) b.
Proof. exists (set_marked 1 h). by rewrite lookup_update_eq. Qed.

Lemma arena_null hs hi lo l : arena hs hi lo 0 l → l = [].
Proof. inversion 1; [done|lia]. Qed.

Section Marking.
Variables (s0 : heap) (l : list Z) (R : Z → Prop).
Hypothesis Har : arena (blocks s0) (brk s0) 1 (global_base s0) l.
Hypothesis Hbrk : brk s0 < modulus.
Hypothesis HRword : ∀ b h j c,
  R b → b ∈ l → blocks s0 !! b = Some h → 0 <= j < bm_size h / 8 → c ∈ l →
  in_payload (blocks s0) (load64 (mem s0) (b + META_SIZE + 8 * j)) c → R c.

Lemma list_block_bounds b h :
  b ∈ l → blocks s0 !! b = Some h →
  global_base s0 <= b ∧ 0 < global_base s0 ∧ 0 <= bm_size h ∧
  b + META_SIZE + bm_size h <= brk s0.
Proof.
  intros Hb E. destruct (arena_ub _ _ _ _ _ _ _ Har Hb E) as (Hpos & Hs & Hhi).
  split_and!; try done.
  - destruct l as [|a l']; [by apply elem_of_nil in Hb|].
    apply arena_cons_inv in Har as (-> & ha & _ & _ & _ & Hsa & Ha).
    apply elem_of_cons in Hb as [->|Hb]; [lia|].
    pose proof (arena_lb _ _ _ _ _ _ Ha Hb). unfold META_SIZE in *. lia.
  - destruct l as [|a l']; [by apply elem_of_nil in Hb|].
    by apply arena_cons_inv in Har as (-> & ha & _ & ? & _).
Qed.

Lemma in_payload_unique v b c :
  b ∈ l → c ∈ l → in_payload (blocks s0) v b → in_payload (blocks s0) v c →
  b = c.
Proof.
  intros Hb Hc (hb & Eb & Hvb) (hc & Ec & Hvc).
  destruct (decide (b = c)) as [|Hne]; [done|].
  destruct (arena_disjoint _ _ _ _ _ _ _ _ _ Har Hb Hc Hne Eb Ec);
    unfold META_SIZE in *; lia.
Qed.

Lemma in_payload_heap v b :
  b ∈ l → in_payload (blocks s0) v b →
  wrap (global_base s0 + META_SIZE) <= v < brk s0.
Proof.
  intros Hb (h & E & Hv).
  destruct (list_block_bounds _ _ Hb E) as (Hge & Hpos & Hs & Hhi).
  rewrite wrap_small by (unfold META_SIZE in *; lia).
  unfold META_SIZE in *. lia.
Qed.

Lemma payload_test_true s b h v :
  keeps s0 s → b ∈ l → blocks s !! b = Some h →
  (payload_of b <=? v) && (v <? ptr_add (payload_of b) (bm_size h)) = true →
  in_payload (blocks s0) v b.
Proof.
  intros Hk Hb E Ht.
  destruct (keeps_lookup _ _ _ _ (keeps_sym _ _ Hk) E) as (h0 & E0 & Hs & _).
  destruct (list_block_bounds _ _ Hb E0) as (Hge & Hpos & Hs0 & Hhi).
  unfold payload_of, ptr_add in Ht.
  rewrite (wrap_small (b + META_SIZE)) in Ht by (unfold META_SIZE in *; lia).
  rewrite <- Hs, wrap_small in Ht by (unfold META_SIZE in *; lia).
  apply andb_true_iff in Ht as [H1 H2].
  apply Z.leb_le in H1. apply Z.ltb_lt in H2.
  exists h0. split; [done|lia].
Qed.

Lemma payload_test_false s b h v :
  keeps s0 s → b ∈ l → blocks s !! b = Some h →
  (payload_of b <=? v) && (v <? ptr_add (payload_of b) (bm_size h)) = false →
  ¬ in_payload (blocks s0) v b.
Proof.
  intros Hk Hb E Ht (h0' & E0' & Hv).
  destruct (keeps_lookup _ _ _ _ (keeps_sym _ _ Hk) E) as (h0 & E0 & Hs & _).
  assert (h0' = h0) as -> by congruence.
  destruct (list_block_bounds _ _ Hb E0) as (Hge & Hpos & Hs0 & Hhi).
  unfold payload_of, ptr_add in Ht.
  rewrite (wrap_small (b + META_SIZE)) in Ht by (unfold META_SIZE in *; lia).
  rewrite <- Hs, wrap_small in Ht by (unfold META_SIZE in *; lia).
  apply andb_false_iff in Ht as [H1|H2].
  - apply Z.leb_gt in H1. lia.
  - apply Z.ltb_ge in H2. lia.
Qed.

Lemma marking_grows s s' :
  marking R l s0 s → grows s s' →
  (∀ b, b ∈ l → is_marked s' b → is_marked s b ∨ R b) →
  marked_within (λ _, True) l s' →
  marking R l s0 s'.
Proof.
  intros [Hk Hm] (Hk' & Hmo & _) Hnew H01. split; [by eapply keeps_trans|].
  intros b h' Hb E'. destruct (H01 _ _ Hb E') as [?|[H1 _]]; [by left|].
  right. split; [done|].
  destruct (Hnew b Hb) as [(h & E & Hne)|?]; [exists h'; split; [done|lia]| |done].
  destruct (Hm _ _ Hb E) as [?|[_ ?]]; done.
Qed.

Lemma marking_mark s b h :
  marking R l s0 s → blocks s !! b = Some h → R b →
  marking R l s0 (update b (set_marked 1 h) s).
Proof.
  intros [Hk Hm] E HR. split.
  - eapply keeps_trans; [exact Hk|]. by apply grows_mark.
  - intros c hc Hc Ec. destruct (decide (b = c)) as [<-|Hne].
    + rewrite lookup_update_eq in Ec. injection Ec as <-. right. done.
    + rewrite lookup_update_ne in Ec by done. eauto.
Qed.

(** The search of [scan_region]: the block whose payload holds [v] gets
    its mark. *)
Lemma scan_region_find_marks fuel v block l2 s s' :
  marking R l s0 s → chain (blocks s) block l2 → l2 ⊆ l →
  (∀ b, b ∈ l → in_payload (blocks s0) v b → R b) →
  scan_region_find fuel v block s = Ret tt s' →
  marking R l s0 s' ∧ grows s s' ∧
  ∀ b, b ∈ l2 → in_payload (blocks s0) v b → is_marked s' b.
Proof.
  revert block l2.
  induction fuel as [|fuel IH]; intros block l2 Hm Hc Hsub HR E; [done|].
  cbn [scan_region_find] in E. destruct Hc as [|b h l2 Hb Eb Hc].
  - injection E as <-. split_and!; [done|apply grows_refl|].
    intros b Hb. by apply elem_of_nil in Hb.
  - rewrite (eqb_neq_false _ _ Hb), (bind_load_Some _ _ _ _ Eb) in E.
    assert (Hbl : b ∈ l) by (apply Hsub; left).
    destruct ((payload_of b <=? v) &&
              (v <? ptr_add (payload_of b) (bm_size h))) eqn:Et.
    + change (wrap (payload_of b + bm_size h))
        with (ptr_add (payload_of b) (bm_size h)) in E.
      rewrite Et, (modify_Some _ _ _ _ Eb) in E. injection E as <-.
      apply (payload_test_true s b h v (proj1 Hm) Hbl Eb) in Et.
      split_and!.
      * apply marking_mark; auto.
      * by apply grows_mark.
      * intros c Hcl Hin.
        assert (c = b) as ->.
        { apply (in_payload_unique v); auto. }
        apply is_marked_update.
    + change (wrap (payload_of b + bm_size h))
        with (ptr_add (payload_of b) (bm_size h)) in E.
      rewrite Et in E.
      apply (payload_test_false s b h v (proj1 Hm) Hbl Eb) in Et.
      apply IH with (l2 := l2) in E as (Hm' & Hg & Hin); try done;
        [|intros x Hx; apply Hsub; by right].
      split_and!; try done.
      intros c Hcl Hc'. apply elem_of_cons in Hcl as [->|Hcl]; [done|].
      by apply Hin.
Qed.

Lemma scanned_step p end_ q :
  scanned p end_ q → q = p ∨ scanned (p + 8) end_ q.
Proof.
  intros (k & Hk & -> & Hlt). destruct (decide (k = 0)) as [->|Hne].
  - left. lia.
  - right. exists (k - 1). split_and!; lia.
Qed.

Lemma scanned_lt p end_ q : scanned p end_ q → p < end_.
Proof. intros (k & Hk & -> & Hlt). lia. Qed.

Lemma scanned_first p end_ : p < end_ → scanned p end_ p.
Proof. intros. exists 0. split_and!; lia. Qed.

Lemma scanned_next p end_ q : scanned (p + 8) end_ q → scanned p end_ q.
Proof.
  intros (k & Hk & -> & Hlt). exists (k + 1). split_and!; lia.
Qed.

(** The loop of [scan_region]: every word of the region is looked up. *)
Lemma scan_region_loop_marks fuel p end_ s s' :
  marking R l s0 s → 0 <= p → end_ <= modulus - 8 →
  (∀ q b, scanned p end_ q → b ∈ l →
          in_payload (blocks s0) (load64 (mem s0) q) b → R b) →
  scan_region_loop fuel p end_ (wrap (global_base s0 + META_SIZE)) (brk s0) s
    = Ret tt s' →
  marking R l s0 s' ∧ grows s s' ∧
  ∀ q b, scanned p end_ q → b ∈ l →
         in_payload (blocks s0) (load64 (mem s0) q) b → is_marked s' b.
Proof.
  revert p s.
  induction fuel as [|fuel IH]; intros p s Hm Hp Hend HR E; [done|].
  cbn [scan_region_loop] in E. destruct (p <? end_) eqn:Hlt.
  - apply Z.ltb_lt in Hlt. rewrite bind_get_mem in E.
    assert (Hmem : mem s = mem s0) by (destruct Hm as [(?&?&?&?&?&?&?) _]; done).
    assert (Hbase : global_base s = global_base s0)
      by (destruct Hm as [(?&?&?&?&?&?&?) _]; done).
    rewrite Hmem in E.
    apply bind_Ret_inv in E as ([] & s1 & E1 & E2).
    assert (H1 : marking R l s0 s1 ∧ grows s s1 ∧
                 ∀ b, b ∈ l → in_payload (blocks s0) (load64 (mem s0) p) b →
                      is_marked s1 b).
    { destruct ((wrap (global_base s0 + META_SIZE) <=? load64 (mem s0) p) &&
                (load64 (mem s0) p <? brk s0)) eqn:Er.
      - rewrite bind_get_global_base, Hbase in E1.
        eapply scan_region_find_marks in E1; [exact E1|done| |done|].
        + eapply keeps_chain; [exact (proj1 Hm)|]. by apply arena_chain in Har.
        + intros b Hb. apply HR; [|done]. by apply scanned_first.
      - injection E1 as <-. split_and!; [done|apply grows_refl|].
        intros b Hb Hin. apply in_payload_heap in Hin; [|done].
        apply andb_false_iff in Er as [Er|Er];
          [apply Z.leb_gt in Er|apply Z.ltb_ge in Er]; lia. }
    destruct H1 as (Hm1 & Hg1 & Hin1).
    unfold ptr_add in E2. rewrite wrap_small in E2 by lia.
    apply IH in E2 as (Hm2 & Hg2 & Hin2); [|done|lia|done|].
    + split_and!; [done|by eapply grows_trans|].
      intros q b Hq Hb Hin. apply scanned_step in Hq as [->|Hq].
      * apply Hg2. by apply Hin1.
      * by eapply Hin2.
    + intros q b Hq. apply HR. by apply scanned_next.
  - apply Z.ltb_ge in Hlt. injection E as <-.
    split_and!; [done|apply grows_refl|].
    intros q b Hq. apply scanned_lt in Hq. lia.
Qed.

Lemma scan_region_marks fuel start end_ s s' :
  marking R l s0 s → 0 <= start → end_ <= modulus - 8 →
  (∀ q b, scanned start end_ q → b ∈ l →
          in_payload (blocks s0) (load64 (mem s0) q) b → R b) →
  scan_region fuel start end_ s = Ret tt s' →
  marking R l s0 s' ∧ grows s s' ∧
  ∀ q b, scanned start end_ q → b ∈ l →
         in_payload (blocks s0) (load64 (mem s0) q) b → is_marked s' b.
Proof.
  intros Hm Hs He HR E. unfold scan_region in E.
  assert (Hbase : global_base s = global_base s0)
    by (destruct Hm as [(?&?&?&?&?&?&?) _]; done).
  assert (Hbrk' : brk s = brk s0)
    by (destruct Hm as [(?&?&?&?&?&?&?) _]; done).
  rewrite bind_get_global_base, Hbase in E.
  destruct (global_base s0 =? 0) eqn:Eb.
  - apply Z.eqb_eq in Eb. rewrite Eb in Har. apply arena_null in Har.
    injection E as <-. split_and!; [done|apply grows_refl|].
    intros q b _ Hb. rewrite Har in Hb. by apply elem_of_nil in Hb.
  - rewrite bind_sbrk_0, Hbrk' in E. by eapply scan_region_loop_marks.
Qed.

(** The inner loop of [scan_heap]: it reports 0 only if it wrote
    nothing and the block holding [v], if any, was marked already. *)
Lemma scan_heap_others_marks fuel v other nm l2 s nm' s' :
  marking R l s0 s → chain (blocks s) other l2 → l2 ⊆ l →
  (∀ b, b ∈ l → in_payload (blocks s0) v b → R b) →
  scan_heap_others fuel v other nm s = Ret nm' s' →
  marking R l s0 s' ∧ grows s s' ∧
  (nm' = 0 → nm = 0 ∧ s' = s ∧
     ∀ b, b ∈ l2 → in_payload (blocks s0) v b → is_marked s b).
Proof.
  revert other nm l2 s.
  induction fuel as [|fuel IH]; intros other nm l2 s Hm Hc Hsub HR E; [done|].
  cbn [scan_heap_others] in E. destruct Hc as [|b h l2 Hb Eb Hc].
  - injection E as <- <-. split_and!; [done|apply grows_refl|].
    intros ->. split_and!; try done. intros b Hb. by apply elem_of_nil in Hb.
  - rewrite (eqb_neq_false _ _ Hb), (bind_load_Some _ _ _ _ Eb) in E.
    assert (Hbl : b ∈ l) by (apply Hsub; left).
    assert (Hsub' : l2 ⊆ l) by (intros x Hx; apply Hsub; by right).
    destruct (bm_marked h =? 0) eqn:Emk.
    + destruct ((payload_of b <=? v) &&
                (v <? ptr_add (payload_of b) (bm_size h))) eqn:Et.
      * rewrite (bind_modify_Some _ _ _ _ _ Eb) in E.
        rewrite (bind_load_Some _ _ _ _ (lookup_update_eq _ _ _)) in E.
        apply (payload_test_true s b h v (proj1 Hm) Hbl Eb) in Et.
        apply IH with (l2 := l2) in E as (Hm' & Hg & H0); try done.
        -- split_and!; [done| |].
           ++ eapply grows_trans; [|exact Hg]. by apply grows_mark.
           ++ intros ->. by destruct (H0 eq_refl).
        -- apply marking_mark; auto.
        -- eapply chain_update; [exact Hc|exact Eb|done].
      * apply (payload_test_false s b h v (proj1 Hm) Hbl Eb) in Et.
        apply IH with (l2 := l2) in E as (Hm' & Hg & H0); try done.
        split_and!; try done. intros Hz.
        destruct (H0 Hz) as (-> & -> & Hin). split_and!; try done.
        intros c Hcl Hc'. apply elem_of_cons in Hcl as [->|Hcl]; [done|].
        by apply Hin.
    + apply IH with (l2 := l2) in E as (Hm' & Hg & H0); try done.
      split_and!; try done. intros Hz.
      destruct (H0 Hz) as (-> & -> & Hin). split_and!; try done.
      intros c Hcl Hc'. apply elem_of_cons in Hcl as [->|Hcl].
      * exists h. split; [done|]. by apply Z.eqb_neq in Emk.
      * by apply Hin.
Qed.

Lemma marking_frame s :
  marking R l s0 s →
  global_base s = global_base s0 ∧ stack_bottom s = stack_bottom s0 ∧
  brk s = brk s0 ∧ mem s = mem s0.
Proof. intros [(?&?&?&?&?&?&?) _]. done. Qed.

Lemma marking_list s : marking R l s0 s → chain (blocks s) (global_base s0) l.
Proof.
  intros [Hk _]. eapply keeps_chain; [exact Hk|]. by apply arena_chain in Har.
Qed.

(** The words of one marked block. *)
Lemma scan_heap_words_marks fuel n b h0 i nm s nm' s' :
  marking R l s0 s → b ∈ l → blocks s0 !! b = Some h0 → R b →
  0 <= i → i + Z.of_nat n <= bm_size h0 / 8 →
  scan_heap_words fuel n (payload_of b) i nm s = Ret nm' s' →
  marking R l s0 s' ∧ grows s s' ∧
  (nm' = 0 → nm = 0 ∧ s' = s ∧
     ∀ j c, i <= j < i + Z.of_nat n → c ∈ l →
       in_payload (blocks s0) (load64 (mem s0) (b + META_SIZE + 8 * j)) c →
       is_marked s c).
Proof.
  intros Hm Hb E0 HRb. revert i nm s Hm.
  induction n as [|n IH]; intros i nm s Hm Hi Hn E.
  - injection E as <- <-. split_and!; [done|apply grows_refl|].
    intros ->. split_and!; try done. intros j c Hj. lia.
  - cbn [scan_heap_words] in E.
    destruct (marking_frame _ Hm) as (Hbase & _ & _ & Hmem).
    destruct (list_block_bounds _ _ Hb E0) as (Hge & Hpos & Hs0 & Hhi).
    assert (Hdiv : 8 * (bm_size h0 / 8) <= bm_size h0)
      by (apply Z.mul_div_le; lia).
    rewrite bind_get_mem, Hmem, bind_get_global_base, Hbase in E.
    assert (Ea : ptr_add (payload_of b) (8 * i) = b + META_SIZE + 8 * i).
    { unfold payload_of, ptr_add.
      rewrite (wrap_small (b + META_SIZE)) by (unfold META_SIZE in *; lia).
      apply wrap_small. unfold META_SIZE in *. lia. }
    rewrite Ea in E.
    apply bind_Ret_inv in E as (nm1 & s1 & E1 & E2).
    apply scan_heap_others_marks with (l2 := l) in E1
      as (Hm1 & Hg1 & H1); [|done|by apply marking_list|done|].
    2:{ intros c Hc Hin. apply (HRword b h0 i c); auto. lia. }
    apply IH in E2 as (Hm2 & Hg2 & H2); [|done|lia|lia].
    split_and!; [done|by eapply grows_trans|].
    intros Hz. destruct (H2 Hz) as (-> & -> & Hw2).
    destruct (H1 eq_refl) as (-> & -> & Hw1).
    split_and!; try done. intros j c Hj Hc Hin.
    destruct (decide (j = i)) as [->|Hne]; [by apply Hw1|].
    apply (Hw2 j); auto. lia.
Qed.

(** One pass of [scan_heap] over the list. *)
Lemma scan_heap_blocks_marks fuel block nm l2 s nm' s' :
  marking R l s0 s → chain (blocks s) block l2 → l2 ⊆ l →
  scan_heap_blocks fuel block nm s = Ret nm' s' →
  marking R l s0 s' ∧ grows s s' ∧
  (nm' = 0 → nm = 0 ∧ s' = s ∧
     ∀ b h j c, b ∈ l2 → is_marked s b → blocks s0 !! b = Some h →
       0 <= j < bm_size h / 8 → c ∈ l →
       in_payload (blocks s0) (load64 (mem s0) (b + META_SIZE + 8 * j)) c →
       is_marked s c).
Proof.
  revert block nm l2 s.
  induction fuel as [|fuel IH]; intros block nm l2 s Hm Hc Hsub E; [done|].
  cbn [scan_heap_blocks] in E. destruct Hc as [|b h l2 Hb Eb Hc].
  - injection E as <- <-. split_and!; [done|apply grows_refl|].
    intros ->. split_and!; try done.
    intros b h j c Hb. by apply elem_of_nil in Hb.
  - rewrite (eqb_neq_false _ _ Hb), (bind_load_Some _ _ _ _ Eb) in E.
    assert (Hbl : b ∈ l) by (apply Hsub; left).
    assert (Hsub' : l2 ⊆ l) by (intros x Hx; apply Hsub; by right).
    destruct (bm_marked h =? 0) eqn:Emk.
    + apply Z.eqb_eq in Emk.
      apply IH with (l2 := l2) in E as (Hm' & Hg & H0); try done.
      split_and!; try done. intros Hz.
      destruct (H0 Hz) as (-> & -> & Hcl). split_and!; try done.
      intros c hc j d Hcin Hmc. apply elem_of_cons in Hcin as [->|Hcin].
      * destruct Hmc as (h' & E' & Hne). congruence.
      * by apply Hcl.
    + apply Z.eqb_neq in Emk.
      destruct (keeps_lookup _ _ _ _ (keeps_sym _ _ (proj1 Hm)) Eb)
        as (h0 & E0 & Hs & _).
      destruct (list_block_bounds _ _ Hbl E0) as (_ & _ & Hs0 & _).
      assert (HRb : R b).
      { destruct (proj2 Hm _ _ Hbl Eb) as [?|[_ ?]]; done. }
      apply bind_Ret_inv in E as (nm1 & s1 & E1 & E2).
      apply scan_heap_words_marks with (h0 := h0) in E1
        as (Hm1 & Hg1 & H1); try done.
      2:{ rewrite <- Hs, Z2Nat.id; [lia|]. apply Z.div_pos; lia. }
      destruct (keeps_lookup _ _ _ _ (proj1 Hg1) Eb) as (h1 & Eb1 & _ & Hn1).
      rewrite (bind_load_Some _ _ _ _ Eb1), Hn1 in E2.
      apply IH with (l2 := l2) in E2 as (Hm2 & Hg2 & H2); try done.
      2:{ eapply keeps_chain; [exact (proj1 Hg1)|done]. }
      split_and!; [done|by eapply grows_trans|].
      intros Hz. destruct (H2 Hz) as (-> & -> & Hcl).
      destruct (H1 eq_refl) as (-> & -> & Hw).
      split_and!; try done.
      intros c hc j d Hcin Hmc Ec Hj Hd Hin.
      apply elem_of_cons in Hcin as [->|Hcin].
      * assert (hc = h0) as -> by congruence.
        apply (Hw j); auto. rewrite <- Hs, Z2Nat.id; [lia|].
        apply Z.div_pos; lia.
      * by eapply Hcl.
Qed.

(** The [do ... while (new_marks)] loop ends on a pass that found
    nothing: the marks are then closed under the words of the marked
    blocks. *)
Lemma scan_heap_loop_marks fuel s s' :
  marking R l s0 s → scan_heap_loop fuel s = Ret tt s' →
  marking R l s0 s' ∧ grows s s' ∧ closed_marks s0 l s'.
Proof.
  revert s. induction fuel as [|fuel IH]; intros s Hm E; [done|].
  cbn [scan_heap_loop] in E.
  rewrite bind_get_global_base, (proj1 (marking_frame _ Hm)) in E.
  apply bind_Ret_inv in E as (nm1 & s1 & E1 & E2).
  apply scan_heap_blocks_marks with (l2 := l) in E1
    as (Hm1 & Hg1 & H1); [|done|by apply marking_list|done].
  destruct (nm1 =? 0) eqn:Ez.
  - apply Z.eqb_eq in Ez. injection E2 as <-.
    destruct (H1 Ez) as (_ & -> & Hcl).
    split_and!; [done|apply grows_refl|exact Hcl].
  - apply IH in E2 as (Hm2 & Hg2 & Hcl); [|done].
    split_and!; [done|by eapply grows_trans|done].
Qed.

Lemma scan_heap_marks fuel s s' :
  marking R l s0 s → scan_heap fuel s = Ret tt s' →
  marking R l s0 s' ∧ grows s s' ∧ closed_marks s0 l s'.
Proof.
  intros Hm E. unfold scan_heap in E.
  rewrite bind_get_global_base, (proj1 (marking_frame _ Hm)) in E.
  destruct (global_base s0 =? 0) eqn:Eb.
  - apply Z.eqb_eq in Eb. rewrite Eb in Har. apply arena_null in Har.
    injection E as <-. split_and!; [done|apply grows_refl|].
    intros b h j c Hb. rewrite Har in Hb. by apply elem_of_nil in Hb.
  - by apply scan_heap_loop_marks in E.
Qed.

(** The reset loop of [gc] leaves no block of the list marked. *)
Lemma gc_unmark_loop_marks fuel s1 :
  gc_unmark_loop fuel (global_base s0) s0 = Ret tt s1 → marking R l s0 s1.
Proof.
  intros E. split.
  - eapply (gc_unmark_loop_stable _
      (flag_stable_mark_stable _ (keeps_flag_stable s0))); [|exact E].
    apply keeps_refl.
  - rewrite gc_unmark_loop_walk in E.
    apply walk_spec in E as (l' & Hc & ->); [|done].
    assert (l' = l) as ->.
    { eapply chain_det; [exact Hc|]. by apply arena_chain in Har. }
    intros b h Hb Eb. left. simpl in Eb.
    rewrite rewrite_all_in in Eb; [|by eapply chain_NoDup|done].
    destruct (blocks s0 !! b); [|done]. by injection Eb as <-.
Qed.

(** The whole mark phase. *)
Lemma gc_mark_marks fuel etext end_ stack_top sm :
  0 <= etext → end_ <= modulus - 8 →
  0 <= stack_top → stack_bottom s0 <= modulus - 8 →
  (∀ p b, root s0 etext end_ stack_top p → b ∈ l →
          in_payload (blocks s0) (load64 (mem s0) p) b → R b) →
  gc_mark fuel etext end_ stack_top s0 = Ret tt sm →
  marking R l s0 sm ∧ closed_marks s0 l sm ∧
  ∀ p b, root s0 etext end_ stack_top p → b ∈ l →
         in_payload (blocks s0) (load64 (mem s0) p) b → is_marked sm b.
Proof.
  intros He1 He2 Hs1 Hs2 HR E. rewrite gc_mark_unfold in E.
  apply bind_Ret_inv in E as ([] & s1 & E1 & E).
  apply gc_unmark_loop_marks in E1 as Hm1.
  apply bind_Ret_inv in E as ([] & s2 & E2 & E).
  apply scan_region_marks in E2 as (Hm2 & Hg2 & Hr2); try done.
  2:{ intros q b Hq. apply HR. by left. }
  rewrite bind_get_stack_bottom in E.
  rewrite (proj1 (proj2 (marking_frame _ Hm2))) in E.
  apply bind_Ret_inv in E as ([] & s3 & E3 & E).
  apply scan_region_marks in E3 as (Hm3 & Hg3 & Hr3); try done.
  2:{ intros q b Hq. apply HR. by right. }
  apply scan_heap_marks in E as (Hm4 & Hg4 & Hcl); [|done].
  split_and!; try done.
  intros p b [Hq|Hq] Hb Hin.
  - apply Hg4, Hg3. by eapply Hr2.
  - apply Hg4. by eapply Hr3.
Qed.
End Marking.

(** What the mark phase leaves in every header of the list. *)
Lemma gc_mark_exact fuel etext end_ stack_top s l sm :
  heap_ok s → block_list s l →
  0 <= etext → end_ <= modulus - 8 →
  0 <= stack_top → stack_bottom s <= modulus - 8 →
  gc_mark fuel etext end_ stack_top s = Ret tt sm →
  ∀ b h, b ∈ l → blocks s !! b = Some h →
    (reachable s l (root s etext end_ stack_top) b →
     blocks sm !! b = Some (set_marked 1 h)) ∧
    (¬ reachable s l (root s etext end_ stack_top) b →
     blocks sm !! b = Some (set_marked 0 h)).
Proof.
  intros Hok Hl He1 He2 Hs1 Hs2 E b h Hb Eb.
  pose proof (heap_ok_block_list _ _ Hok Hl) as Har.
  pose proof (gc_mark_marks_only _ _ _ _ _ _ E b) as Hmo. rewrite Eb in Hmo.
  apply (gc_mark_marks s l (reachable s l (root s etext end_ stack_top)))
    in E as ([_ Hw] & Hcl & Hrt); try done.
  - destruct (blocks sm !! b) as [hm|] eqn:Em; [|done].
    injection Hmo as Hmo.
    assert (Hall : ∀ c, reachable s l (root s etext end_ stack_top) c →
                        is_marked sm c).
    { induction 1 as [p c Hp Hc Hin|c hc i d Hr IH Ec Hi Hd Hin].
      - by eapply Hrt.
      - eapply Hcl; [|exact IH|exact Ec|exact Hi|exact Hd|exact Hin].
        destruct Hr; done. }
    assert (Hrec : ∀ v, bm_marked hm = v → hm = set_marked v h).
    { intros v <-. destruct hm, h. unfold set_marked in *. simpl in *.
      congruence. }
    split.
    + intros Hr. f_equal. apply Hrec.
      destruct (Hall _ Hr) as (hm' & Em' & Hne).
      assert (hm' = hm) as -> by congruence.
      destruct (Hw _ _ Hb Em) as [?|[? _]]; [done|done].
    + intros Hr. f_equal. apply Hrec.
      destruct (Hw _ _ Hb Em) as [?|[_ ?]]; [done|done].
  - by destruct Hok.
  - intros c hc j d Hc _ Ec Hj Hd Hin. by eapply reach_word.
  - intros p c Hp Hc Hin. by eapply reach_root.
Qed.

(** What [gc] leaves in every header of the list. *)
Lemma gc_exact fuel etext end_ stack_top s l s' :
  heap_ok s → block_list s l →
  0 <= etext → end_ <= modulus - 8 →
  0 <= stack_top → stack_bottom s <= modulus - 8 →
  gc fuel etext end_ stack_top s = Ret tt s' →
  ∀ b h, b ∈ l → blocks s !! b = Some h →
    (reachable s l (root s etext end_ stack_top) b →
     blocks s' !! b = Some (set_marked 1 h)) ∧
    (¬ reachable s l (root s etext end_ stack_top) b →
     blocks s' !! b =
       Some (if bm_free h =? 0 then released h else set_marked 0 h)).
Proof.
  intros Hok Hl He1 He2 Hs1 Hs2 E b h Hb Eb.
  assert (Hbase : global_base s ≠ 0).
  { intros Hz. unfold block_list in Hl. rewrite Hz in Hl.
    apply chain_null_inv in Hl. subst l. by apply elem_of_nil in Hb. }
  apply gc_phases in E as (sm & Em & Es); [|done].
  pose proof (gc_mark_keeps _ _ _ _ _ _ Em) as Hk.
  apply gc_sweep_loop_spec in Es as (l' & Hl' & _ & _ & Hsw).
  assert (l' = l) as ->.
  { eapply chain_det; [exact Hl'|].
    unfold block_list. rewrite (proj1 Hk). by eapply keeps_chain. }
  destruct (gc_mark_exact _ _ _ _ _ _ _ Hok Hl He1 He2 Hs1 Hs2 Em b h Hb Eb)
    as [Hyes Hno].
  split; intros Hr.
  - by rewrite (Hsw _ _ Hb (Hyes Hr)).
  - rewrite (Hsw _ _ Hb (Hno Hr)). unfold swept. simpl.
    by destruct (bm_free h =? 0).
Qed.

(** [gc] is safe: a block of the list that the conservative trace from
    the root words reaches (a root word, or a word of a block already
    reached, holds an address inside its payload) is never released; all
    [gc] does to its header is set the mark to 1. *)
Theorem gc_keeps_reachable fuel etext end_ stack_top s l s' b h :
  heap_ok s → block_list s l →
  0 <= etext → end_ <= modulus - 8 →
  0 <= stack_top → stack_bottom s <= modulus - 8 →
  gc fuel etext end_ stack_top s = Ret tt s' →
  b ∈ l → blocks s !! b = Some h →
  reachable s l (root s etext end_ stack_top) b →
  blocks s' !! b = Some (set_marked 1 h).
Proof.
  intros Hok Hl He1 He2 Hs1 Hs2 E Hb Eb.
  by apply (gc_exact _ _ _ _ _ _ _ Hok Hl He1 He2 Hs1 Hs2 E b h Hb Eb).
Qed.

Lemma gc_keeps_reachable_witness :
  blocks (Demo.run Demo.collect Demo.rooted) !! 4192 =
    Some (set_marked 1 (mk_meta 16 0 0 1 MAGIC_FRESH)).
Proof.
  apply (gc_keeps_reachable 8 64 72 0 Demo.rooted [4096; 4144; 4192]).
  - apply demo_three_ok.
  - apply demo_three_list.
  - lia.
  - done.
  - lia.
  - done.
  - vm_compute. reflexivity.
  - rewrite !elem_of_cons. tauto.
  - vm_compute. reflexivity.
  - apply (reach_root _ _ _ 64).
    + left. exists 0. split_and!; lia.
    + rewrite !elem_of_cons. tauto.
    + exists (mk_meta 16 0 0 1 MAGIC_FRESH).
      split; [vm_compute; reflexivity|]. vm_compute. split; [discriminate|reflexivity].
Defined.

(** [gc] is complete for its trace: a block of the list that the trace
    does not reach ends up free, unmarked and tagged [MAGIC_FREED] if it
    was in use; if it was free already, only its mark is cleared. *)
Theorem gc_frees_unreachable fuel etext end_ stack_top s l s' b h :
  heap_ok s → block_list s l →
  0 <= etext → end_ <= modulus - 8 →
  0 <= stack_top → stack_bottom s <= modulus - 8 →
  gc fuel etext end_ stack_top s = Ret tt s' →
  b ∈ l → blocks s !! b = Some h →
  ¬ reachable s l (root s etext end_ stack_top) b →
  blocks s' !! b =
    Some (if bm_free h =? 0 then released h else set_marked 0 h).
Proof.
  intros Hok Hl He1 He2 Hs1 Hs2 E Hb Eb.
  by apply (gc_exact _ _ _ _ _ _ _ Hok Hl He1 He2 Hs1 Hs2 E b h Hb Eb).
Qed.

Lemma demo_rooted_reach b :
  reachable Demo.rooted [4096; 4144; 4192] (root Demo.rooted 64 72 0) b →
  b = 4192.
Proof.
  assert (Hbot : stack_bottom Demo.rooted = 0) by (vm_compute; reflexivity).
  assert (Hin0 : ∀ v c, v = 0 ∨ v = 4224 → c ∈ [4096; 4144; 4192] →
                        in_payload (blocks Demo.rooted) v c → c = 4192).
  { intros v c Hv Hc (h & E & Hr). unfold META_SIZE in Hr.
    rewrite !elem_of_cons, elem_of_nil in Hc.
    destruct Hc as [->|[->|[->|[]]]]; vm_compute in E; injection E as <-;
      simpl in Hr; lia. }
  induction 1 as [p c Hp Hc Hin|c hc i d Hr IH Ec Hi Hd Hin].
  - assert (p = 64) as ->.
    { destruct Hp as [(k&?&?&?)|(k&?&?&Hlt)]; [lia|]. rewrite Hbot in Hlt. lia. }
    assert (load64 (mem Demo.rooted) 64 = 4224) as Hv
      by (vm_compute; reflexivity).
    rewrite Hv in Hin. apply (Hin0 4224); [lia|done..].
  - subst c. vm_compute in Ec. injection Ec as <-. simpl in Hi.
    assert (i = 0 ∨ i = 1) as [->| ->]
      by (change (16 / 8) with 2 in Hi; lia).
    + assert (load64 (mem Demo.rooted) (4192 + META_SIZE + 8 * 0) = 0) as Hv
        by (vm_compute; reflexivity).
      rewrite Hv in Hin. apply (Hin0 0); [lia|done..].
    + assert (load64 (mem Demo.rooted) (4192 + META_SIZE + 8 * 1) = 0) as Hv
        by (vm_compute; reflexivity).
      rewrite Hv in Hin. apply (Hin0 0); [lia|done..].
Qed.

Lemma gc_frees_unreachable_witness :
  blocks (Demo.run Demo.collect Demo.rooted) !! 4096 =
    Some (if bm_free (mk_meta 16 4144 0 1 MAGIC_FRESH) =? 0
          then released (mk_meta 16 4144 0 1 MAGIC_FRESH)
          else set_marked 0 (mk_meta 16 4144 0 1 MAGIC_FRESH)).
Proof.
  apply (gc_frees_unreachable 8 64 72 0 Demo.rooted [4096; 4144; 4192]).
  - apply demo_three_ok.
  - apply demo_three_list.
  - lia.
  - done.
  - lia.
  - done.
  - vm_compute. reflexivity.
  - rewrite !elem_of_cons. tauto.
  - vm_compute. reflexivity.
  - intros Hr. apply demo_rooted_reach in Hr. discriminate.
Defined.

(** ** [gc] returns *)






Section Returns.
Variables (s0 : heap) (l : list Z).
Hypothesis Hl : chain (blocks s0) (global_base s0) l.











End Returns.



(** ** Requests whose size arithmetic wraps *)

Lemma request_space_moves last size s :
  to_intptr (wrap (size + META_SIZE)) ≠ 0 →
  brk_start s <= brk s + to_intptr (wrap (size + META_SIZE)) <= brk_max s →
  brk s ≠ SBRK_FAILED →
  request_space last size s =
    ((if last =? 0 then ret tt else modify last (set_next (brk s)));;
     store (brk s) (mk_meta size 0 0 1 MAGIC_FRESH);;
     ret (brk s))
      (with_brk (brk s + to_intptr (wrap (size + META_SIZE))) s).
Proof.
  intros Hinc Hr Hb. unfold request_space. rewrite bind_sbrk_0.
  assert (Es : sbrk (wrap (size + META_SIZE)) s =
               Ret (brk s)
                 (with_brk (brk s + to_intptr (wrap (size + META_SIZE))) s)).
  { unfold sbrk. cbn zeta. rewrite (eqb_neq_false _ _ Hinc).
    by rewrite (proj2 (Z.leb_le _ _) (proj1 Hr)),
               (proj2 (Z.leb_le _ _) (proj2 Hr)). }
  rewrite (bind_Ret _ _ _ _ _ Es).
  rewrite bind_unfold. unfold assert. rewrite Z.eqb_refl.
  by rewrite (eqb_neq_false _ _ Hb).
Qed.

Lemma request_space_fresh last size s :
  to_intptr (wrap (size + META_SIZE)) ≠ 0 →
  brk_start s <= brk s + to_intptr (wrap (size + META_SIZE)) <= brk_max s →
  brk s ≠ SBRK_FAILED →
  last = 0 ∨ is_Some (blocks s !! last) →
  ∃ s1, request_space last size s = Ret (brk s) s1 ∧
        brk s1 = brk s + to_intptr (wrap (size + META_SIZE)) ∧
        blocks s1 !! brk s = Some (mk_meta size 0 0 1 MAGIC_FRESH) ∧
        mem s1 = mem s.
Proof.
  intros Hinc Hr Hb Hlast.
  rewrite (request_space_moves _ _ _ Hinc Hr Hb).
  destruct Hlast as [->|[hl El]].
  - change (0 =? 0) with true. cbn iota.
    rewrite bind_unfold, ret_unfold, bind_store, ret_unfold.
    eexists. split; [reflexivity|]. split_and!; try done.
    apply lookup_update_eq.
  - destruct (last =? 0).
    + rewrite bind_unfold, ret_unfold, bind_store, ret_unfold.
      eexists. split; [reflexivity|]. split_and!; try done.
      apply lookup_update_eq.
    + rewrite (bind_modify_Some _ _ _ _
                 (with_brk (brk s + to_intptr (wrap (size + META_SIZE))) s)
                 El).
      rewrite bind_store, ret_unfold.
      eexists. split; [reflexivity|]. split_and!; try done.
      apply lookup_update_eq.
Qed.

(** [malloc] when no block of the list can serve the request and [sbrk]
    accepts the increment, whatever its sign. *)
Lemma malloc_fresh fuel size s l :
  0 < size → block_list s l → (length l < fuel)%nat →
  (∀ x, x ∈ l → ¬ fits (blocks s) (align8 size) x) →
  to_intptr (wrap (align8 size + META_SIZE)) ≠ 0 →
  brk_start s <=
    brk s + to_intptr (wrap (align8 size + META_SIZE)) <= brk_max s →
  brk s ≠ SBRK_FAILED → brk s ≠ 0 →
  ∃ s', malloc fuel size s = Ret (payload_of (brk s)) s' ∧
        brk s' = brk s + to_intptr (wrap (align8 size + META_SIZE)) ∧
        blocks s' !! brk s = Some (mk_meta (align8 size) 0 0 1 MAGIC_FRESH) ∧
        mem s' = mem s.
Proof.
  intros Hs Hl Hlen Hnofit Hinc Hr Hb Hnz.
  unfold malloc. rewrite (proj2 (Z.leb_gt _ _) Hs).
  rewrite bind_get_global_base.
  destruct (global_base s =? 0).
  - destruct (request_space_fresh 0 _ _ Hinc Hr Hb (or_introl eq_refl))
      as (s1 & E1 & Hb1 & Eh1 & Hm1).
    rewrite (bind_Ret _ _ _ _ _ E1), (eqb_neq_false _ _ Hnz).
    eexists. split; [reflexivity|]. by split_and!.
  - destruct (find_free_block_spec fuel 0 (align8 size) s l Hl Hlen)
      as (b & last' & Ef & Hres).
    rewrite (bind_Ret _ _ _ _ _ Ef). cbn beta iota.
    destruct Hres as [(-> & _ & ->)|(l1 & l2 & -> & Hfit & _)].
    2:{ exfalso. apply (Hnofit b); [|done].
        rewrite elem_of_app, elem_of_cons. auto. }
    change (0 =? 0) with true. cbn iota.
    assert (Hlast : last_seen 0 l = 0 ∨ is_Some (blocks s !! last_seen 0 l)).
    { unfold last_seen. destruct (last l) as [lst|] eqn:Hlast; [|by left].
      right. simpl. apply (chain_lookup _ _ _ _ Hl).
      apply last_Some in Hlast as [l' ->]. rewrite elem_of_app.
      right. by left. }
    destruct (request_space_fresh _ _ _ Hinc Hr Hb Hlast)
      as (s1 & E1 & Hb1 & Eh1 & Hm1).
    rewrite (bind_Ret _ _ _ _ _ E1), (eqb_neq_false _ _ Hnz).
    eexists. split; [reflexivity|]. by split_and!.
Qed.

Lemma align8_top size : modulus - 7 <= size < modulus → align8 size = 0.
Proof.
  intros Hs. rewrite align8_eq. unfold wrap. rewrite modulus_eq in *.
  replace (size + 7)
    with (size + 7 - 18446744073709551616 + 1 * 18446744073709551616) by lia.
  rewrite Z.mod_add by done.
  rewrite (Z.mod_small (size + 7 - 18446744073709551616)) by lia.
  rewrite Z.mod_small; lia.
Qed.

(** A request of [2 ^ 64 - 7] to [2 ^ 64 - 1] bytes does not fail: the
    rounding to a multiple of 8 wraps to 0, so when no block of the list
    is free and the break can move by one header, [malloc] returns a
    non-null pointer to a new block of 0 bytes; the pointer is the new
    break. *)
Theorem malloc_size_wraps fuel size s l :
  modulus - 7 <= size < modulus →
  block_list s l → (length l < fuel)%nat →
  (∀ x h, x ∈ l → blocks s !! x = Some h → bm_free h = 0) →
  0 < brk s → brk_start s <= brk s + META_SIZE <= brk_max s →
  brk_max s < modulus →
  ∃ s', malloc fuel size s = Ret (brk s + META_SIZE) s' ∧
        brk s + META_SIZE ≠ 0 ∧
        brk s' = brk s + META_SIZE ∧
        blocks s' !! brk s = Some (mk_meta 0 0 0 1 MAGIC_FRESH).
Proof.
  intros Hs Hl Hlen Hused Hpos Hr Hmax.
  pose proof (align8_top _ Hs) as Ea.
  assert (Hm : modulus = 18446744073709551616) by done.
  assert (Ei : to_intptr (wrap (align8 size + META_SIZE)) = META_SIZE).
  { rewrite Ea. reflexivity. }
  destruct (malloc_fresh fuel size s l) as (s' & E & Hb & Eh & _);
    try done.
  - unfold META_SIZE in *. lia.
  - intros x Hx (h & Ex & Hf & _). by apply Hf, (Hused x).
  - by rewrite Ei.
  - by rewrite Ei.
  - rewrite SBRK_FAILED_eq. unfold META_SIZE in *. lia.
  - lia.
  - exists s'. rewrite Ei, Ea in *. split_and!; try done.
    + rewrite E. f_equal. unfold payload_of, ptr_add.
      apply wrap_small. unfold META_SIZE in *. lia.
    + unfold META_SIZE. lia.
Qed.

Lemma malloc_size_wraps_witness :
  ∃ s', malloc 8 (modulus - 1) Cases.start = Ret (brk Cases.start + META_SIZE) s' ∧
        brk Cases.start + META_SIZE ≠ 0 ∧
        brk s' = brk Cases.start + META_SIZE ∧
        blocks s' !! brk Cases.start = Some (mk_meta 0 0 0 1 MAGIC_FRESH).
Proof.
  apply (malloc_size_wraps 8 (modulus - 1) Cases.start []).
  - split; [|done]. apply Z.sub_le_mono_l. lia.
  - constructor.
  - simpl. lia.
  - intros x h Hx. by apply elem_of_nil in Hx.
  - done.
  - split; by vm_compute.
  - done.
Defined.


(** ** [free] after [gc] *)

(** A pointer to a block in use that the trace of [gc] does not reach is
    dangling once [gc] has returned: [gc] has released the block, and a
    later [free] of the pointer fails the assertion on the free flag. *)
Theorem free_after_gc_aborts fuel fuel' etext end_ stack_top s l s' b h :
  heap_ok s → block_list s l →
  0 <= etext → end_ <= modulus - 8 →
  0 <= stack_top → stack_bottom s <= modulus - 8 →
  gc fuel etext end_ stack_top s = Ret tt s' →
  b ∈ l → blocks s !! b = Some h → bm_free h = 0 →
  ¬ reachable s l (root s etext end_ stack_top) b →
  blocks s' !! b = Some (released h) ∧
  free fuel' (b + META_SIZE) s' = Abort.
Proof.
  intros Hok Hl He1 He2 Hs1 Hs2 E Hb Eb Hf Hr.
  pose proof (heap_ok_block_list _ _ Hok Hl) as Ha.
  destruct (arena_ub _ _ _ _ _ _ _ Ha Hb Eb) as (Hpos & Hsz & Hhi).
  pose proof (proj1 Hok) as Hbrk.
  destruct (gc_exact _ _ _ _ _ _ _ Hok Hl He1 He2 Hs1 Hs2 E b h Hb Eb)
    as [_ Hno].
  specialize (Hno Hr). rewrite Hf in Hno. change (0 =? 0) with true in Hno.
  split; [done|].
  assert (Eh : header_of (b + META_SIZE) = b).
  { unfold header_of. replace (b + META_SIZE - META_SIZE) with b by lia.
    apply wrap_small. unfold META_SIZE in *. lia. }
  rewrite (free_unfold _ _ _ (released h)); [done| |by rewrite Eh].
  unfold META_SIZE. lia.
Qed.

Lemma free_after_gc_aborts_witness :
  blocks (Demo.run Demo.collect Demo.rooted) !! 4096 =
    Some (released (mk_meta 16 4144 0 1 MAGIC_FRESH)) ∧
  free 8 (4096 + META_SIZE) (Demo.run Demo.collect Demo.rooted) = Abort.
Proof.
  apply (free_after_gc_aborts 8 8 64 72 0 Demo.rooted [4096; 4144; 4192]).
  - apply demo_three_ok.
  - apply demo_three_list.
  - lia.
  - done.
  - lia.
  - done.
  - vm_compute. reflexivity.
  - rewrite !elem_of_cons. tauto.
  - vm_compute. reflexivity.
  - reflexivity.
  - intros Hr. apply demo_rooted_reach in Hr. discriminate.
Defined.

(** ** [malloc] succeeds or aborts *)

Lemma malloc_reuse_returns s l b h size :
  heap_ok s → block_list s l → b ∈ l →
  blocks s !! b = Some h → bm_free h ≠ 0 → align8 size <= bm_size h →
  0 < size <= 2 ^ 62 →
  ∃ s',
    ((if wrap (align8 size + META_SIZE + MIN_SIZE) <=? bm_size h
      then split_block b (align8 size) else ret tt);;
     modify b (set_free 0);;
     modify b (set_marked 1);;
     modify b (set_magic MAGIC_REUSED);;
     ret (payload_of b)) s = Ret (payload_of b) s'.
Proof.
  intros Hok Hl Hin Eh Hfree Hfits Hs.
  destruct (align8_bound _ Hs) as [Hle Hub].
  pose proof (align8_range size) as [Hnn _].
  assert (H63 : 2 ^ 63 < modulus) by done.
  destruct (wrap (align8 size + META_SIZE + MIN_SIZE) <=? bm_size h).
  - assert (Hne : ptr_add (ptr_add b META_SIZE) (align8 size) ≠ b).
    { apply tail_ne_block. unfold META_SIZE, MIN_SIZE in *. lia. }
    rewrite (bind_Ret _ _ _ _ _ (split_block_eq _ _ _ _ Eh Hne)).
    rewrite (modify3_ret _ _ _ _ _ _ _ (lookup_update_eq _ _ _)).
    by eexists.
  - rewrite bind_unfold, ret_unfold.
    rewrite (modify3_ret _ _ _ _ _ _ _ Eh). by eexists.
Qed.

Lemma malloc_returns fuel size s l :
  heap_ok s → brk_max s < modulus → block_list s l →
  (length l < fuel)%nat → 0 < size <= 2 ^ 62 →
  (∃ x, x ∈ l ∧ fits (blocks s) (align8 size) x) ∨
  brk_start s <= brk s + (align8 size + META_SIZE) <= brk_max s →
  ∃ p s', malloc fuel size s = Ret p s' ∧ p ≠ 0.
Proof.
  intros Hok Hmax Hl Hlen Hs Hcan.
  destruct (align8_bound _ Hs) as [Hle Hub].
  pose proof (align8_range size) as [Hnn _].
  pose proof (heap_ok_block_list _ _ Hok Hl) as Ha.
  pose proof (arena_lo_le_hi _ _ _ _ _ Ha) as Hpos.
  pose proof (proj1 Hok) as Hbrk.
  assert (H63 : 2 ^ 63 < modulus) by done.
  destruct (find_free_block_spec fuel 0 (align8 size) s l Hl Hlen)
    as (b & last' & Ef & Hres).
  destruct Hres as [(-> & Hno & ->)|(l1 & l2 & Heq & Hfit & _)].
  - destruct Hcan as [(x & Hx & Hfx)|Hr]; [by destruct (Hno x Hx)|].
    destruct (wrap_request (align8 size)) as [Hw Hinc];
      [done|unfold META_SIZE, MIN_SIZE in *; lia|].
    assert (Ei : to_intptr (wrap (align8 size + META_SIZE)) =
                 align8 size + META_SIZE).
    { rewrite Hw. apply to_intptr_small. lia. }
    destruct (malloc_fresh fuel size s l) as (s' & E & _); try done.
    + lia.
    + rewrite Ei. lia.
    + by rewrite Ei.
    + rewrite SBRK_FAILED_eq. unfold META_SIZE in *. lia.
    + lia.
    + exists (payload_of (brk s)), s'. split; [done|].
      unfold payload_of, ptr_add.
      rewrite wrap_small; unfold META_SIZE in *; lia.
  - assert (Hin : b ∈ l).
    { rewrite Heq, elem_of_app, elem_of_cons. auto. }
    destruct Hfit as (h & Eh & Hfree & Hfits).
    pose proof (chain_nonzero _ _ _ _ Hl Hin) as Hnz.
    destruct (arena_ub _ _ _ _ _ _ _ Ha Hin Eh) as (Hbpos & Hhsz & Hub').
    assert (Hbase : global_base s ≠ 0).
    { intros Hz. unfold block_list in Hl. rewrite Hz in Hl.
      apply chain_null_inv in Hl. subst l. by apply elem_of_nil in Hin. }
    rewrite (malloc_reuse_eq _ _ _ _ _ h (proj1 Hs) Hbase Ef Hnz Eh).
    destruct (malloc_reuse_returns s l b h size) as [s' E]; try done.
    exists (payload_of b), s'. split; [done|].
    unfold payload_of, ptr_add.
    rewrite wrap_small; unfold META_SIZE in *; lia.
Qed.

(** For a request of 1 to [2 ^ 62] bytes on an ordered heap, [malloc]
    returns a non-null pointer whenever a free block of the list is
    large enough or the break can move by the aligned size plus one
    header.  Since it aborts in every other case, the paths of the source
    that return NULL are never taken for such a request. *)
Theorem malloc_succeeds fuel size s l :
  heap_ok s → brk_max s < modulus → block_list s l →
  (length l < fuel)%nat → 0 < size <= 2 ^ 62 →
  (∃ x, x ∈ l ∧ fits (blocks s) (align8 size) x) ∨
  brk_start s <= brk s + (align8 size + META_SIZE) <= brk_max s →
  ∃ p s', malloc fuel size s = Ret p s' ∧ p ≠ 0.
Proof. apply malloc_returns. Qed.

Lemma malloc_succeeds_witness :
  ∃ p s', malloc 8 10 Cases.holed = Ret p s' ∧ p ≠ 0.
Proof.
  apply (malloc_succeeds 8 10 Cases.holed [4096; 4144; 4192]).
  - apply cases_holed_ok.
  - done.
  - apply cases_holed_list.
  - simpl. lia.
  - split; [lia|done].
  - left. exists 4144. split; [rewrite !elem_of_cons; tauto|].
    exists (mk_meta 16 4192 1 0 MAGIC_FREED).
    split_and!; [vm_compute; reflexivity|done|by vm_compute].
Defined.

(** ** Without [gc] the heap is never fragmented *)

(** Free neighbours cannot appear when every free block of the new list
    is a free block of the old one with the size it had, or lies inside
    an old free block that is now in use and ends where that block
    ended. *)
Lemma coalesced_step s s' l :
  heap_ok s → block_list s l → coalesced s → heap_ok s' →
  (∀ l' x h', block_list s' l' → x ∈ l' → blocks s' !! x = Some h' →
     bm_free h' ≠ 0 →
     (x ∈ l ∧ ∃ h, blocks s !! x = Some h ∧ bm_free h ≠ 0 ∧
                   bm_size h = bm_size h') ∨
     (∃ b h hb', b ∈ l ∧ blocks s !! b = Some h ∧ bm_free h ≠ 0 ∧
                 blocks s' !! b = Some hb' ∧ bm_free hb' = 0 ∧
                 b < x < b + META_SIZE + bm_size h ∧
                 x + META_SIZE + bm_size h' = b + META_SIZE + bm_size h)) →
  coalesced s'.
Proof.
  intros Hok Hl Hco Hok' Hfree l' b1 b2 Hl' H1 H2
    (h1 & h2 & E1 & E2 & F1 & F2 & Hend).
  pose proof (heap_ok_block_list _ _ Hok Hl) as Ha.
  pose proof (heap_ok_block_list _ _ Hok' Hl') as Ha'.
  rewrite (block_end_exact _ _ _ _ _ _ _ Ha' (proj1 Hok') H1 E1) in Hend.
  destruct (arena_ub _ _ _ _ _ _ _ Ha' H1 E1) as (Hp1 & Hs1 & _).
  destruct (arena_ub _ _ _ _ _ _ _ Ha' H2 E2) as (Hp2 & Hs2 & _).
  assert (Hold : ∀ x y hx hy, x ∈ l → y ∈ l →
            blocks s !! x = Some hx → blocks s !! y = Some hy →
            bm_free hx ≠ 0 → bm_free hy ≠ 0 →
            x + META_SIZE + bm_size hx = y → False).
  { intros x y hx hy Hx Hy Ex Ey Fx Fy Hxy.
    apply (Hco l x y Hl Hx Hy). exists hx, hy. split_and!; try done.
    by rewrite (block_end_exact _ _ _ _ _ _ _ Ha (proj1 Hok) Hx Ex). }
  destruct (Hfree l' b1 h1 Hl' H1 E1 F1)
    as [(Hin1 & g1 & G1 & Fg1 & Sg1)
       |(c1 & g1 & k1 & Hc1 & G1 & Fg1 & K1 & Fk1 & Hr1 & He1)];
  destruct (Hfree l' b2 h2 Hl' H2 E2 F2)
    as [(Hin2 & g2 & G2 & Fg2 & Sg2)
       |(c2 & g2 & k2 & Hc2 & G2 & Fg2 & K2 & Fk2 & Hr2 & He2)].
  - apply (Hold b1 b2 g1 g2); try done. lia.
  - assert (Hne : b1 ≠ c2) by (intros ->; congruence).
    destruct (arena_disjoint _ _ _ _ _ _ _ _ _ Ha Hin1 Hc2 Hne G1 G2);
      unfold META_SIZE in *; lia.
  - apply (Hold c1 b2 g1 g2); try done. lia.
  - assert (Hne : c1 ≠ c2) by (intros ->; unfold META_SIZE in *;
      assert (g1 = g2) by congruence; subst; lia).
    destruct (arena_disjoint _ _ _ _ _ _ _ _ _ Ha Hc1 Hc2 Hne G1 G2);
      unfold META_SIZE in *; lia.
Qed.

(** The four ways in which [malloc] changes the state. *)
Lemma malloc_shapes fuel size s l p s' :
  heap_ok s → brk_max s < modulus → block_list s l →
  0 < size <= 2 ^ 62 →
  malloc fuel size s = Ret p s' →
  s' = s ∨
  (l = [] ∧
   s' = with_global_base (brk s)
          (update (brk s) (mk_meta (align8 size) 0 0 1 MAGIC_FRESH)
             (with_brk (brk s + (align8 size + META_SIZE)) s))) ∨
  (∃ lst hl, last l = Some lst ∧ blocks s !! lst = Some hl ∧
     s' = update (brk s) (mk_meta (align8 size) 0 0 1 MAGIC_FRESH)
            (update lst (set_next (brk s) hl)
               (with_brk (brk s + (align8 size + META_SIZE)) s))) ∨
  (∃ b h, b ∈ l ∧ blocks s !! b = Some h ∧ bm_free h ≠ 0 ∧
     align8 size <= bm_size h ∧ s' = update b (reused h) s) ∨
  (∃ b h, b ∈ l ∧ blocks s !! b = Some h ∧ bm_free h ≠ 0 ∧
     align8 size + META_SIZE + MIN_SIZE <= bm_size h ∧
     s' = update b
            (mk_meta (align8 size) (b + META_SIZE + align8 size) 0 1
               MAGIC_REUSED)
            (update (b + META_SIZE + align8 size)
               (mk_meta (bm_size h - align8 size - META_SIZE) (bm_next h)
                  1 0 MAGIC_SPLIT) s)).
Proof.
  intros Hok Hmax Hl Hs E.
  destruct (align8_bound _ Hs) as [Hle Hub].
  pose proof (align8_range size) as [Hnn _].
  pose proof (heap_ok_block_list _ _ Hok Hl) as Ha.
  pose proof (arena_lo_le_hi _ _ _ _ _ Ha) as Hpos.
  pose proof (proj1 Hok) as Hbrk.
  assert (H63 : 2 ^ 63 < modulus) by done.
  assert (Hsz32 : align8 size + META_SIZE < 2 ^ 63).
  { unfold META_SIZE, MIN_SIZE in *. lia. }
  assert (Hreq : ∀ last b s1,
    request_space last (align8 size) s = Ret b s1 →
    (b = 0 ∧ s1 = s) ∨
    (b = brk s ∧
     ((if last =? 0 then ret tt else modify last (set_next (brk s)));;
      store (brk s) (mk_meta (align8 size) 0 0 1 MAGIC_FRESH);;
      ret (brk s)) (with_brk (brk s + (align8 size + META_SIZE)) s)
     = Ret b s1)).
  { intros last b s1 Er.
    destruct (decide (brk_start s <= brk s + (align8 size + META_SIZE)
                      <= brk_max s)) as [Hr|Hr].
    - assert (Hbf : brk s ≠ SBRK_FAILED).
      { rewrite SBRK_FAILED_eq. unfold META_SIZE in *. lia. }
      rewrite (request_space_grow _ _ _ Hnn Hsz32 Hr Hbf) in Er.
      right. split; [|done].
      apply bind_Ret_inv in Er as (? & ? & _ & Er).
      rewrite bind_store in Er. by injection Er as <- _.
    - left. destruct (decide (brk s = SBRK_FAILED)) as [Hbf|Hbf].
      + rewrite (request_space_corner _ _ _ Hnn Hsz32 Hr Hbf) in Er.
        by injection Er as <- <-.
      + by rewrite (request_space_refused _ _ _ Hnn Hsz32 Hr Hbf) in Er. }
  assert (Hb0 : (brk s =? 0) = false) by (apply Z.eqb_neq; lia).
  unfold malloc in E. rewrite (proj2 (Z.leb_gt _ _) (proj1 Hs)) in E.
  rewrite bind_get_global_base in E.
  destruct (global_base s =? 0) eqn:Eb.
  - apply Z.eqb_eq in Eb. pose proof Hl as Hl0.
    unfold block_list in Hl0. rewrite Eb in Hl0.
    apply chain_null_inv in Hl0 as ->.
    apply bind_Ret_inv in E as (b & s1 & Er & E).
    destruct (Hreq _ _ _ Er) as [[-> ->]|(-> & Er')].
    { injection E as <- <-. by left. }
    rewrite Hb0 in E. simpl in Er'. injection Er' as <-.
    injection E as <- <-. right. left. done.
  - apply Z.eqb_neq in Eb.
    apply bind_Ret_inv in E as ([b last'] & s1 & Ef & E).
    destruct (find_free_block_sound _ _ _ _ _ _ _ _ Hl Ef) as [-> Hres].
    destruct Hres as [(-> & Hno & ->)|(l1 & l2 & Heq & Hfit & _ & _)].
    + simpl in E. apply bind_Ret_inv in E as (b & s1 & Er & E).
      destruct (Hreq _ _ _ Er) as [[-> ->]|(-> & Er')].
      { injection E as <- <-. by left. }
      rewrite Hb0 in E. injection E as <- <-.
      destruct (chain_head _ _ _ Hl) as [?|Hin]; [done|].
      destruct (last l) as [lst|] eqn:Hlast;
        [|apply last_None in Hlast; subst l; by apply elem_of_nil in Hin].
      assert (Hlst : lst ∈ l).
      { apply last_Some in Hlast as [l' ->]. rewrite elem_of_app.
        right. by left. }
      destruct (chain_lookup _ _ _ _ Hl Hlst) as [hl El].
      pose proof (chain_nonzero _ _ _ _ Hl Hlst) as Hnz.
      unfold last_seen in Er'. rewrite Hlast in Er'. simpl in Er'.
      rewrite (eqb_neq_false _ _ Hnz) in Er'.
      rewrite (bind_modify_Some _ _ _ _
                 (with_brk (brk s + (align8 size + META_SIZE)) s) El) in Er'.
      rewrite bind_store in Er'. injection Er' as <-.
      right. right. left. by exists lst, hl.
    + assert (Hin : b ∈ l).
      { rewrite Heq, elem_of_app, elem_of_cons. auto. }
      destruct Hfit as (h & Eh & Hfree & Hfits).
      pose proof (chain_nonzero _ _ _ _ Hl Hin) as Hnz.
      cbn beta iota in E. rewrite (eqb_neq_false _ _ Hnz) in E.
      rewrite (bind_load_Some _ _ _ _ Eh) in E.
      destruct (arena_ub _ _ _ _ _ _ _ Ha Hin Eh) as (Hbpos & Hhsz & Hub').
      rewrite (wrap_small (align8 size + META_SIZE + MIN_SIZE)) in E
        by (unfold META_SIZE, MIN_SIZE in *; lia).
      destruct (align8 size + META_SIZE + MIN_SIZE <=? bm_size h) eqn:Ec.
      * apply Z.leb_le in Ec.
        assert (Hne : ptr_add (ptr_add b META_SIZE) (align8 size) ≠ b).
        { apply tail_ne_block. unfold META_SIZE, MIN_SIZE in *. lia. }
        assert (Htail : ptr_add (ptr_add b META_SIZE) (align8 size) =
                        b + META_SIZE + align8 size).
        { unfold ptr_add, META_SIZE, MIN_SIZE in *.
          rewrite (wrap_small (b + 32)) by lia. apply wrap_small. lia. }
        rewrite (bind_Ret _ _ _ _ _ (split_block_eq _ _ _ _ Eh Hne)) in E.
        rewrite (modify3_ret _ _ _ _ _ _ _ (lookup_update_eq _ _ _)) in E.
        rewrite update_update, Htail in E.
        rewrite (wrap_small (bm_size h - align8 size - META_SIZE)) in E
          by (unfold META_SIZE, MIN_SIZE in *; lia).
        injection E as <- <-.
        right. right. right. right. by exists b, h.
      * rewrite bind_unfold, ret_unfold in E.
        rewrite (modify3_ret _ _ _ _ _ _ _ Eh) in E.
        injection E as <- <-.
        right. right. right. left. by exists b, h.
Qed.

Lemma malloc_coalesced fuel size s p s' :
  heap_ok s → brk_max s < modulus → size <= 2 ^ 62 → coalesced s →
  malloc fuel size s = Ret p s' → coalesced s'.
Proof.
  intros Hok Hmax Hs Hco E. destruct (decide (size <= 0)) as [Hz|Hz].
  { rewrite (malloc_null _ _ _ Hz) in E. by injection E as <- <-. }
  destruct (heap_ok_has_list _ Hok) as [l Hl].
  assert (Hr : 0 < size <= 2 ^ 62) by (split; [lia|done]).
  destruct (malloc_inv _ _ _ _ _ Hok Hmax Hs E) as [Hok' _].
  pose proof (heap_ok_block_list _ _ Hok Hl) as Ha.
  pose proof (arena_lo_le_hi _ _ _ _ _ Ha) as Hpos.
  pose proof (proj1 Hok) as Hbrk.
  destruct (align8_bound _ Hr) as [Hle Hub].
  pose proof (align8_range size) as [Hnn _].
  destruct (malloc_shapes _ _ _ _ _ _ Hok Hmax Hl Hr E)
    as [->|[(-> & ->)|[(lst & hl & Hlast & El & ->)
       |[(b & h & Hb & Eh & Hf & _ & ->)
        |(b & h & Hb & Eh & Hf & Hfit & ->)]]]];
    [done|apply (coalesced_step s _ _ Hok Hl Hco Hok')..].
  - intros l' x h' Hl' Hx Ex Fx. exfalso.
    unfold block_list in Hl'. simpl in Hl'.
    assert (l' = [brk s]) as ->.
    { eapply chain_det; [exact Hl'|].
      apply (chain_cons _ _ (mk_meta (align8 size) 0 0 1 MAGIC_FRESH));
        [lia|apply lookup_insert_eq|constructor]. }
    apply list_elem_of_singleton in Hx as ->.
    simpl in Ex. rewrite lookup_insert_eq in Ex. injection Ex as <-. done.
  - intros l' x h' Hl' Hx Ex Fx. left.
    pose proof (arena_snoc _ _ _ _ _ _ _ (align8 size) Ha Hlast El
                  ltac:(lia) Hnn) as Hnew.
    assert (l' = l ++ [brk s]) as ->.
    { eapply chain_det; [exact Hl'|]. by apply arena_chain in Hnew. }
    assert (Hnotin : brk s ∉ l)
      by (by apply (arena_notin_above _ _ _ _ _ _ Ha)).
    simpl in Ex. apply elem_of_app in Hx as [Hx|Hx].
    + split; [done|]. assert (x ≠ brk s) by (by intros ->).
      rewrite lookup_insert_ne in Ex by done.
      destruct (decide (x = lst)) as [->|Hne].
      * rewrite lookup_insert_eq in Ex. injection Ex as <-. by exists hl.
      * rewrite lookup_insert_ne in Ex by done. by exists h'.
    + apply list_elem_of_singleton in Hx as ->.
      rewrite lookup_insert_eq in Ex. injection Ex as <-. done.
  - intros l' x h' Hl' Hx Ex Fx. left.
    assert (l' = l) as ->.
    { eapply chain_det; [exact Hl'|]. unfold block_list. simpl.
      by eapply chain_update. }
    split; [done|]. simpl in Ex.
    destruct (decide (b = x)) as [->|Hne].
    + rewrite lookup_insert_eq in Ex. injection Ex as <-. done.
    + rewrite lookup_insert_ne in Ex by done. by exists h'.
  - intros l' x h' Hl' Hx Ex Fx.
    destruct (arena_ub _ _ _ _ _ _ _ Ha Hb Eh) as (Hbpos & Hhsz & Hub').
    destruct (arena_split _ _ _ _ _ b h (align8 size)
                (mk_meta (align8 size) (b + META_SIZE + align8 size) 0 1
                   MAGIC_REUSED)
                (mk_meta (bm_size h - align8 size - META_SIZE) (bm_next h)
                   1 0 MAGIC_SPLIT) Ha Hb Eh Hnn)
      as (l2 & Ha2 & Hl2); try done.
    { unfold MIN_SIZE in *. lia. }
    assert (l' = l2) as ->.
    { eapply chain_det; [exact Hl'|]. by apply arena_chain in Ha2. }
    simpl in Ex. apply Hl2 in Hx.
    destruct (decide (x = b)) as [->|Hnb].
    { rewrite lookup_insert_eq in Ex. injection Ex as <-. done. }
    rewrite lookup_insert_ne in Ex by done.
    destruct (decide (x = b + META_SIZE + align8 size)) as [->|Hnt].
    + right. rewrite lookup_insert_eq in Ex. injection Ex as <-.
      exists b, h,
        (mk_meta (align8 size) (b + META_SIZE + align8 size) 0 1
           MAGIC_REUSED).
      split_and!; try done.
      * simpl. apply lookup_insert_eq.
      * unfold META_SIZE in *. lia.
      * unfold META_SIZE, MIN_SIZE in *. lia.
      * simpl. lia.
    + left. destruct Hx as [Hx|?]; [|done]. split; [done|].
      rewrite lookup_insert_ne in Ex by done. by exists h'.
Qed.

Lemma coalesced_with_mem f s : coalesced s → coalesced (with_mem f s).
Proof. intros H. exact H. Qed.

Lemma free_coalesced fuel ptr s s' :
  heap_ok s → coalesced s → free fuel ptr s = Ret tt s' → coalesced s'.
Proof.
  intros Hok Hco E. destruct (decide (ptr = 0)) as [->|Hp].
  - change (free fuel 0 s) with (Ret tt s) in E. by injection E as <-.
  - by apply (free_sound _ _ _ _ Hok E).
Qed.

Lemma realloc_coalesced fuel ptr size s p s' :
  heap_ok s → brk_max s < modulus → size <= 2 ^ 62 → coalesced s →
  realloc fuel ptr size s = Ret p s' → coalesced s'.
Proof.
  intros Hok Hmax Hs Hco E. unfold realloc in E.
  destruct (ptr =? 0); [exact (malloc_coalesced _ _ _ _ _ Hok Hmax Hs Hco E)|].
  destruct (size =? 0).
  { apply bind_Ret_inv in E as ([] & s1 & E1 & E). injection E as <- <-.
    exact (free_coalesced _ _ _ _ Hok Hco E1). }
  apply bind_Ret_inv in E as (h & s1 & E1 & E).
  apply load_Ret_inv in E1 as [Eh ->].
  destruct (size <=? bm_size h); [by injection E as <- <-|].
  apply bind_Ret_inv in E as (new_ptr & s1 & E1 & E).
  destruct (malloc_inv _ _ _ _ _ Hok Hmax Hs E1) as [Hok1 Hmax1].
  pose proof (malloc_coalesced _ _ _ _ _ Hok Hmax Hs Hco E1) as Hco1.
  apply bind_Ret_inv in E as ([] & s2 & E2 & E). injection E as <- <-.
  destruct (new_ptr =? 0); [by injection E2 as <-|].
  apply bind_Ret_inv in E2 as (h' & s3 & E3 & E2).
  apply load_Ret_inv in E3 as [_ ->].
  rewrite bind_unfold in E2. simpl in E2.
  eapply free_coalesced; [|apply coalesced_with_mem; exact Hco1|exact E2].
  by apply heap_ok_with_mem.
Qed.

Lemma run_ops_coalesced fuel os s ps s' :
  heap_ok s → brk_max s < modulus → coalesced s →
  Forall small_request os → Forall allocator_call os →
  run_ops fuel os s = Ret ps s' →
  coalesced s'.
Proof.
  revert s ps. induction os as [|o os IH]; intros s ps Hok Hmax Hco Hall Hnogc E.
  { by injection E as <- <-. }
  apply Forall_cons in Hall as [Ho Hall].
  apply Forall_cons in Hnogc as [Hno Hnogc]. simpl in E.
  apply bind_Ret_inv in E as (p & s1 & E1 & E).
  destruct (run_op_inv _ _ _ _ _ Hok Hmax Ho E1) as [Hok1 Hmax1].
  apply bind_Ret_inv in E as (ps' & s2 & E2 & E). injection E as <- <-.
  eapply IH; [exact Hok1|lia| |exact Hall|exact Hnogc|exact E2].
  destruct o as [size|ptr|ptr size|etext end_ stack_top]; simpl in *.
  - exact (malloc_coalesced _ _ _ _ _ Hok Hmax Ho Hco E1).
  - apply bind_Ret_inv in E1 as ([] & s3 & E3 & E1). injection E1 as <- <-.
    exact (free_coalesced _ _ _ _ Hok Hco E3).
  - exact (realloc_coalesced _ _ _ _ _ _ Hok Hmax Ho Hco E1).
  - done.
Qed.

(** Start with no block.  After any sequence of [malloc], [free] and
    [realloc] calls (no [gc]) with requests of at most [2 ^ 62] bytes that
    returns, no two free blocks of the list are address-adjacent: the
    splits of [malloc] never put a free block next to another one, and
    [free] merges the neighbours it creates. *)
Theorem never_fragmented fuel os s0 ps s :
  global_base s0 = 0 → 0 < brk s0 < modulus → brk_max s0 < modulus →
  Forall small_request os → Forall allocator_call os →
  run_ops fuel os s0 = Ret ps s →
  coalesced s.
Proof.
  intros Hbase Hbrk Hmax Hall Hnogc E.
  assert (Hok0 : heap_ok s0).
  { split; [lia|]. exists []. rewrite Hbase. constructor. lia. }
  eapply run_ops_coalesced; [exact Hok0|exact Hmax| |exact Hall|exact Hnogc|exact E].
  intros l b1 b2 Hl Hb1. unfold block_list in Hl. rewrite Hbase in Hl.
  apply chain_null_inv in Hl. subst l. by apply elem_of_nil in Hb1.
Qed.

Lemma never_fragmented_witness :
  coalesced (state_of (run_ops 8 churn Script.start) Script.start).
Proof.
  apply (never_fragmented 8 churn Script.start
           [4128; 4168; 4224; 0; 4360; 4128]).
  - reflexivity.
  - done.
  - done.
  - unfold churn. repeat constructor; simpl; done.
  - unfold churn. repeat constructor.
  - vm_compute. reflexivity.
Defined.

(** ** The coalescing pass loses no byte *)

Lemma merge_free_blocks_merged fuel hi s lo cur l :
  arena (blocks s) hi lo cur l → hi < modulus → (length l < fuel)%nat →
  ∃ hs' l',
    merge_free_blocks fuel cur s = Ret tt (with_blocks hs' s) ∧
    arena hs' hi lo cur l' ∧
    (∀ b, b ∉ l → hs' !! b = blocks s !! b) ∧
    merged (blocks s) hs' l l'.
Proof.
  revert s lo cur l.
  induction fuel as [|fuel IH]; intros s lo cur l Hall Hhi Hlen; [lia|].
  destruct l as [|b l0].
  { apply arena_nil_inv in Hall as Hinv. destruct Hinv as [-> Hlo]. simpl.
    exists (blocks s), []. rewrite with_blocks_id.
    do 3 (split; [done|]). unfold merged. split_and!.
    - done.
    - intros x hx Hx. by apply elem_of_nil in Hx.
    - intros x hx Hx. by apply elem_of_nil in Hx. }
  apply arena_cons_inv in Hall as Hinv.
  destruct Hinv as [-> (h & Hlo & Hb & E & Hsz & Ha0)]. simpl.
  rewrite (eqb_neq_false b 0) by lia.
  rewrite (bind_load_Some _ _ _ _ E).
  destruct l0 as [|n l1].
  { apply arena_nil_inv in Ha0 as Hinv. destruct Hinv as [En Hlo0].
    rewrite En. simpl.
    exists (blocks s), [b]. rewrite with_blocks_id.
    do 3 (split; [done|]). unfold merged. split_and!.
    - done.
    - intros x hx Hx Ex. apply list_elem_of_singleton in Hx as ->.
      exists b, hx, hx. split_and!; try done; try (unfold META_SIZE in *; lia). all: by left.
    - intros x hx Hx Ex. apply list_elem_of_singleton in Hx as ->.
      exists b, hx. split_and!; try done. by left. }
  apply arena_cons_inv in Ha0 as Hinv.
  destruct Hinv as [En (hn & Hlo0 & Hn & Ehn & Hszn & Ha1)].
  rewrite En.
  rewrite (eqb_neq_false n 0) by lia.
  simpl in Hlen.
  assert (Hbn : b ∉ n :: l1).
  { intros Hin. rewrite En in Ha0.
    pose proof (arena_lb _ _ _ _ _ _ Ha0 Hin). unfold META_SIZE in *. lia. }
  (* moving on to [n] *)
  assert (Hadvance :
    ∃ hs' l',
      merge_free_blocks fuel n s = Ret tt (with_blocks hs' s) ∧
      arena hs' hi lo b l' ∧
      (∀ b0, b0 ∉ b :: n :: l1 → hs' !! b0 = blocks s !! b0) ∧
      merged (blocks s) hs' (b :: n :: l1) l').
  { rewrite En in Ha0.
    destruct (IH s _ n (n :: l1) Ha0 Hhi ltac:(simpl; lia))
      as (hs' & l2 & Erun & Ha2 & Hfr2 & Hsub2 & Hin2 & Hend2).
    assert (E' : hs' !! b = Some h) by (by rewrite Hfr2).
    exists hs', (b :: l2). split; [done|]. split; [|split].
    - apply (arena_cons _ _ _ _ h); try done. by rewrite En.
    - intros x Hx. apply Hfr2. intros Hin. apply Hx. by right.
    - unfold merged. split_and!.
      + intros x Hx. apply elem_of_cons in Hx as [->|Hx]; [by left|].
        right. by apply Hsub2.
      + intros x hx Hx Ex. apply elem_of_cons in Hx as [->|Hx].
        * exists b, hx, hx. rewrite E in Ex. injection Ex as <-.
          split_and!; try done; try (unfold META_SIZE in *; lia). all: by left.
        * destruct (Hin2 x hx Hx Ex)
            as (c & hc & hc' & Hc & Ec & Ec' & Hle & Hge & Hfree).
          exists c, hc, hc'. split_and!; try done. by right.
      + intros x hx' Hx Ex. apply elem_of_cons in Hx as [->|Hx].
        * exists b, h. rewrite E' in Ex. injection Ex as <-.
          split_and!; try done. by left.
        * destruct (Hend2 x hx' Hx Ex) as (y & hy & Hy & Ey & Heq).
          exists y, hy. split_and!; try done. by right. }
  destruct (bm_free h =? 0) eqn:Ef; [exact Hadvance|].
  rewrite (bind_load_Some _ _ _ _ Ehn).
  destruct (negb (bm_free hn =? 0) &&
            (ptr_add (ptr_add b META_SIZE) (bm_size h) =? n)) eqn:Ec;
    [|exact Hadvance].
  (* [n] is merged into [b], which is looked at again *)
  clear Hadvance.
  apply Z.eqb_neq in Ef.
  apply andb_true_iff in Ec as [Efn Eadj].
  apply negb_true_iff, Z.eqb_neq in Efn.
  apply Z.eqb_eq in Eadj.
  fold (block_end b h) in Eadj.
  rewrite (block_end_exact _ _ _ _ _ _ _ Hall Hhi ltac:(by left) E) in Eadj.
  destruct (arena_ub _ _ _ _ _ _ _ Hall ltac:(right; by left) Ehn)
    as (_ & _ & Hub).
  rewrite (bind_modify_Some _ _ _ _ _ E).
  rewrite (bind_modify_Some _ _ _ _ _ (lookup_update_eq _ _ _)).
  rewrite update_update.
  set (hb := set_next (bm_next hn)
               (set_size (wrap (bm_size h + wrap (META_SIZE + bm_size hn)))
                  h)).
  assert (Hsize : bm_size hb = bm_size h + META_SIZE + bm_size hn).
  { subst hb. simpl. unfold META_SIZE in *.
    rewrite (wrap_small (32 + bm_size hn)) by lia.
    rewrite wrap_small by lia. lia. }
  assert (Hfb : bm_free hb = bm_free h) by done.
  assert (Hb1 : b ∉ l1).
  { intros Hin. apply Hbn. by right. }
  assert (Ha' : arena (blocks (update b hb s)) hi lo b (b :: l1)).
  { apply (arena_cons _ _ _ _ hb); try done.
    - apply lookup_update_eq.
    - rewrite Hsize. unfold META_SIZE. lia.
    - rewrite Hsize. subst hb. simpl.
      apply (arena_weaken _ _ (n + META_SIZE + bm_size hn));
        [|unfold META_SIZE in *; lia].
      eapply arena_ext; [exact Ha1|].
      intros x Hx. rewrite lookup_insert_ne; [done|]. by intros ->. }
  destruct (IH (update b hb s) lo b (b :: l1) Ha' Hhi ltac:(simpl; lia))
    as (hs' & l2 & Erun & Ha2 & Hfr2 & Hsub2 & Hin2 & Hend2).
  exists hs', l2. rewrite with_blocks_update in Erun.
  (* the block of the new list that holds [b] *)
  destruct (Hin2 b hb ltac:(by left) (lookup_update_eq _ _ _))
    as (c & hc & hc' & Hc & Ec & Ec' & Hle & Hge & Hfree).
  assert (Ecs : ∃ hc0, blocks s !! c = Some hc0 ∧ bm_free hc0 = bm_free hc).
  { destruct (decide (c = b)) as [->|Hne].
    - exists h. rewrite lookup_update_eq in Ec. injection Ec as <-. done.
    - exists hc. by rewrite lookup_update_ne in Ec. }
  destruct Ecs as (hc0 & Ec0 & Hfc0).
  split; [done|]. split; [done|]. split.
  - intros x Hx. rewrite Hfr2.
    + rewrite lookup_update_ne; [done|]. intros ->. apply Hx. by left.
    + intros Hin. apply Hx.
      apply elem_of_cons in Hin as [->|Hin]; [by left|right; by right].
  - unfold merged. split_and!.
    + intros x Hx. apply Hsub2 in Hx.
      apply elem_of_cons in Hx as [->|Hx]; [by left|right; by right].
    + intros x hx Hx Ex.
      apply elem_of_cons in Hx as [->|Hx];
        [|apply elem_of_cons in Hx as [->|Hx]].
      * rewrite E in Ex. injection Ex as <-.
        exists c, hc0, hc'. split_and!; try done; try (unfold META_SIZE in *; lia).
        all: intros Hne; destruct (Hfree Hne) as [_ ?]; split; congruence.
      * rewrite Ehn in Ex. injection Ex as <-.
        assert (bm_free hc0 ≠ 0).
        { destruct (decide (b = c)) as [<-|Hne].
          - rewrite E in Ec0. injection Ec0 as <-. done.
          - destruct (Hfree Hne) as [_ ?]. congruence. }
        exists c, hc0, hc'. split_and!; try done; try (unfold META_SIZE in *; lia).
      * assert (Hxb : x ≠ b) by (by intros ->).
        destruct (Hin2 x hx ltac:(by right)
                    ltac:(by rewrite lookup_update_ne))
          as (d & hd & hd' & Hd & Ed & Ed' & Hled & Hged & Hfreed).
        destruct (decide (d = b)) as [->|Hne].
        -- rewrite lookup_update_eq in Ed. injection Ed as <-.
           exists b, h, hd'. split_and!; try done.
        -- exists d, hd, hd'. rewrite lookup_update_ne in Ed by done.
           split_and!; try done.
    + intros x hx' Hx Ex.
      destruct (Hend2 x hx' Hx Ex) as (y & hy & Hy & Ey & Heq).
      apply elem_of_cons in Hy as [->|Hy].
      * rewrite lookup_update_eq in Ey. injection Ey as <-.
        exists n, hn. split_and!; try done; try (unfold META_SIZE in *; lia). right; by left.
      * exists y, hy. rewrite lookup_update_ne in Ey by (by intros ->).
        split_and!; try done. right. by right.
Qed.

(** The pass on an ordered heap, with what it does to the list. *)
Lemma merge_free_blocks_exact s l fuel s' :
  heap_ok s → block_list s l →
  merge_free_blocks fuel (global_base s) s = Ret tt s' →
  heap_ok s' ∧ coalesced s' ∧
  (∀ b, flags_of <$> blocks s' !! b = flags_of <$> blocks s !! b) ∧
  ∃ l', block_list s' l' ∧ merged (blocks s) (blocks s') l l'.
Proof.
  intros Hok Hl E. pose proof (heap_ok_block_list _ _ Hok Hl) as Ha.
  destruct (merge_free_blocks_ok _ _ Hok Hl) as [_ Hall].
  destruct (Hall _ _ E) as (Hok' & Hco & _).
  destruct (merge_free_blocks_writes _ _ _ _ E) as [_ Hflags].
  destruct (merge_free_blocks_merged (max fuel (S (length l))) _ _ _ _ _
              Ha (proj1 Hok) ltac:(lia))
    as (hs' & l' & Erun & Ha' & _ & Hm).
  rewrite (merge_free_blocks_fuel _ _ _ _ _ E (Nat.le_max_l _ _)) in Erun.
  injection Erun as ->.
  do 3 (split; [done|]).
  exists l'. split; [|done]. by apply arena_chain in Ha'.
Qed.

(** ** [free] merges *)

Lemma flanked_arena :
  arena (blocks flanked) 4240 1 4096 [4096; 4144; 4192].
Proof. do 3 arena_step. apply arena_nil. unfold META_SIZE. lia. Qed.

Lemma flanked_ok : heap_ok flanked.
Proof.
  split; [done|]. exists [4096; 4144; 4192]. apply flanked_arena.
Qed.

Lemma flanked_list : block_list flanked [4096; 4144; 4192].
Proof. apply (arena_chain _ _ _ _ _ flanked_arena). Qed.

(** [free] on an ordered heap, flag writes and pass together. *)
Lemma free_exact ptr s h l :
  heap_ok s → block_list s l → ptr ≠ 0 →
  blocks s !! header_of ptr = Some h →
  bm_free h = 0 → allocated_tag (bm_magic h) = true →
  (∃ s', free (S (length l)) ptr s = Ret tt s') ∧
  ∀ fuel s', free fuel ptr s = Ret tt s' →
    heap_ok s' ∧ coalesced s' ∧
    flags_of <$> blocks s' !! header_of ptr = Some (1, 0, MAGIC_FREED) ∧
    ∃ l', block_list s' l' ∧
          merged (blocks (update (header_of ptr) (released h) s))
                 (blocks s') l l'.
Proof.
  intros Hok Hl Hp E Hf Ht.
  set (s1 := update (header_of ptr) (released h) s).
  assert (Hok1 : heap_ok s1) by (by eapply heap_ok_flag_stable).
  assert (Hl1 : block_list s1 l).
  { unfold block_list, s1. simpl. by eapply chain_update. }
  destruct (merge_free_blocks_ok _ _ Hok1 Hl1) as [Hex _].
  assert (Hfree : ∀ fuel, free fuel ptr s =
                          merge_free_blocks fuel (global_base s1) s1).
  { intros fuel. by rewrite (free_unfold _ _ _ _ Hp E), Hf, Ht. }
  split.
  - by rewrite Hfree.
  - intros fuel s'. rewrite Hfree. intros Er.
    destruct (merge_free_blocks_exact _ _ _ _ Hok1 Hl1 Er)
      as (Hok' & Hco & Hflags & l' & Hl' & Hm).
    split_and!; try done.
    + rewrite Hflags. unfold s1. by rewrite lookup_update_eq.
    + by exists l'.
Qed.

(** On an ordered heap, [free] of a pointer to an allocated block
    returns once the fuel exceeds the length of the list.  Whenever it
    returns, the heap is still ordered, no two free blocks of the list
    are adjacent, and the new list is the old one, the released block
    flagged, with free blocks merged into the free block before them: no
    block has entered the list, every old block lies inside a new block
    (itself, or a free block that took over the free block), and every
    new block ends where an old block ended. *)
Theorem free_coalesces ptr s h l :
  heap_ok s → block_list s l → ptr ≠ 0 →
  blocks s !! header_of ptr = Some h →
  bm_free h = 0 → allocated_tag (bm_magic h) = true →
  (∃ s', free (S (length l)) ptr s = Ret tt s') ∧
  ∀ fuel s', free fuel ptr s = Ret tt s' →
    heap_ok s' ∧ coalesced s' ∧
    ∃ l', block_list s' l' ∧
          merged (blocks (update (header_of ptr) (released h) s))
                 (blocks s') l l'.
Proof.
  intros Hok Hl Hp E Hf Ht.
  destruct (free_exact _ _ _ _ Hok Hl Hp E Hf Ht) as [Hex Hall].
  split; [done|]. intros fuel s' Er.
  by destruct (Hall _ _ Er) as (? & ? & _ & ?).
Qed.

Lemma free_coalesces_witness :
  (∃ s', free 4 4176 flanked = Ret tt s') ∧
  ∀ fuel s', free fuel 4176 flanked = Ret tt s' →
    heap_ok s' ∧ coalesced s' ∧
    ∃ l', block_list s' l' ∧
          merged (blocks (update (header_of 4176)
                            (released (mk_meta 16 4192 0 1 MAGIC_FRESH))
                            flanked))
                 (blocks s') [4096; 4144; 4192] l'.
Proof.
  apply (free_coalesces 4176 flanked (mk_meta 16 4192 0 1 MAGIC_FRESH)
           [4096; 4144; 4192]).
  - apply flanked_ok.
  - apply flanked_list.
  - done.
  - vm_compute. reflexivity.
  - reflexivity.
  - reflexivity.
Defined.

(** On that heap the release of the block in the middle turns three
    blocks of 16 bytes into one free block of 16 + 32 + 16 + 32 + 16
    bytes, alone in the list. *)
Example free_merges_three :
  let s' := Demo.run (free 8 4176) flanked in
  free 8 4176 flanked = Ret tt s' ∧
  block_list s' [4096] ∧
  blocks s' !! 4096 = Some (mk_meta 112 0 1 0 MAGIC_FREED).
Proof.
  split; [vm_compute; reflexivity|]. split; [|vm_compute; reflexivity].
  apply (chain_cons _ 4096 (mk_meta 112 0 1 0 MAGIC_FREED));
    [done|vm_compute; reflexivity|constructor].
Qed.

(** ** The checks of [free] reached through [realloc] *)

Lemma stale_arena :
  arena (blocks stale) 4240 1 4096 [4096; 4144; 4192].
Proof. do 3 arena_step. apply arena_nil. unfold META_SIZE. lia. Qed.

Lemma stale_ok : heap_ok stale.
Proof.
  split; [done|]. exists [4096; 4144; 4192]. apply stale_arena.
Qed.

Lemma stale_list : block_list stale [4096; 4144; 4192].
Proof. apply (arena_chain _ _ _ _ _ stale_arena). Qed.

Lemma smudged_arena :
  arena (blocks smudged) 4240 1 4096 [4096; 4144; 4192].
Proof. do 3 arena_step. apply arena_nil. unfold META_SIZE. lia. Qed.

Lemma smudged_ok : heap_ok smudged.
Proof.
  split; [done|]. exists [4096; 4144; 4192]. apply smudged_arena.
Qed.

Lemma smudged_list : block_list smudged [4096; 4144; 4192].
Proof. apply (arena_chain _ _ _ _ _ smudged_arena). Qed.

(** A [malloc] that cannot take the block at [b] leaves its flag and
    its tag alone. *)
Lemma malloc_keeps_checked fuel size s l p s' b h :
  heap_ok s → brk_max s < modulus → block_list s l →
  0 < size <= 2 ^ 62 →
  malloc fuel size s = Ret p s' →
  b ∈ l → blocks s !! b = Some h → bm_size h < size →
  ∃ h', blocks s' !! b = Some h' ∧ bm_free h' = bm_free h ∧
        bm_magic h' = bm_magic h.
Proof.
  intros Hok Hmax Hl Hs E Hb Eb Hlt.
  destruct (align8_bound _ Hs) as [Hle Hub].
  pose proof (align8_range size) as [Hnn _].
  pose proof (heap_ok_block_list _ _ Hok Hl) as Ha.
  assert (Hbrk : brk s ∉ l) by (by apply (arena_notin_above _ _ _ _ _ _ Ha)).
  destruct (malloc_shapes _ _ _ _ _ _ Hok Hmax Hl Hs E)
    as [->|[(-> & ->)|[(lst & hl & Hlast & El & ->)
       |[(c & hc & Hc & Ec & Hf & Hfit & ->)
        |(c & hc & Hc & Ec & Hf & Hfit & ->)]]]].
  - by exists h.
  - by apply elem_of_nil in Hb.
  - assert (b ≠ brk s) by (by intros ->). simpl.
    rewrite lookup_insert_ne by done.
    destruct (decide (b = lst)) as [->|Hne].
    + rewrite lookup_insert_eq. rewrite El in Eb. injection Eb as <-.
      by exists (set_next (brk s) hl).
    + rewrite lookup_insert_ne by done. by exists h.
  - assert (c ≠ b).
    { intros ->. rewrite Eb in Ec. injection Ec as <-. lia. }
    simpl. rewrite lookup_insert_ne by done. by exists h.
  - assert (c ≠ b).
    { intros ->. rewrite Eb in Ec. injection Ec as <-.
      unfold META_SIZE, MIN_SIZE in *. lia. }
    assert (c + META_SIZE + align8 size ≠ b).
    { intros <-.
      destruct (arena_ub _ _ _ _ _ _ _ Ha Hc Ec) as (_ & Hsz & _).
      apply (arena_interior_notin _ _ _ _ _ c hc
               (c + META_SIZE + align8 size) Ha Hc Ec); [|done].
      unfold META_SIZE, MIN_SIZE in *. lia. }
    simpl. rewrite !lookup_insert_ne by done. by exists h.
Qed.

(** A growing [realloc] reaches the checks of [free]: on an ordered
    heap it aborts on a block whose tag is not an allocated one or whose
    free flag is set, in [malloc] when the memory is exhausted and in
    [free] otherwise. *)
Lemma realloc_grow_checks fuel ptr size s l h :
  heap_ok s → brk_max s < modulus → brk s ≠ SBRK_FAILED →
  block_list s l → header_of ptr ∈ l → (length l < fuel)%nat →
  ptr ≠ 0 → blocks s !! header_of ptr = Some h →
  allocated_tag (bm_magic h) = false ∨ bm_free h ≠ 0 →
  bm_size h < size <= 2 ^ 62 →
  realloc fuel ptr size s = Abort.
Proof.
  intros Hok Hmax Hbf Hl Hin Hlen Hp Eh Hbad [Hlt Hs].
  pose proof (heap_ok_block_list _ _ Hok Hl) as Ha.
  destruct (arena_ub _ _ _ _ _ _ _ Ha Hin Eh) as (_ & Hnn & _).
  assert (Hr : 0 < size <= 2 ^ 62) by lia.
  rewrite (realloc_grow_unfold _ _ _ _ _ Hp Eh Hlt Hnn).
  assert (Hm : malloc fuel size s = Abort ∨
               ∃ p s1, malloc fuel size s = Ret p s1 ∧ p ≠ 0).
  { destruct (find_free_block_spec fuel 0 (align8 size) s l Hl Hlen)
      as (b & last' & _ & Hres).
    destruct Hres as [(_ & Hno & _)|(l1 & l2 & Heq & Hfit & _)].
    - destruct (decide (brk_start s <= brk s + (align8 size + META_SIZE)
                        <= brk_max s)) as [Hroom|Hroom].
      + right. apply (malloc_returns _ _ _ l); auto.
      + left. by apply (malloc_exhausted _ _ _ l).
    - right. apply (malloc_returns _ _ _ l); auto. left. exists b.
      split; [|done]. rewrite Heq, elem_of_app, elem_of_cons. auto. }
  destruct Hm as [Em|(p & s1 & Em & Hpnz)].
  { by rewrite bind_unfold, Em. }
  destruct (malloc_keeps_checked _ _ _ _ _ _ _ _ Hok Hmax Hl Hr Em Hin Eh Hlt)
    as (h1 & Eh1 & Hf1 & Hm1).
  rewrite (bind_Ret _ _ _ _ _ Em), (eqb_neq_false _ _ Hpnz).
  rewrite bind_unfold, (bind_load_Some _ _ _ _ Eh1), bind_unfold.
  cbn [memcpy].
  set (s2 := with_mem _ s1).
  assert (Eh2 : blocks s2 !! header_of ptr = Some h1) by done.
  rewrite (free_unfold _ _ _ _ Hp Eh2), Hf1, Hm1.
  destruct (bm_free h =? 0) eqn:Ef; [|done].
  destruct Hbad as [->|Hf]; [done|]. by apply Z.eqb_eq in Ef.
Qed.

(** C5, amended: [free] on a non-null pointer aborts when the tag of the
    block is not one of the two allocated tags or when its free flag is
    set; so does [realloc] with size 0, which calls [free], and, on an
    ordered heap, [realloc] with a size above the recorded one, which
    calls [malloc] and then [free].  [realloc] with a non-zero size that
    the block already holds checks nothing and returns the pointer.
    [free] on a block with a clear flag and an allocated tag sets the
    flag, clears the mark, writes [MAGIC_FREED] and runs
    [merge_free_blocks] from the list head; on an ordered heap that call
    returns once the fuel exceeds the length of the list, and it leaves
    the flags written, no two free blocks of the list adjacent and every
    block that left the list merged into the free block before it. *)
Theorem release_integrity fuel ptr s h :
  ptr ≠ 0 →
  blocks s !! header_of ptr = Some h →
  (allocated_tag (bm_magic h) = false ∨ bm_free h ≠ 0 →
   free fuel ptr s = Abort ∧ realloc fuel ptr 0 s = Abort ∧
   ∀ size l,
     heap_ok s → brk_max s < modulus → brk s ≠ SBRK_FAILED →
     block_list s l → header_of ptr ∈ l → (length l < fuel)%nat →
     bm_size h < size <= 2 ^ 62 →
     realloc fuel ptr size s = Abort) ∧
  (∀ size, 0 < size <= bm_size h → realloc fuel ptr size s = Ret ptr s) ∧
  (allocated_tag (bm_magic h) = true → bm_free h = 0 →
   free fuel ptr s =
     merge_free_blocks fuel (global_base s)
       (update (header_of ptr)
          (mk_meta (bm_size h) (bm_next h) 1 0 MAGIC_FREED) s) ∧
   ∀ l, heap_ok s → block_list s l →
     ((length l < fuel)%nat → ∃ s', free fuel ptr s = Ret tt s') ∧
     ∀ s', free fuel ptr s = Ret tt s' →
       flags_of <$> blocks s' !! header_of ptr = Some (1, 0, MAGIC_FREED) ∧
       heap_ok s' ∧ coalesced s' ∧
       ∃ l', block_list s' l' ∧
             merged (blocks (update (header_of ptr) (released h) s))
                    (blocks s') l l').
Proof.
  intros Hp E. split; [|split].
  - intros Hbad.
    assert (Ef : free fuel ptr s = Abort).
    { rewrite (free_unfold _ _ _ _ Hp E).
      destruct (bm_free h =? 0) eqn:Ef; [|done].
      destruct Hbad as [->|Hf]; [done|]. by apply Z.eqb_eq in Ef. }
    split_and!; [done|by rewrite (realloc_zero _ _ _ Hp), Ef|].
    intros size l Hok Hmax Hbf Hl Hin Hlen Hsz.
    by apply (realloc_grow_checks _ _ _ _ l h).
  - intros size [Hpos Hle].
    apply (realloc_fits _ _ _ _ h); [done|lia|done|done].
  - intros Ht Hf. split.
    { rewrite (free_unfold _ _ _ _ Hp E), Ht, Hf. done. }
    intros l Hok Hl.
    destruct (free_exact _ _ _ _ Hok Hl Hp E Hf Ht) as [[s0 Hex] Hall].
    split.
    + intros Hlen. exists s0.
      rewrite (free_unfold (S (length l)) _ _ _ Hp E), Ht, Hf in Hex.
      rewrite (free_unfold fuel _ _ _ Hp E), Ht, Hf.
      apply (merge_free_blocks_fuel _ _ _ _ _ Hex). lia.
    + intros s' Er.
      destruct (Hall _ _ Er) as (? & ? & ? & ?). by split_and!.
Qed.

Lemma release_integrity_witness :
  (free 8 4128 stale = Abort ∧ realloc 8 4128 0 stale = Abort ∧
   realloc 8 4128 100 stale = Abort ∧ realloc 8 4128 8 stale = Ret 4128 stale)
  ∧
  (free 8 4176 smudged = Abort ∧ realloc 8 4176 0 smudged = Abort ∧
   realloc 8 4176 17 smudged = Abort)
  ∧
  (∃ s', free 8 4176 flanked = Ret tt s' ∧
     flags_of <$> blocks s' !! header_of 4176 = Some (1, 0, MAGIC_FREED) ∧
     heap_ok s' ∧ coalesced s' ∧
     ∃ l', block_list s' l' ∧
           merged (blocks (update (header_of 4176)
                             (released (mk_meta 16 4192 0 1 MAGIC_FRESH))
                             flanked))
                  (blocks s') [4096; 4144; 4192] l').
Proof.
  split.
  - destruct (release_integrity 8 4128 stale
                (mk_meta 16 4144 1 0 MAGIC_FREED))
      as (Hbad & Hfit & _); [done|vm_compute; reflexivity|].
    destruct Hbad as (Hfree & Hzero & Hgrow); [by left|].
    split_and!; [done|done| |].
    + apply (Hgrow 100 [4096; 4144; 4192]).
      * apply stale_ok.
      * done.
      * done.
      * apply stale_list.
      * change (header_of 4128) with 4096. rewrite !elem_of_cons. tauto.
      * simpl. lia.
      * split; [simpl; lia|done].
    + apply Hfit. simpl. lia.
  - split.
    { destruct (release_integrity 8 4176 smudged (mk_meta 16 4192 0 1 0))
        as (Hbad & _); [done|vm_compute; reflexivity|].
      destruct Hbad as (Hfree & Hzero & Hgrow); [by left|].
      split_and!; [done|done|].
      apply (Hgrow 17 [4096; 4144; 4192]).
      - apply smudged_ok.
      - done.
      - done.
      - apply smudged_list.
      - change (header_of 4176) with 4144. rewrite !elem_of_cons. tauto.
      - simpl. lia.
      - split; [simpl; lia|done]. }
    destruct (release_integrity 8 4176 flanked
                (mk_meta 16 4192 0 1 MAGIC_FRESH))
      as (_ & _ & Hgood); [done|vm_compute; reflexivity|].
    destruct Hgood as [_ Hgood]; [reflexivity|reflexivity|].
    destruct (Hgood [4096; 4144; 4192] flanked_ok flanked_list)
      as [Hret Hall].
    destruct Hret as [s' Es']; [simpl; lia|].
    exists s'. split; [done|]. by apply Hall.
Defined.

(** ** Requests that [sbrk] takes for negative *)

(** [request_space] after its first three statements. *)
Lemma request_space_steps last size s :
  request_space last size s =
    (request ← request_space_grant size;
     if request =? SBRK_FAILED then ret 0
     else
       (if last =? 0 then ret tt else modify last (set_next request));;
       store request (mk_meta size 0 0 1 MAGIC_FRESH);;
       ret request) s.
Proof.
  unfold request_space, request_space_grant.
  repeat (rewrite ?bind_unfold, ?sbrk_0; cbn beta iota).
  destruct (sbrk (wrap (size + META_SIZE)) s) as [request s1| | |]; try done.
  repeat (rewrite ?bind_unfold; cbn beta iota). unfold assert.
  destruct (brk s =? request) eqn:Eq; [|done].
  apply Z.eqb_eq in Eq. rewrite Eq, ret_unfold. reflexivity.
Qed.

(** A request whose size plus the header is [2 ^ 63] or more is not
    refused.  [sbrk] receives the sum as a negative increment: when the
    break may move down that far, the break is lowered and the old break
    is returned, so the assertion holds and the result is not
    [(void * ) -1].  [request_space] therefore goes on to write the new
    header at the old break, which is no longer below the break. *)
Theorem request_space_lowers_break size s :
  2 ^ 63 <= size + META_SIZE < modulus →
  0 < brk s < modulus - 1 → brk s <= brk_max s →
  brk_start s <= brk s - (modulus - (size + META_SIZE)) →
  request_space_grant size s =
    Ret (brk s) (with_brk (brk s - (modulus - (size + META_SIZE))) s) ∧
  (brk s =? SBRK_FAILED) = false ∧
  brk s - (modulus - (size + META_SIZE)) < brk s.
Proof.
  intros Hbig Hbrk Hmax Hlow.
  assert (Hm : modulus = 18446744073709551616) by done.
  assert (H63 : 2 ^ 63 = 9223372036854775808) by done.
  assert (Es : sbrk (wrap (size + META_SIZE)) s =
               Ret (brk s)
                 (with_brk (brk s - (modulus - (size + META_SIZE))) s)).
  { unfold sbrk. cbn zeta. rewrite wrap_small by lia.
    unfold to_intptr. rewrite (proj2 (Z.ltb_ge _ _) (proj1 Hbig)).
    rewrite (eqb_neq_false (size + META_SIZE - modulus) 0) by lia.
    replace (brk s + (size + META_SIZE - modulus))
      with (brk s - (modulus - (size + META_SIZE))) by lia.
    assert (Hup : brk s - (modulus - (size + META_SIZE)) <= brk_max s)
      by lia.
    by rewrite (proj2 (Z.leb_le _ _) Hlow), (proj2 (Z.leb_le _ _) Hup). }
  split_and!.
  - unfold request_space_grant.
    rewrite bind_sbrk_0, (bind_Ret _ _ _ _ _ Es).
    rewrite bind_unfold. unfold assert. by rewrite Z.eqb_refl.
  - apply Z.eqb_neq. rewrite SBRK_FAILED_eq. lia.
  - lia.
Qed.

Lemma request_space_lowers_break_witness :
  request_space_grant (modulus - 176) Cases.three =
    Ret (brk Cases.three)
      (with_brk (brk Cases.three - (modulus - (modulus - 176 + META_SIZE)))
         Cases.three) ∧
  (brk Cases.three =? SBRK_FAILED) = false ∧
  brk Cases.three - (modulus - (modulus - 176 + META_SIZE))
    < brk Cases.three.
Proof.
  apply (request_space_lowers_break (modulus - 176) Cases.three).
  - split; by vm_compute.
  - split; by vm_compute.
  - by vm_compute.
  - by vm_compute.
Defined.

(** The break of [Cases.three] is 4240; a request of [2 ^ 64 - 176]
    bytes moves it down to 4096, the start of the heap. *)
Example request_space_lowers_to_start :
  brk (state_of (request_space_grant (modulus - 176) Cases.three)
         Cases.three) = 4096.
Proof. vm_compute. reflexivity. Qed.
